(** * xbfuse: the directory hierarchy (tree.c) and the XDVDFS reader (xdvdfs.c)

    A shallow embedding of the two C files and the properties of the
    path tree, of the read and open operations, and of the on-disk
    directory parser.

    Conventions of the embedding.
    - A C string (NUL-terminated [char *]) is a [string]: the bytes before
      the terminator.  [tree_insert] receives [path] together with [length];
      its single caller passes [strlen(path)], so [path] is the whole
      [length]-byte text.
    - The [sub]/[next] linked list of siblings is a [list tree], head first.
    - [off_t], [size_t] and [unsigned int] values are [Z]; where the C
      arithmetic can wrap, the wrap is written out ([to_off_t], [to_size_t],
      [to_uint]).
    - The image file behind the descriptor is a [list byte] with the
      descriptor's cursor and the largest file offset of its file system
      next to it; [lseek] and [read] are those of Linux, the platform of
      FUSE. *)

From Stdlib Require Import ZArith List String Ascii Bool Lia Permutation.
From Stdlib Require Strings.Byte.
Import ListNotations.
Local Open Scope string_scope.
Local Open Scope Z_scope.

(** ** struct tree (tree.h) *)

(** [nsubdirs] is an [int] in C; it counts nodes of the tree and stays far
    below the range of [int], so it is a plain [Z] here. *)
Local Unset Elimination Schemes.
Inductive tree : Type := Tree {
  name : string;
  is_dir : bool;
  offset : Z;
  size : Z;
  nsubdirs : Z;
  sub : list tree }.
Local Set Elimination Schemes.

(** ** String helpers standing for the libc calls of tree.c *)

Definition slash : ascii := "/"%char.

(** [memchr(path, '/', length)] followed by [*pos = '\0']: the text before
    the first ['/'] and the text after it ([pos + 1]). *)
Fixpoint memchr_slash (path : string) : option (string * string) :=
  match path with
  | EmptyString => None
  | String c rest =>
      if Ascii.eqb c slash then Some (EmptyString, rest)
      else match memchr_slash rest with
           | Some (dir, rem) => Some (String c dir, rem)
           | None => None
           end
  end.

(** [strncmp(path, name, strlen(name)) == 0], and then
    [next = path + strlen(name)]. *)
Fixpoint skip_name (nm path : string) : option string :=
  match nm with
  | EmptyString => Some path
  | String a nm' =>
      match path with
      | EmptyString => None
      | String b path' => if Ascii.eqb a b then skip_name nm' path' else None
      end
  end.

(** ** tree_empty *)

Definition tree_empty : tree := Tree "" true 0 0 0 [].

(** ** tree_insert *)

Definition new_directory (nm : string) : tree := Tree nm true 0 0 0 [].
Definition new_file (nm : string) (off sz : Z) : tree :=
  Tree nm false off sz 0 [].

(** The [while (node)] loop of the directory branch: the first sibling
    whose name is [dir] receives the rest of the path; [None] when the loop
    falls through. *)
Fixpoint insert_existing (ins : tree -> tree) (dir : string)
    (l : list tree) : option (list tree) :=
  match l with
  | [] => None
  | node :: l' =>
      if String.eqb (name node) dir then Some (ins node :: l')
      else option_map (cons node) (insert_existing ins dir l')
  end.

(** The recursion of [tree_insert] is on the remaining path, which loses at
    least the separator at each call; [fuel] bounds the depth. *)
Fixpoint tree_insert_rec (fuel : nat) (root : tree) (path : string)
    (off sz : Z) : tree :=
  match fuel with
  | O => root
  | S fuel' =>
      match path with
      | EmptyString => root
      | _ =>
          match memchr_slash path with
          | Some (dir, rest) =>
              match insert_existing
                      (fun node => tree_insert_rec fuel' node rest off sz)
                      dir (sub root) with
              | Some l' =>
                  Tree (name root) (is_dir root) (offset root) (size root)
                       (nsubdirs root) l'
              | None =>
                  Tree (name root) (is_dir root) (offset root) (size root)
                       (nsubdirs root + 1)
                       (tree_insert_rec fuel' (new_directory dir) rest off sz
                          :: sub root)
              end
          | None =>
              Tree (name root) (is_dir root) (offset root) (size root)
                   (nsubdirs root)
                   (new_file path off sz :: sub root)
          end
      end
  end.

Definition tree_insert (root : tree) (path : string) (off sz : Z) : tree :=
  tree_insert_rec (S (String.length path)) root path off sz.

(** ** tree_find_entry *)

(** The [while (node)] loop over the children: the first hit wins. *)
Definition find_first (f : tree -> option tree) : list tree -> option tree :=
  fix loop (l : list tree) : option tree :=
    match l with
    | [] => None
    | node :: l' =>
        match f node with
        | Some ret => Some ret
        | None => loop l'
        end
    end.

(** The result is the node found, [None] for [NULL].  The test for a
    [NULL] root has no counterpart: the loop passes nodes only. *)
Fixpoint tree_find_entry (root : tree) (path : string) : option tree :=
  match root with
  | Tree nm _ _ _ _ children =>
      if String.eqb path nm then Some root
      else
        match skip_name nm path with
        | None => None
        | Some next =>
            match next with
            | EmptyString => None
            | String c next' =>
                if Ascii.eqb c slash then
                  match next' with
                  | EmptyString => Some root
                  | _ =>
                      find_first (fun node => tree_find_entry node next')
                                 children
                  end
                else None
            end
        end
  end.

Definition find_sub (l : list tree) (path : string) : option tree :=
  find_first (fun node => tree_find_entry node path) l.

(** ** Machine integers and the image file

    The LP64 types of the build: [int] and [unsigned int] have 32 bits,
    [off_t] (signed) and [size_t] (unsigned) have 64. *)

Definition to_uint (z : Z) : Z := z mod 2 ^ 32.
Definition to_int (z : Z) : Z := (z + 2 ^ 31) mod 2 ^ 32 - 2 ^ 31.
Definition to_size_t (z : Z) : Z := z mod 2 ^ 64.
Definition to_off_t (z : Z) : Z := (z + 2 ^ 63) mod 2 ^ 64 - 2 ^ 63.

(** Values of <errno.h> and <fcntl.h> on Linux, the platform of FUSE; the
    headers are not part of the repository. *)
Definition ENOENT : Z := 2.
Definition ENOTDIR : Z := 20.
Definition EISDIR : Z := 21.
Definition EROFS : Z := 30.
Definition O_RDONLY : Z := 0.
Definition O_WRONLY : Z := 1.
Definition O_RDWR : Z := 2.
Definition O_ACCMODE : Z := 3.

Definition byte : Type := Byte.byte.
Definition byte_val (b : byte) : Z := Z.of_N (Byte.to_N b).

(** The open image: its content, the cursor of the descriptor, and the
    largest file offset that the file system holding the image accepts
    ([s_maxbytes] of its superblock). *)
Record file : Type := File { image : list byte; cursor : Z; maxbytes : N }.

(** Limits of [read] on Linux: a count above [SSIZE_MAX] is refused, and
    one call transfers at most [MAX_RW_COUNT] bytes ([INT_MAX & PAGE_MASK]
    with pages of 4096 bytes). *)
Definition SSIZE_MAX : Z := 2 ^ 63 - 1.
Definition MAX_RW_COUNT : Z := 0x7ffff000.

(** [lseek(fd, off, SEEK_SET)]: a negative target and a target above the
    maximum of the file system are refused ([EINVAL]) and the cursor stays
    where it was; a target past the end of the image is accepted. *)
Definition lseek (fd : file) (off : Z) : file :=
  if (off <? 0) || (Z.of_N (maxbytes fd) <? off) then fd
  else File (image fd) off (maxbytes fd).

(** [read(fd, buf, count)] on a regular file: the returned [ssize_t], the
    bytes put into [buf], and the descriptor afterwards.  A count above
    [SSIZE_MAX] gives [-1] and transfers nothing.  Otherwise the bytes from
    the cursor are transferred, at most [count] and at most [MAX_RW_COUNT]
    of them and no more than the file holds; the cursor moves past them
    and their number is returned. *)
Definition read (fd : file) (count : Z) : Z * list byte * file :=
  if SSIZE_MAX <? count then (- 1, [], fd)
  else
    let data :=
      firstn (Z.to_nat (Z.min count MAX_RW_COUNT))
             (skipn (Z.to_nat (cursor fd)) (image fd)) in
    (Z.of_nat (List.length data), data,
     File (image fd) (cursor fd + Z.of_nat (List.length data))
          (maxbytes fd)).

(** ** tree_open, tree_read, tree_opendir, tree_readdir *)

(** The part of [struct fuse_file_info] an open could touch: the open flags
    and the file handle slot. *)
Record fuse_file_info : Type := FileInfo { flags : Z; fh : Z }.

(** [tree_open] is given [fi] and [root] by pointer; the result carries
    both as they are on return. *)
Definition tree_open (path : string) (fi : fuse_file_info) (root : tree)
    : Z * fuse_file_info * tree :=
  if negb (Z.land (flags fi) O_WRONLY =? 0) then (- EROFS, fi, root)
  else
    match tree_find_entry root path with
    | None => (- ENOENT, fi, root)
    | Some _ => (0, fi, root)
    end.

(** [tree_read]: the returned [int], the bytes put into [buf], and the
    descriptor afterwards.  [count] is the [size_t size] argument.  The
    mutex around [lseek] and [read] has no counterpart in a sequential
    run. *)
Definition tree_read (path : string) (count : Z) (off : Z) (root : tree)
    (fd : file) : Z * list byte * file :=
  match tree_find_entry root path with
  | None => (- ENOENT, [], fd)
  | Some node =>
      if is_dir node then (- EISDIR, [], fd)
      else if off >=? size node then (0, [], fd)
      else
        let count' :=
          if to_size_t (off + count) >? to_size_t (size node)
          then to_size_t (size node - off) else count in
        let fd1 := lseek fd (to_off_t (offset node + off)) in
        let '(ret, data, fd2) := read fd1 count' in
        (to_int ret, data, fd2)
  end.

Definition tree_opendir (path : string) (root : tree) : Z :=
  match tree_find_entry root path with
  | None => - ENOENT
  | Some node => if is_dir node then 0 else - ENOTDIR
  end.

(** [tree_readdir]: [filler] appends one name to [buf] at each call. *)
Definition tree_readdir (path : string) (buf : list string) (root : tree)
    : Z * list string :=
  match tree_find_entry root path with
  | None => (- ENOENT, buf)
  | Some node =>
      if is_dir node
      then (0, (buf ++ "." :: ".." :: map name (sub node))%list)
      else (- ENOTDIR, buf)
  end.

(** ** xdvdfs.c: constants, byte access, the LE macros *)

Definition SECTOR_SIZE : Z := 2048.
Definition NAME_MAX_SIZE : Z := 1024.
Definition XDVD_SIGNATURE : string := "MICROSOFT*XBOX*MEDIA".
Definition XDVD_SIGNATURE_SIZE : Z := 0x14.

(** [x[i]] for an [unsigned char *x]; only used at indices the caller has
    checked or guarded. *)
Definition at_index (x : list byte) (i : Z) : Z :=
  byte_val (nth (Z.to_nat i) x Byte.x00).

(** The macros of xdvdfs.h, on the promoted [int] operands.  The result
    of [LE_32] goes to an [unsigned int] at each use ([to_uint]), which
    gives the same 32 bits whether or not the shift by 24 reached the sign
    bit of the [int]. *)
Definition LE_16 (x : list byte) (i : Z) : Z :=
  Z.lor (Z.shiftl (at_index x (i + 1)) 8) (at_index x i).

Definition LE_32 (x : list byte) (i : Z) : Z :=
  Z.lor (Z.lor (Z.lor (Z.shiftl (at_index x (i + 3)) 24)
                      (Z.shiftl (at_index x (i + 2)) 16))
               (Z.shiftl (at_index x (i + 1)) 8))
        (at_index x i).

(** The bytes [x[i .. i+n)]. *)
Definition slice (x : list byte) (i n : Z) : list byte :=
  firstn (Z.to_nat n) (skipn (Z.to_nat i) x).

(** The C string held by a byte array: the bytes before the first NUL. *)
Fixpoint cstring (bs : list byte) : string :=
  match bs with
  | [] => ""
  | b :: r =>
      if Byte.eqb b Byte.x00 then ""
      else String (ascii_of_byte b) (cstring r)
  end.

(** [strncmp(a, b, n) == 0] for a byte array [a] and a literal [b]. *)
Fixpoint strncmp_eq (n : nat) (a : list byte) (b : string) : bool :=
  match n with
  | O => true
  | S n' =>
      match a, b with
      | x :: a', String y b' =>
          if Ascii.eqb (ascii_of_byte x) y then strncmp_eq n' a' b' else false
      | x :: _, EmptyString => Byte.eqb x Byte.x00
      | [], _ => false
      end
  end.

(** ** Outcomes of the parser

    The two recursive functions return [void]; what they leave behind is
    the descriptor and the tree.  Two accesses of the code can leave their
    arrays, which C does not define; the embedding stops there. *)

Inductive fault : Type :=
| NameCopyOverrun    (* a write past [name_copy[NAME_MAX_SIZE]] *)
| DirEntryOverread.  (* [memcpy] reads past the end of [dir_entry] *)

Inductive outcome (A : Type) : Type :=
| Done (a : A)
| Undefined (f : fault)
| OutOfFuel.
Arguments Done {A} a.
Arguments Undefined {A} f.
Arguments OutOfFuel {A}.

Definition bind {A B : Type} (m : outcome A) (k : A -> outcome B)
    : outcome B :=
  match m with
  | Done a => k a
  | Undefined f => Undefined f
  | OutOfFuel => OutOfFuel
  end.

Notation "x <- m ;; k" := (bind m (fun x => k))
  (at level 61, m at next level, right associativity).

Definition state : Type := (file * tree)%type.

(** ** xbfs_recurse_directory and xbfs_recurse_file_subtree *)

(** [xbfs_recurse_directory], with the walk over the loaded block passed
    in; [malloc] is taken to succeed. *)
Definition recurse_directory_with
    (walk : string -> list byte -> Z -> state -> outcome state)
    (name_buffer : string) (filesystem_base_offset : Z)
    (dir_entry_sector dir_entry_size : Z) (st : state) : outcome state :=
  let current_offset :=
    to_off_t (filesystem_base_offset + dir_entry_sector * SECTOR_SIZE) in
  let fd1 := lseek (fst st) current_offset in
  let '(ret, dir_entry, fd2) := read fd1 dir_entry_size in
  if negb (ret =? dir_entry_size)
  then Done (fd2, snd st)
  else walk name_buffer dir_entry dir_entry_size (fd2, snd st).

Fixpoint xbfs_recurse_file_subtree (fuel : nat) (name_buffer : string)
    (filesystem_base_offset : Z) (dir_entry : list byte)
    (dir_entry_size : Z) (filerecord_offset : Z) (st : state)
    {struct fuel} : outcome state :=
  match fuel with
  | O => OutOfFuel
  | S fuel' =>
      if filerecord_offset + 0xD >=? dir_entry_size then Done st
      else
        (* process left subtree *)
        let subtree_offset := LE_16 dir_entry filerecord_offset * 4 in
        st1 <- (if subtree_offset =? 0 then Done st
                else xbfs_recurse_file_subtree fuel' name_buffer
                       filesystem_base_offset dir_entry dir_entry_size
                       subtree_offset st) ;;
        (* process file *)
        let file_sector := to_uint (LE_32 dir_entry (filerecord_offset + 4)) in
        let file_size := to_uint (LE_32 dir_entry (filerecord_offset + 8)) in
        let file_attributes := at_index dir_entry (filerecord_offset + 0xC) in
        let is_dir := Z.land file_attributes 0x10 in
        let filename_size := at_index dir_entry (filerecord_offset + 0xD) in
        let start_index := Z.of_nat (String.length name_buffer) in
        let name_bytes :=
          slice dir_entry (filerecord_offset + 0xE) filename_size in
        st2 <-
          (if start_index + 1 >? NAME_MAX_SIZE
           then Undefined NameCopyOverrun                       (* strcpy *)
           else if filerecord_offset + 0xE + filename_size >? dir_entry_size
           then Undefined DirEntryOverread                      (* memcpy *)
           else if start_index + filename_size >=? NAME_MAX_SIZE
           then Undefined NameCopyOverrun         (* memcpy, terminator *)
           else if negb (is_dir =? 0) then
             if start_index + filename_size + 1 >=? NAME_MAX_SIZE
             then Undefined NameCopyOverrun
             else
               let name_copy :=
                 name_buffer ++ cstring (name_bytes ++ [Byte.x2f]) in
               recurse_directory_with
                 (fun nb de sz s =>
                    xbfs_recurse_file_subtree fuel' nb
                      filesystem_base_offset de sz 0 s)
                 name_copy filesystem_base_offset file_sector file_size st1
           else
             let name_copy := name_buffer ++ cstring name_bytes in
             Done (fst st1,
                   tree_insert (snd st1) name_copy
                     (to_off_t (filesystem_base_offset
                                + file_sector * SECTOR_SIZE))
                     file_size)) ;;
        (* process right subtree *)
        let subtree_offset := LE_16 dir_entry (filerecord_offset + 2) * 4 in
        if subtree_offset =? 0 then Done st2
        else xbfs_recurse_file_subtree fuel' name_buffer
               filesystem_base_offset dir_entry dir_entry_size
               subtree_offset st2
  end.

Definition xbfs_recurse_directory (fuel : nat) (name_buffer : string)
    (filesystem_base_offset : Z) (dir_entry_sector dir_entry_size : Z)
    (st : state) : outcome state :=
  recurse_directory_with
    (fun nb de sz s =>
       xbfs_recurse_file_subtree fuel nb filesystem_base_offset de sz 0 s)
    name_buffer filesystem_base_offset dir_entry_sector dir_entry_size st.

(** ** xbfs_init *)

Record volume : Type := Volume {
  vol_fd : file;
  filesystem_base_offset : Z;
  root_directory_sector : Z;
  root_directory_size : Z }.

(** The [while (1)] loop that scans for the signature; [None] is the
    "signature not found" exit. *)
Fixpoint scan_signature (fuel : nat) (fd : file) (base : Z)
    : outcome (option volume) :=
  match fuel with
  | O => OutOfFuel
  | S fuel' =>
      let '(ret, sector_buffer, fd1) := read fd SECTOR_SIZE in
      if negb (to_size_t ret =? SECTOR_SIZE)
      then Done None
      else if strncmp_eq (Z.to_nat XDVD_SIGNATURE_SIZE) sector_buffer
                XDVD_SIGNATURE
      then Done (Some (Volume fd1
                         (to_off_t (base - 32 * SECTOR_SIZE))
                         (to_uint (LE_32 sector_buffer 0x14))
                         (to_uint (LE_32 sector_buffer 0x18))))
      else scan_signature fuel' fd1 (to_off_t (base + SECTOR_SIZE))
  end.

Record xbfsfile : Type := Xbfs { xbfs_fd : file; xbfs_tree : tree }.

(** [xbfs_init]: [None] stands for the [NULL] returned after
    [fuse_exit]. *)
Definition xbfs_init (fuel : nat) (fd : file) : outcome (option xbfsfile) :=
  v <- scan_signature fuel (lseek fd 0) 0 ;;
  match v with
  | None => Done None
  | Some vol =>
      st <- xbfs_recurse_directory fuel ""
              (filesystem_base_offset vol) (root_directory_sector vol)
              (root_directory_size vol) (vol_fd vol, tree_empty) ;;
      Done (Some (Xbfs (fst st) (snd st)))
  end.

(** ** tree_getattr *)

(** The fields of [struct stat] that [tree_getattr] sets; all the others
    are left at the 0 of the [memset]. *)
Record stat : Type := Stat {
  st_mode : Z;
  st_nlink : Z;
  st_uid : Z;
  st_gid : Z;
  st_size : Z;
  st_atime : Z;
  st_mtime : Z;
  st_ctime : Z }.

(** Mode bits of <sys/stat.h> on Linux (octal in the comments). *)
Definition S_IFDIR : Z := 16384.  (* 040000 *)
Definition S_IFREG : Z := 32768.  (* 0100000 *)
Definition S_IRUSR : Z := 256.  (* 0400 *)
Definition S_IWUSR : Z := 128.  (* 0200 *)
Definition S_IXUSR : Z := 64.  (* 0100 *)
Definition S_IRGRP : Z := 32.  (* 040 *)
Definition S_IWGRP : Z := 16.  (* 020 *)
Definition S_IXGRP : Z := 8.  (* 010 *)
Definition S_IROTH : Z := 4.  (* 04 *)
Definition S_IWOTH : Z := 2.  (* 02 *)
Definition S_IXOTH : Z := 1.  (* 01 *)

(** [tree_getattr]: the returned [int] and [*stbuf] on return.  [uid] and
    [gid] stand for [getuid()] and [getgid()], [st] for what [fstat(fd)]
    reports on the image file. *)
Definition tree_getattr (path : string) (stbuf : stat) (root : tree)
    (uid gid : Z) (st : stat) : Z * stat :=
  match tree_find_entry root path with
  | Some node =>
      if is_dir node
      then (0, Stat (Z.lor S_IFDIR
                      (Z.lor S_IRUSR
                        (Z.lor S_IRGRP
                          (Z.lor S_IROTH
                            (Z.lor S_IXUSR (Z.lor S_IXGRP S_IXOTH))))))
                    (2 + nsubdirs node) uid gid 0
                    (st_atime st) (st_mtime st) (st_ctime st))
      else (0, Stat (Z.lor S_IFREG (Z.lor S_IRUSR (Z.lor S_IRGRP S_IROTH)))
                    1 uid gid (size node)
                    (st_atime st) (st_mtime st) (st_ctime st))
  | None => (- ENOENT, stbuf)
  end.

(** ** The FUSE operations of xdvdfs.c

    Each one hands the tree and the descriptor of the context to the
    operation of tree.c. *)

Definition xbfs_getattr (path : string) (stbuf : stat) (x : xbfsfile)
    (uid gid : Z) (st : stat) : Z * stat :=
  tree_getattr path stbuf (xbfs_tree x) uid gid st.

Definition xbfs_open (path : string) (fi : fuse_file_info) (x : xbfsfile)
    : Z * fuse_file_info * tree :=
  tree_open path fi (xbfs_tree x).

Definition xbfs_read (path : string) (count off : Z) (x : xbfsfile)
    : Z * list byte * file :=
  tree_read path count off (xbfs_tree x) (xbfs_fd x).

Definition xbfs_opendir (path : string) (x : xbfsfile) : Z :=
  tree_opendir path (xbfs_tree x).

Definition xbfs_readdir (path : string) (buf : list string) (x : xbfsfile)
    : Z * list string :=
  tree_readdir path buf (xbfs_tree x).

(** ** main (main.c) *)

(** The loop that looks for ["-q"] from [argv[1]] on: at the first one the
    later arguments move one place down and the loop ends.  [None] when no
    argument is ["-q"]. *)
Fixpoint remove_quiet (args : list string) : option (list string) :=
  match args with
  | [] => None
  | a :: r =>
      if String.eqb a "-q" then Some r
      else option_map (cons a) (remove_quiet r)
  end.

(** The three ways out of [main]: the usage text and
    [exit(EXIT_FAILURE)]; [perror(archive)] and [exit(EXIT_FAILURE)] after
    an [open] that failed; the call [fuse_main(nargc, nargv, ...)], whose
    result [main] returns, with the global flag [quiet] and the global
    descriptor [xbfs_fd] as they are at that point. *)
Inductive main_result : Type :=
| Usage
| OpenFailed (archive : string)
| Mount (quiet : bool) (fd : Z) (nargv : list string).

(** [open_archive] stands for [open(_, O_RDONLY)]: the descriptor, or a
    negative value.  [malloc] is taken to succeed. *)
Definition main (open_archive : string -> Z) (argv : list string)
    : main_result :=
  if (List.length argv <? 3)%nat then Usage
  else
    match argv with
    | [] => Usage                         (* not reached: [argc >= 3] *)
    | argv0 :: args =>
        let '(quiet, args') :=
          match remove_quiet args with
          | Some r => (true, r)
          | None => (false, args)
          end in
        match args' with
        | archive :: more =>
            let xbfs_fd := open_archive archive in
            if xbfs_fd <? 0 then OpenFailed archive
            else Mount quiet xbfs_fd (argv0 :: more)
        | [] => Usage                     (* not reached: [argc >= 2] *)
        end
    end.

(** * Vocabulary of the statements *)

(** ** Paths and lookups *)

(** A path names a file when its final component is not empty: the path
    is not empty and does not end with the separator. *)
Fixpoint file_path (p : string) : bool :=
  match p with
  | EmptyString => false
  | String c EmptyString => negb (Ascii.eqb c slash)
  | String _ r => file_path r
  end.

(** [is_under p q]: [q] lies below [p], that is, [q] is [p], a separator,
    and some remainder. *)
Definition is_under (p q : string) : bool :=
  String.prefix (p ++ String slash "") q.

Fixpoint every_node (P : tree -> Prop) (t : tree) : Prop :=
  match t with
  | Tree _ _ _ _ _ l =>
      P t /\
      (fix all (l : list tree) : Prop :=
         match l with
         | [] => True
         | x :: r => every_node P x /\ all r
         end) l
  end.

(** No name in the tree holds a separator. *)
Definition names_ok : tree -> Prop :=
  every_node (fun n => memchr_slash (name n) = None).

(** Two nodes that agree on what a lookup reports. *)
Definition same_entry (a b : tree) : Prop :=
  name a = name b /\ is_dir a = is_dir b /\
  offset a = offset b /\ size a = size b.

Definition opt_same (x y : option tree) : Prop :=
  match x, y with
  | Some a, Some b => same_entry a b
  | None, None => True
  | _, _ => False
  end.

Definition entry : Type := (string * Z * Z)%type.
Definition entry_path (e : entry) : string := fst (fst e).

Definition insert_all (root : tree) (ops : list entry) : tree :=
  fold_left
    (fun t e => tree_insert t (entry_path e) (snd (fst e)) (snd e))
    ops root.

(** The file reported by a lookup. *)
Definition finds_file (root : tree) (path : string) (off sz : Z) : Prop :=
  exists node,
    tree_find_entry root path = Some node /\
    is_dir node = false /\ offset node = off /\ size node = sz.

(** [grows t t']: [t'] is [t] with children added.  Every node keeps its
    name and its children in their order; the only change in a list of
    children is one new child at its head. *)
Local Unset Elimination Schemes.
Inductive grows : tree -> tree -> Prop :=
| Grows (t t' : tree) (l' : list tree) :
    name t' = name t ->
    Forall2 grows (sub t) l' ->
    (sub t' = l' \/ exists c, sub t' = c :: l') ->
    grows t t'.
Local Set Elimination Schemes.

Definition count_dirs (l : list tree) : Z :=
  Z.of_nat (List.length (filter is_dir l)).

Definition nsubdirs_ok (n : tree) : Prop := nsubdirs n = count_dirs (sub n).

(** ** Sectors and directory blocks *)

(** Sector [j] of the image, as far as the image holds it. *)
Definition sector (img : list byte) (j : Z) : list byte :=
  slice img (SECTOR_SIZE * j) SECTOR_SIZE.

Definition full_sector (img : list byte) (j : Z) : Prop :=
  Z.of_nat (List.length (sector img j)) = SECTOR_SIZE.

Definition signature_at (img : list byte) (j : Z) : Prop :=
  firstn 20 (sector img j) = list_byte_of_string XDVD_SIGNATURE.

(** The 32-bit little-endian value at index [i]. *)
Definition le32_at (x : list byte) (i : Z) : Z :=
  at_index x i + 2 ^ 8 * at_index x (i + 1)
  + 2 ^ 16 * at_index x (i + 2) + 2 ^ 24 * at_index x (i + 3).

(** The offsets of the records of a directory block in the order left
    subtree, record, right subtree. *)
Fixpoint inorder (fuel : nat) (dir_entry : list byte) (dir_entry_size : Z)
    (o : Z) : option (list Z) :=
  match fuel with
  | O => None
  | S fuel' =>
      if o + 0xD >=? dir_entry_size then Some []
      else
        match (if LE_16 dir_entry o * 4 =? 0 then Some []
               else inorder fuel' dir_entry dir_entry_size
                      (LE_16 dir_entry o * 4)),
              (if LE_16 dir_entry (o + 2) * 4 =? 0 then Some []
               else inorder fuel' dir_entry dir_entry_size
                      (LE_16 dir_entry (o + 2) * 4)) with
        | Some l, Some r => Some (l ++ o :: r)%list
        | _, _ => None
        end
  end.

(** The name of the record at [o], as bytes and as text. *)
Definition record_name_bytes (dir_entry : list byte) (o : Z) : list byte :=
  slice dir_entry (o + 0xE) (at_index dir_entry (o + 0xD)).

Definition record_name (dir_entry : list byte) (o : Z) : string :=
  string_of_list_byte (record_name_bytes dir_entry o).

(** A directory node carries offset 0 and size 0. *)
Definition directory_fields_ok (n : tree) : Prop :=
  is_dir n = true -> offset n = 0 /\ size n = 0.

(** ** Nodes of a tree and where they come from *)

(** [subtree n t]: [n] is [t] or a node below [t]. *)
Inductive subtree (n : tree) : tree -> Prop :=
| subtree_here : subtree n n
| subtree_below (t c : tree) : In c (sub t) -> subtree n c -> subtree n t.

(** [from_entries ops pfx t]: every node at or below [t] that is not a
    directory is an entry of [ops], under the path made of [pfx] and the
    names down to the node. *)
Fixpoint from_entries (ops : list entry) (pfx : string) (t : tree) : Prop :=
  match t with
  | Tree n d o s _ l =>
      (d = false -> In (pfx ++ n, o, s) ops) /\
      (fix all (l : list tree) : Prop :=
         match l with
         | [] => True
         | x :: r =>
             from_entries ops (pfx ++ n ++ String slash "") x /\ all r
         end) l
  end.

(** What a walk leaves behind when it returns: the image as it was, and
    the tree with some entries inserted, all of them under the path of the
    directory walked and with a size below [2^32]. *)
Definition walk_effect (nb : string) (st st' : state) : Prop :=
  image (fst st') = image (fst st) /\
  exists ops,
    snd st' = insert_all (snd st) ops /\
    Forall (fun e => String.prefix nb (entry_path e) = true /\
                     0 <= snd e < 2 ^ 32) ops.

(** ** The directory structure on the disc

    The directory blocks of an image read by the rules of the format,
    without the path tree: what the parser is to be compared with. *)

(** An entry of a directory: a file with the byte offset and the size of
    its data, or a directory with its entries. *)
Local Unset Elimination Schemes.
Inductive dentry : Type :=
| DFile (nm : string) (off sz : Z)
| DDir (nm : string) (entries : list dentry).
Local Set Elimination Schemes.

Definition dname (d : dentry) : string :=
  match d with
  | DFile n _ _ => n
  | DDir n _ => n
  end.

(** A name that is not empty and holds neither a NUL byte nor a
    separator. *)
Definition plain_name (bs : list byte) : bool :=
  negb (Nat.eqb (List.length bs) 0)
  && forallb (fun b => negb (Byte.eqb b Byte.x00)
                       && negb (Byte.eqb b Byte.x2f)) bs.

(** A block that one [read] at [pos] delivers whole: it is empty, or it
    lies inside the image and is no larger than [MAX_RW_COUNT]. *)
Definition block_readable (img : list byte) (pos sz : Z) : bool :=
  (sz =? 0)
  || ((0 <=? pos) && (pos + sz <=? Z.of_nat (List.length img))
      && (sz <=? MAX_RW_COUNT)).

(** The entries of the records of the block [de] reached from the record
    at [o], in the order left subtree, record, right subtree; [pfx] is the
    path of the directory.  [None] when a record is irregular: its name
    does not lie in the block or is not plain, its path does not fit into
    [NAME_MAX_SIZE] bytes, or the block of a directory is not readable. *)
Fixpoint disk_records (fuel : nat) (img : list byte) (base : Z)
    (pfx : string) (de : list byte) (sz o : Z) {struct fuel}
    : option (list dentry) :=
  match fuel with
  | O => None
  | S fuel' =>
      if o + 0xD >=? sz then Some []
      else
        let nlen := at_index de (o + 0xD) in
        let nm := record_name de o in
        let pos := base + le32_at de (o + 4) * SECTOR_SIZE in
        let size := le32_at de (o + 8) in
        let len := Z.of_nat (String.length pfx) + nlen in
        match (if LE_16 de o * 4 =? 0 then Some []
               else disk_records fuel' img base pfx de sz (LE_16 de o * 4)),
              (if negb ((o + 0xE + nlen <=? sz)
                        && plain_name (record_name_bytes de o))
               then None
               else if Z.testbit (at_index de (o + 0xC)) 4 then
                 if (len + 2 <=? NAME_MAX_SIZE)
                    && block_readable img pos size
                 then option_map (DDir nm)
                        (disk_records fuel' img base (pfx ++ nm ++ "/")
                           (slice img pos size) size 0)
                 else None
               else if len + 1 <=? NAME_MAX_SIZE
               then Some (DFile nm pos size)
               else None),
              (if LE_16 de (o + 2) * 4 =? 0 then Some []
               else disk_records fuel' img base pfx de sz
                      (LE_16 de (o + 2) * 4)) with
        | Some l, Some here, Some r => Some (l ++ here :: r)%list
        | _, _, _ => None
        end
  end.

(** The entries of the directory whose block is [sz] bytes at sector
    [sector]. *)
Definition disk_directory (fuel : nat) (img : list byte)
    (base sector sz : Z) : option (list dentry) :=
  if block_readable img (base + sector * SECTOR_SIZE) sz
  then disk_records fuel img base ""
         (slice img (base + sector * SECTOR_SIZE) sz) sz 0
  else None.

(** An entry holds a file when it is a file or has one somewhere below. *)
Fixpoint holds_file (d : dentry) : bool :=
  match d with
  | DFile _ _ _ => true
  | DDir _ l => existsb holds_file l
  end.

(** The node of the path tree that stands for an entry: the children of a
    directory are the entries that hold a file, the last one first. *)
Fixpoint node_of (d : dentry) : tree :=
  match d with
  | DFile n off sz => new_file n off sz
  | DDir n l =>
      let children :=
        rev (flat_map (fun c => if holds_file c then [node_of c] else [])
                      l) in
      Tree n true 0 0 (count_dirs children) children
  end.

Definition kids (l : list dentry) : list tree :=
  rev (map node_of (filter holds_file l)).

Definition tree_of (ds : list dentry) : tree := node_of (DDir "" ds).

(** The path [p] put in front of the path of an entry. *)
Definition under (p : string) (e : entry) : entry :=
  (p ++ entry_path e, snd (fst e), snd e).

(** The files at and below an entry, as entries of the path tree, in the
    order of the disc; [pfx] is the path of the directory of the entry. *)
Fixpoint entries_of (pfx : string) (d : dentry) : list entry :=
  match d with
  | DFile n off sz => [(pfx ++ n, off, sz)]
  | DDir n l => flat_map (entries_of (pfx ++ n ++ "/")) l
  end.

(** [entry_at ds p d]: [d] is the entry with the relative path [p] in the
    directory with the entries [ds]. *)
Inductive entry_at : list dentry -> string -> dentry -> Prop :=
| entry_here (ds : list dentry) (d : dentry) :
    In d ds -> entry_at ds (dname d) d
| entry_below (ds : list dentry) (n : string) (l : list dentry)
    (p : string) (d : dentry) :
    In (DDir n l) ds -> entry_at l p d -> entry_at ds (n ++ "/" ++ p) d.

Fixpoint every_entry (P : dentry -> Prop) (d : dentry) : Prop :=
  P d /\
  match d with
  | DFile _ _ _ => True
  | DDir _ l =>
      (fix all (l : list dentry) : Prop :=
         match l with
         | [] => True
         | c :: r => every_entry P c /\ all r
         end) l
  end.

(** The entries of every directory at and below [d] have names that
    differ from each other. *)
Definition distinct_names : dentry -> Prop :=
  every_entry (fun d => match d with
                        | DFile _ _ _ => True
                        | DDir _ l => NoDup (map dname l)
                        end).

(** Every name at and below [d] is not empty and holds no separator. *)
Definition plain_names : dentry -> Prop :=
  every_entry (fun d => dname d <> "" /\ memchr_slash (dname d) = None).

(** The directory node [t] with the node of [d] as its newest child, when
    [d] holds a file. *)
Definition add_entry (t : tree) (d : dentry) : tree :=
  if holds_file d
  then Tree (name t) (is_dir t) (offset t) (size t)
            (nsubdirs t + (if is_dir (node_of d) then 1 else 0))
            (node_of d :: sub t)
  else t.

(** The inserts for the files of [d] turn a directory node without a
    child of the name of [d] into [add_entry t d]. *)
Definition inserted_as_node (d : dentry) : Prop :=
  plain_names d -> distinct_names d ->
  forall t,
    Forall (fun x => String.eqb (name x) (dname d) = false) (sub t) ->
    insert_all t (entries_of "" d) = add_entry t d.

(** ** Images for the examples *)

(** The largest file offset of an ext4 file system with blocks of 4096
    bytes, [2^44 - 4096]. *)
Definition ext4_maxbytes : N := 17592186040320.

Definition byte_of_Z (z : Z) : byte :=
  match Byte.of_N (Z.to_N z) with Some b => b | None => Byte.x00 end.

Definition bytes_le16 (z : Z) : list byte :=
  [byte_of_Z (z mod 256); byte_of_Z (z / 256)].

Definition bytes_le32 (z : Z) : list byte :=
  [byte_of_Z (z mod 256); byte_of_Z (z / 256 mod 256);
   byte_of_Z (z / 65536 mod 256); byte_of_Z (z / 16777216)].

(** One directory record: the two pointers in units of 4 bytes, sector,
    size, attributes, and the name. *)
Definition record_bytes (l r sector sz attr : Z) (nm : string) : list byte :=
  bytes_le16 l ++ bytes_le16 r ++ bytes_le32 sector ++ bytes_le32 sz
  ++ [byte_of_Z attr; byte_of_Z (Z.of_nat (String.length nm))]
  ++ list_byte_of_string nm.

(** Fill up to [n] bytes with [0xFF]. *)
Definition pad_to (n : nat) (l : list byte) : list byte :=
  l ++ repeat Byte.xff (n - List.length l).

(** The volume descriptor sector. *)
Definition descriptor_bytes (root_sector root_size : Z) : list byte :=
  pad_to 2048 (list_byte_of_string XDVD_SIGNATURE
               ++ bytes_le32 root_sector ++ bytes_le32 root_size).

Fixpoint repeat_string (c : ascii) (n : nat) : string :=
  match n with
  | O => ""
  | S n' => String c (repeat_string c n')
  end.

(** A root directory with the record of file ["m"] at 0, its left pointer
    to the record of file ["a.txt"] at 20 and its right pointer to the
    record of directory ["sub"] at 40; ["sub"] holds file ["b.txt"]. *)
Definition sample_root : list byte :=
  pad_to 20 (record_bytes 5 10 35 100 0 "m")
  ++ pad_to 20 (record_bytes 0 0 36 7 0 "a.txt")
  ++ record_bytes 0 0 34 19 0x10 "sub".

Definition sample_sub : list byte := record_bytes 0 0 37 5 0 "b.txt".

Definition sample_image : list byte :=
  descriptor_bytes 33 57 ++ pad_to 2048 sample_root ++ pad_to 2048 sample_sub.

(** One file of 10 bytes at sector 34, of which the image holds only the
    first 4. *)
Definition short_image : list byte :=
  descriptor_bytes 33 19
  ++ pad_to 2048 (record_bytes 0 0 34 10 0 "f.bin")
  ++ repeat Byte.x41 4.

(** Four nested directories with names of 250 bytes and a file with a name
    of 30 bytes in the innermost one. *)
Definition deep_directory (sector sz : Z) : list byte :=
  pad_to 2048
    (record_bytes 0 0 sector sz 0x10 (repeat_string "d"%char 250)).

Definition deep_image : list byte :=
  descriptor_bytes 33 264
  ++ deep_directory 34 264 ++ deep_directory 35 264 ++ deep_directory 36 264
  ++ deep_directory 37 44
  ++ record_bytes 0 0 40 5 0 (repeat_string "n"%char 30).

(** A root directory with the file ["a"] and, to its right, a directory of
    the same name that holds the file ["b"]. *)
Definition clash_image : list byte :=
  descriptor_bytes 33 31
  ++ pad_to 2048 (pad_to 16 (record_bytes 0 4 35 3 0 "a")
                  ++ record_bytes 0 0 34 15 0x10 "a")
  ++ record_bytes 0 0 36 5 0 "b".

(** A root directory with file ["a"] and, to its right, the directory
    ["e"] of size 0. *)
Definition empty_dir_root : list byte :=
  pad_to 16 (record_bytes 0 4 34 3 0 "a") ++ record_bytes 0 0 0 0 0x10 "e".

Definition empty_dir_image : list byte :=
  descriptor_bytes 33 31 ++ empty_dir_root.

(** A file record with the name bytes [a b NUL c d]. *)
Definition nul_record : list byte :=
  bytes_le16 0 ++ bytes_le16 0 ++ bytes_le32 36 ++ bytes_le32 7
  ++ [Byte.x00; Byte.x05; Byte.x61; Byte.x62; Byte.x00; Byte.x63; Byte.x64].

(** A root directory with the file ["a"], the directory ["d"] and the
    empty directory ["e"], linked by their right pointers; ["d"] holds the
    file ["b"] and the empty directory ["f"]. *)
Definition nested_root : list byte :=
  pad_to 16 (record_bytes 0 4 36 3 0 "a")
  ++ pad_to 16 (record_bytes 0 8 34 31 0x10 "d")
  ++ record_bytes 0 0 0 0 0x10 "e".

Definition nested_d : list byte :=
  pad_to 16 (record_bytes 0 4 37 5 0 "b") ++ record_bytes 0 0 0 0 0x10 "f".

(** The image: the descriptor, the two blocks, an unused sector, and the
    data of ["a"] and of ["b"]. *)
Definition nested_image : list byte :=
  descriptor_bytes 33 47 ++ pad_to 2048 nested_root ++ pad_to 2048 nested_d
  ++ repeat Byte.x00 2048
  ++ pad_to 2048 (list_byte_of_string "abc")
  ++ list_byte_of_string "hello".

Definition nested_entries : list dentry :=
  [DFile "a" 8192 3;
   DDir "d" [DFile "b" 10240 5; DDir "f" []];
   DDir "e" []].

(** An [open] that finds the one file ["game.iso"]. *)
Definition open_game (f : string) : Z :=
  if String.eqb f "game.iso" then 3 else - 1.

(** * Properties *)

(** ** Paths *)

Lemma append_assoc (a b c : string) : (a ++ b) ++ c = a ++ (b ++ c).
Proof. induction a as [|x a IH]; simpl; [reflexivity | now rewrite IH]. Qed.

Lemma append_inj_l (a b c : string) : a ++ b = a ++ c -> b = c.
Proof.
  induction a as [|x a IH]; simpl; intro H; [exact H|].
  injection H as H. auto.
Qed.

Lemma prefix_append (a b c : string) :
  String.prefix (a ++ b) (a ++ c) = String.prefix b c.
Proof.
  induction a as [|x a IH]; simpl; [reflexivity|].
  destruct (ascii_dec x x) as [_|n]; [exact IH | now elim n].
Qed.

Lemma prefix_refl_append (a c : string) : String.prefix a (a ++ c) = true.
Proof.
  induction a as [|x a IH]; simpl.
  - now destruct c.
  - destruct (ascii_dec x x) as [_|n]; [exact IH | now elim n].
Qed.

Lemma memchr_slash_some (p d r : string) :
  memchr_slash p = Some (d, r) ->
  p = d ++ String slash r /\ memchr_slash d = None.
Proof.
  revert d r. induction p as [|c p IH]; simpl; intros d r H; [discriminate|].
  destruct (Ascii.eqb c slash) eqn:E.
  - apply Ascii.eqb_eq in E. injection H as <- <-. now subst c.
  - destruct (memchr_slash p) as [[d' r']|]; [|discriminate].
    injection H as <- <-.
    destruct (IH d' r' eq_refl) as [-> Hd].
    split; [reflexivity|]. simpl. now rewrite E, Hd.
Qed.

Lemma memchr_slash_append (d r : string) :
  memchr_slash d = None -> memchr_slash (d ++ String slash r) = Some (d, r).
Proof.
  induction d as [|c d IH]; simpl; intro H; [reflexivity|].
  destruct (Ascii.eqb c slash); [discriminate|].
  destruct (memchr_slash d) as [[? ?]|]; [discriminate|].
  now rewrite IH.
Qed.

Lemma memchr_slash_shorter (p d r : string) :
  memchr_slash p = Some (d, r) -> (String.length r < String.length p)%nat.
Proof.
  revert d r. induction p as [|c p IH]; simpl; intros d r H; [discriminate|].
  destruct (Ascii.eqb c slash).
  - injection H as _ <-. lia.
  - destruct (memchr_slash p) as [[d' r']|]; [|discriminate].
    injection H as _ <-. specialize (IH d' r' eq_refl). lia.
Qed.

Lemma file_path_rest (p d r : string) :
  memchr_slash p = Some (d, r) -> file_path p = file_path r.
Proof.
  revert d r. induction p as [|c p IH]; simpl; intros d r H; [discriminate|].
  destruct (Ascii.eqb c slash) eqn:E.
  - injection H as _ <-. destruct p; reflexivity.
  - destruct (memchr_slash p) as [[d' r']|] eqn:M; [|discriminate].
    injection H as _ <-. destruct p; [discriminate|]. now apply (IH d').
Qed.

Lemma file_path_nonempty (p : string) : file_path p = true -> p <> "".
Proof. now destruct p. Qed.

(** ** The loops *)

Lemma insert_existing_ext (f g : tree -> tree) dir l :
  (forall x, f x = g x) ->
  insert_existing f dir l = insert_existing g dir l.
Proof.
  intro H. induction l as [|x l IH]; simpl; [reflexivity|].
  now rewrite H, IH.
Qed.

Lemma insert_existing_none ins dir l :
  insert_existing ins dir l = None <->
  Forall (fun x => String.eqb (name x) dir = false) l.
Proof.
  induction l as [|x l IH]; simpl.
  - split; auto.
  - destruct (String.eqb (name x) dir) eqn:E.
    + split; [discriminate|]. intro H. inversion H; congruence.
    + destruct (insert_existing ins dir l); simpl.
      * split; [discriminate|]. intro H. inversion H; subst.
        apply IH in H3. discriminate.
      * split; auto. intros _. constructor; [exact E | now apply IH].
Qed.

Lemma insert_existing_some ins dir l l' :
  insert_existing ins dir l = Some l' ->
  exists l1 node l2,
    l = (l1 ++ node :: l2)%list /\ l' = (l1 ++ ins node :: l2)%list /\
    String.eqb (name node) dir = true /\
    Forall (fun x => String.eqb (name x) dir = false) l1.
Proof.
  revert l'. induction l as [|x l IH]; simpl; intros l' H; [discriminate|].
  destruct (String.eqb (name x) dir) eqn:E.
  - injection H as <-. exists [], x, l. auto.
  - destruct (insert_existing ins dir l) as [m|]; [|discriminate].
    injection H as <-.
    destruct (IH m eq_refl) as (l1 & node & l2 & -> & -> & Hn & Hl).
    exists (x :: l1), node, l2. repeat split; auto.
Qed.

(** ** tree_insert: the fuel is enough, and the equation of the C body *)

Lemma tree_insert_rec_S fuel root path off sz :
  tree_insert_rec (S fuel) root path off sz =
  match path with
  | EmptyString => root
  | _ =>
      match memchr_slash path with
      | Some (dir, rest) =>
          match insert_existing
                  (fun node => tree_insert_rec fuel node rest off sz)
                  dir (sub root) with
          | Some l' =>
              Tree (name root) (is_dir root) (offset root) (size root)
                   (nsubdirs root) l'
          | None =>
              Tree (name root) (is_dir root) (offset root) (size root)
                   (nsubdirs root + 1)
                   (tree_insert_rec fuel (new_directory dir) rest off sz
                      :: sub root)
          end
      | None =>
          Tree (name root) (is_dir root) (offset root) (size root)
               (nsubdirs root) (new_file path off sz :: sub root)
      end
  end.
Proof. reflexivity. Qed.

Lemma tree_insert_rec_enough fuel root path off sz :
  (String.length path < fuel)%nat ->
  tree_insert_rec fuel root path off sz = tree_insert root path off sz.
Proof.
  unfold tree_insert.
  remember (String.length path) as n eqn:Hn.
  revert fuel root path Hn.
  induction n as [n IH] using lt_wf_ind.
  intros fuel root path Hn Hlt.
  destruct fuel as [|fuel]; [lia|].
  rewrite !tree_insert_rec_S.
  destruct path as [|c path']; [reflexivity|].
  destruct (memchr_slash (String c path')) as [[dir rest]|] eqn:M;
    [|reflexivity].
  pose proof (memchr_slash_shorter _ _ _ M) as Hr. rewrite <- Hn in Hr.
  assert (E : forall node,
             tree_insert_rec fuel node rest off sz =
             tree_insert_rec n node rest off sz).
  { intro node.
    rewrite (IH _ Hr fuel node rest eq_refl) by lia.
    destruct n as [|n']; [lia|].
    rewrite (IH _ Hr (S n') node rest eq_refl) by lia. reflexivity. }
  rewrite (insert_existing_ext _ _ dir (sub root) E), E. reflexivity.
Qed.

Lemma tree_insert_eq root path off sz :
  tree_insert root path off sz =
  match path with
  | EmptyString => root
  | _ =>
      match memchr_slash path with
      | Some (dir, rest) =>
          match insert_existing
                  (fun node => tree_insert node rest off sz)
                  dir (sub root) with
          | Some l' =>
              Tree (name root) (is_dir root) (offset root) (size root)
                   (nsubdirs root) l'
          | None =>
              Tree (name root) (is_dir root) (offset root) (size root)
                   (nsubdirs root + 1)
                   (tree_insert (new_directory dir) rest off sz :: sub root)
          end
      | None =>
          Tree (name root) (is_dir root) (offset root) (size root)
               (nsubdirs root) (new_file path off sz :: sub root)
      end
  end.
Proof.
  unfold tree_insert at 1. rewrite tree_insert_rec_S.
  destruct path as [|c path']; [reflexivity|].
  destruct (memchr_slash (String c path')) as [[dir rest]|] eqn:M;
    [|reflexivity].
  pose proof (memchr_slash_shorter _ _ _ M) as Hr.
  assert (E : forall node,
             tree_insert_rec (String.length (String c path')) node rest off sz
             = tree_insert node rest off sz).
  { intro node. apply tree_insert_rec_enough. exact Hr. }
  rewrite (insert_existing_ext _ _ dir (sub root) E), E. reflexivity.
Qed.

(** Induction along the calls of [tree_insert]: the empty path, the file
    branch, the branch that creates a directory, and the branch that goes
    into the first child with the directory's name. *)
Lemma tree_insert_cases (off sz : Z) (Q : tree -> string -> tree -> Prop) :
  (forall root, Q root "" root) ->
  (forall root path,
      path <> "" -> memchr_slash path = None ->
      Q root path
        (Tree (name root) (is_dir root) (offset root) (size root)
              (nsubdirs root) (new_file path off sz :: sub root))) ->
  (forall root path dir rest,
      memchr_slash path = Some (dir, rest) ->
      Forall (fun x => String.eqb (name x) dir = false) (sub root) ->
      Q (new_directory dir) rest (tree_insert (new_directory dir) rest off sz) ->
      Q root path
        (Tree (name root) (is_dir root) (offset root) (size root)
              (nsubdirs root + 1)
              (tree_insert (new_directory dir) rest off sz :: sub root))) ->
  (forall root path dir rest l1 node l2,
      memchr_slash path = Some (dir, rest) ->
      sub root = (l1 ++ node :: l2)%list ->
      Forall (fun x => String.eqb (name x) dir = false) l1 ->
      String.eqb (name node) dir = true ->
      Q node rest (tree_insert node rest off sz) ->
      Q root path
        (Tree (name root) (is_dir root) (offset root) (size root)
              (nsubdirs root) (l1 ++ tree_insert node rest off sz :: l2))) ->
  forall root path, Q root path (tree_insert root path off sz).
Proof.
  intros Hempty Hfile Hnew Hold root path.
  remember (String.length path) as n eqn:Hn.
  revert root path Hn.
  induction n as [n IH] using lt_wf_ind.
  intros root path Hn.
  rewrite tree_insert_eq.
  destruct path as [|c path']; [apply Hempty|].
  destruct (memchr_slash (String c path')) as [[dir rest]|] eqn:M.
  - pose proof (memchr_slash_shorter _ _ _ M) as Hr. rewrite <- Hn in Hr.
    destruct (insert_existing _ dir (sub root)) as [l'|] eqn:E.
    + apply insert_existing_some in E.
      destruct E as (l1 & node & l2 & Hl & -> & Hnode & Hl1).
      eapply Hold; eauto.
    + apply insert_existing_none in E.
      eapply Hnew; eauto.
  - apply Hfile; [discriminate | exact M].
Qed.

Lemma tree_insert_fields root path off sz :
  name (tree_insert root path off sz) = name root /\
  is_dir (tree_insert root path off sz) = is_dir root /\
  offset (tree_insert root path off sz) = offset root /\
  size (tree_insert root path off sz) = size root.
Proof.
  rewrite tree_insert_eq.
  destruct path; [auto|].
  destruct (memchr_slash _) as [[dir rest]|]; [|simpl; auto].
  destruct (insert_existing _ _ _); simpl; auto.
Qed.

(** ** tree_find_entry on nodes whose names hold no separator *)

Lemma tree_find_entry_eq root path :
  tree_find_entry root path =
  if String.eqb path (name root) then Some root
  else
    match skip_name (name root) path with
    | None => None
    | Some next =>
        match next with
        | EmptyString => None
        | String c next' =>
            if Ascii.eqb c slash then
              match next' with
              | EmptyString => Some root
              | _ => find_sub (sub root) next'
              end
            else None
        end
    end.
Proof. destruct root; reflexivity. Qed.

Lemma eqb_slash_noslash path nm c rest :
  memchr_slash path = Some (c, rest) -> memchr_slash nm = None ->
  String.eqb path nm = false.
Proof.
  intros H1 H2. destruct (String.eqb path nm) eqn:E; [|reflexivity].
  apply String.eqb_eq in E. congruence.
Qed.

Lemma skip_name_noslash nm path :
  memchr_slash path = None ->
  match skip_name nm path with
  | Some (String ch _) => Ascii.eqb ch slash = false
  | _ => True
  end.
Proof.
  revert path. induction nm as [|a nm IH]; intros path H; simpl.
  - destruct path as [|b p]; [exact I|]. simpl in H.
    destruct (Ascii.eqb b slash); [discriminate | reflexivity].
  - destruct path as [|b p]; [exact I|].
    destruct (Ascii.eqb a b); [|exact I].
    apply IH. simpl in H. destruct (Ascii.eqb b slash); [discriminate|].
    destruct (memchr_slash p) as [[? ?]|]; [discriminate | reflexivity].
Qed.

Lemma skip_name_slash nm path c rest :
  memchr_slash nm = None -> memchr_slash path = Some (c, rest) ->
  match skip_name nm path with
  | Some (String ch next') =>
      if Ascii.eqb ch slash
      then String.eqb nm c = true /\ next' = rest
      else String.eqb nm c = false
  | _ => String.eqb nm c = false
  end.
Proof.
  revert path c. induction nm as [|a nm IH]; intros path c Hn Hp; simpl.
  - destruct path as [|b p]; [discriminate|]. simpl in Hp.
    destruct (Ascii.eqb b slash).
    + injection Hp as <- <-. auto.
    + destruct (memchr_slash p) as [[d r]|]; [|discriminate].
      injection Hp as <- <-. reflexivity.
  - simpl in Hn. destruct (Ascii.eqb a slash) eqn:Ea; [discriminate|].
    destruct (memchr_slash nm) as [[? ?]|] eqn:Hnm; [discriminate|].
    destruct path as [|b p]; [discriminate|]. simpl in Hp.
    destruct (Ascii.eqb a b) eqn:Eab.
    + apply Ascii.eqb_eq in Eab. subst b. rewrite Ea in Hp.
      destruct (memchr_slash p) as [[d r]|] eqn:Mp; [|discriminate].
      injection Hp as <- <-.
      specialize (IH p d eq_refl Mp). simpl. rewrite Ascii.eqb_refl.
      exact IH.
    + destruct (Ascii.eqb b slash).
      * injection Hp as <- <-. reflexivity.
      * destruct (memchr_slash p) as [[d r]|]; [|discriminate].
        injection Hp as <- <-. simpl. now rewrite Eab.
Qed.

Lemma find_entry_noslash node path :
  memchr_slash path = None ->
  tree_find_entry node path =
  if String.eqb path (name node) then Some node else None.
Proof.
  intro H. rewrite tree_find_entry_eq.
  destruct (String.eqb path (name node)); [reflexivity|].
  pose proof (skip_name_noslash (name node) path H) as K.
  destruct (skip_name (name node) path) as [[|ch next']|]; try reflexivity.
  now rewrite K.
Qed.

Lemma find_entry_slash node path c rest :
  memchr_slash (name node) = None ->
  memchr_slash path = Some (c, rest) ->
  tree_find_entry node path =
  if String.eqb (name node) c
  then match rest with
       | EmptyString => Some node
       | _ => find_sub (sub node) rest
       end
  else None.
Proof.
  intros Hn Hp. rewrite tree_find_entry_eq.
  rewrite (eqb_slash_noslash _ _ _ _ Hp Hn).
  pose proof (skip_name_slash _ _ _ _ Hn Hp) as K.
  destruct (skip_name (name node) path) as [[|ch next']|].
  - now rewrite K.
  - destruct (Ascii.eqb ch slash).
    + destruct K as [-> ->]. reflexivity.
    + now rewrite K.
  - now rewrite K.
Qed.

Lemma find_sub_cons node l path :
  find_sub (node :: l) path =
  match tree_find_entry node path with
  | Some ret => Some ret
  | None => find_sub l path
  end.
Proof. reflexivity. Qed.

Lemma find_sub_app l1 l2 path :
  find_sub (l1 ++ l2) path =
  match find_sub l1 path with
  | Some ret => Some ret
  | None => find_sub l2 path
  end.
Proof.
  induction l1 as [|x l1 IH]; [reflexivity|].
  simpl app. rewrite !find_sub_cons.
  destruct (tree_find_entry x path); [reflexivity | exact IH].
Qed.

(** The root of the tree: the leading separator is dropped and the search
    goes on among the children. *)
Lemma find_entry_root root path :
  name root = "" -> path <> "" ->
  tree_find_entry root (String slash path) = find_sub (sub root) path.
Proof.
  intros Hn Hp. rewrite tree_find_entry_eq, Hn. simpl.
  destruct path; [now elim Hp | reflexivity].
Qed.

(** ** Invariants over all the nodes of a tree *)

Lemma every_node_eq P t :
  every_node P t <-> P t /\ Forall (every_node P) (sub t).
Proof.
  destruct t as [n d o s k l]. simpl.
  assert (E : (fix all (l : list tree) : Prop :=
                 match l with
                 | [] => True
                 | x :: r => every_node P x /\ all r
                 end) l <-> Forall (every_node P) l).
  { induction l as [|x l IH]; [now split|].
    split.
    - intros [H1 H2]. constructor; [exact H1 | now apply IH].
    - intro H. inversion H; subst. split; [assumption | now apply IH]. }
  now rewrite E.
Qed.

Lemma names_ok_insert off sz root path :
  names_ok root -> names_ok (tree_insert root path off sz).
Proof.
  apply (tree_insert_cases off sz (fun r _ r' => names_ok r -> names_ok r'));
    clear root path; unfold names_ok.
  - auto.
  - intros root path _ M H. apply every_node_eq in H. destruct H as [H1 H2].
    apply every_node_eq. simpl. split; [exact H1|].
    constructor; [|exact H2]. apply every_node_eq. simpl. auto.
  - intros root path dir rest M _ IH H.
    apply every_node_eq in H. destruct H as [H1 H2].
    apply every_node_eq. simpl. split; [exact H1|].
    constructor; [|exact H2]. apply IH.
    apply every_node_eq. simpl. split; [|constructor].
    now destruct (memchr_slash_some _ _ _ M).
  - intros root path dir rest l1 node l2 M Hl _ _ IH H.
    apply every_node_eq in H. destruct H as [H1 H2]. rewrite Hl in H2.
    apply every_node_eq. simpl. split; [exact H1|].
    apply Forall_app in H2. destruct H2 as [Ha Hb].
    inversion Hb; subst.
    apply Forall_app. split; [exact Ha|]. constructor; auto.
Qed.

Lemma names_ok_empty : names_ok tree_empty.
Proof. apply every_node_eq. simpl. auto. Qed.

(** ** Looking up what was inserted *)

Lemma find_sub_other_names l path dir rest :
  Forall names_ok l ->
  Forall (fun x => String.eqb (name x) dir = false) l ->
  memchr_slash path = Some (dir, rest) ->
  find_sub l path = None.
Proof.
  intros Hok Hne M. induction l as [|x l IH]; [reflexivity|].
  inversion Hok; subst. inversion Hne; subst.
  rewrite find_sub_cons.
  apply every_node_eq in H1. destruct H1 as [Hx _].
  rewrite (find_entry_slash x path dir rest Hx M), H3. auto.
Qed.

(** Right after [tree_insert], the lookup of the inserted path ends on the
    new leaf. *)
Lemma find_after_insert off sz root path :
  Forall names_ok (sub root) -> file_path path = true ->
  exists nm,
    find_sub (sub (tree_insert root path off sz)) path
    = Some (new_file nm off sz).
Proof.
  apply (tree_insert_cases off sz
           (fun r p r' =>
              Forall names_ok (sub r) -> file_path p = true ->
              exists nm, find_sub (sub r') p = Some (new_file nm off sz)));
    clear root path.
  - intros root _ H. discriminate.
  - intros root path _ M _ _. exists path. simpl sub.
    rewrite find_sub_cons, (find_entry_noslash _ _ M). simpl name.
    now rewrite String.eqb_refl.
  - intros root path dir rest M _ IH _ Hf.
    rewrite (file_path_rest _ _ _ M) in Hf.
    destruct (IH (Forall_nil _) Hf) as [nm Hnm]. exists nm. simpl sub.
    rewrite find_sub_cons.
    destruct (tree_insert_fields (new_directory dir) rest off sz) as [Hn _].
    simpl in Hn.
    rewrite (find_entry_slash _ path dir rest); [|rewrite Hn|exact M].
    + rewrite Hn, String.eqb_refl, Hnm.
      destruct rest; [discriminate | reflexivity].
    + now destruct (memchr_slash_some _ _ _ M).
  - intros root path dir rest l1 node l2 M Hl Hl1 Hnode IH Hok Hf.
    rewrite (file_path_rest _ _ _ M) in Hf.
    rewrite Hl in Hok. apply Forall_app in Hok. destruct Hok as [Ha Hb].
    inversion Hb; subst.
    apply every_node_eq in H1. destruct H1 as [Hnm Hsub].
    destruct (IH Hsub Hf) as [nm Hfound]. exists nm. simpl sub.
    rewrite find_sub_app, (find_sub_other_names l1 path dir rest Ha Hl1 M).
    rewrite find_sub_cons.
    destruct (tree_insert_fields node rest off sz) as [Hn _].
    rewrite (find_entry_slash _ path dir rest); [|now rewrite Hn|exact M].
    rewrite Hn, Hnode, Hfound.
    destruct rest; [discriminate | reflexivity].
Qed.

Lemma opt_same_refl x : opt_same x x.
Proof. destruct x; simpl; unfold same_entry; auto. Qed.

Lemma opt_same_trans x y z : opt_same x y -> opt_same y z -> opt_same x z.
Proof.
  destruct x, y, z; simpl; unfold same_entry; try tauto.
  intros (-> & -> & -> & ->) (-> & -> & -> & ->). auto.
Qed.

Lemma opt_same_orelse x x' y y' :
  opt_same x x' -> opt_same y y' ->
  opt_same (match x with Some r => Some r | None => y end)
           (match x' with Some r => Some r | None => y' end).
Proof. destruct x, x'; simpl; tauto. Qed.

Lemma is_under_rest d r r' :
  is_under (d ++ String slash r) (d ++ String slash r') = is_under r r'.
Proof.
  unfold is_under. rewrite append_assoc. simpl. rewrite prefix_append.
  simpl. destruct (ascii_dec slash slash) as [_|n]; [reflexivity | now elim n].
Qed.

Lemma is_under_dir d r : is_under d (d ++ String slash r) = true.
Proof.
  unfold is_under.
  replace (d ++ String slash r) with ((d ++ String slash "") ++ r)
    by (now rewrite append_assoc).
  apply prefix_refl_append.
Qed.

(** An insert of another path, not below [p], leaves the lookup of [p] as
    it was. *)
Lemma find_insert_other off sz root path :
  forall p,
    file_path p = true -> p <> path -> is_under p path = false ->
    opt_same (find_sub (sub root) p)
             (find_sub (sub (tree_insert root path off sz)) p).
Proof.
  apply (tree_insert_cases off sz
           (fun r q r' =>
              forall p,
                file_path p = true -> p <> q -> is_under p q = false ->
                opt_same (find_sub (sub r) p) (find_sub (sub r') p)));
    clear root path.
  - intros. apply opt_same_refl.
  - intros root path _ M p Hf Hne _. simpl sub. rewrite find_sub_cons.
    assert (E : tree_find_entry (new_file path off sz) p = None).
    { destruct (memchr_slash p) as [[c rest]|] eqn:Mp.
      - rewrite (find_entry_slash (new_file path off sz) p c rest M Mp).
        simpl.
        destruct (String.eqb path c); [|reflexivity].
        rewrite (file_path_rest _ _ _ Mp) in Hf.
        destruct rest; [discriminate | reflexivity].
      - rewrite (find_entry_noslash _ p Mp). simpl.
        destruct (String.eqb p path) eqn:E; [|reflexivity].
        apply String.eqb_eq in E. contradiction. }
    rewrite E. apply opt_same_refl.
  - intros root path dir rest M _ IH p Hf Hne Hu. simpl sub.
    rewrite find_sub_cons.
    destruct (memchr_slash_some _ _ _ M) as [-> Hdir].
    destruct (tree_insert_fields (new_directory dir) rest off sz) as [Hn _].
    simpl in Hn.
    assert (E : tree_find_entry
                  (tree_insert (new_directory dir) rest off sz) p = None).
    { destruct (memchr_slash p) as [[c r]|] eqn:Mp.
      - rewrite (find_entry_slash _ p c r); [|now rewrite Hn|exact Mp].
        rewrite Hn. destruct (String.eqb dir c) eqn:Ec; [|reflexivity].
        apply String.eqb_eq in Ec. subst c.
        destruct (memchr_slash_some _ _ _ Mp) as [-> _].
        rewrite (file_path_rest _ _ _ Mp) in Hf.
        rewrite is_under_rest in Hu.
        assert (Hr : r <> rest) by (intros ->; now apply Hne).
        specialize (IH r Hf Hr Hu). simpl in IH.
        destruct (find_sub _ r); [contradiction|].
        destruct r; [discriminate | reflexivity].
      - rewrite (find_entry_noslash _ p Mp), Hn.
        destruct (String.eqb p dir) eqn:Ep; [|reflexivity].
        apply String.eqb_eq in Ep. subst p.
        rewrite is_under_dir in Hu. discriminate. }
    rewrite E. apply opt_same_refl.
  - intros root path dir rest l1 node l2 M Hl _ Hnode IH p Hf Hne Hu.
    simpl sub. rewrite Hl, !find_sub_app, !find_sub_cons.
    apply opt_same_orelse; [apply opt_same_refl|].
    apply opt_same_orelse; [|apply opt_same_refl].
    destruct (memchr_slash_some _ _ _ M) as [-> Hdir].
    apply String.eqb_eq in Hnode.
    destruct (tree_insert_fields node rest off sz) as (Hn & Hd & Ho & Hs).
    destruct (memchr_slash p) as [[c r]|] eqn:Mp.
    + rewrite (find_entry_slash (tree_insert node rest off sz) p c r);
        [|now rewrite Hn, Hnode|exact Mp].
      rewrite (find_entry_slash node p c r); [|now rewrite Hnode|exact Mp].
      rewrite Hn, Hnode.
      destruct (String.eqb dir c) eqn:Ec; [|exact I].
      apply String.eqb_eq in Ec. subst c.
      destruct (memchr_slash_some _ _ _ Mp) as [-> _].
      rewrite (file_path_rest _ _ _ Mp) in Hf.
      rewrite is_under_rest in Hu.
      assert (Hr : r <> rest) by (intros ->; now apply Hne).
      specialize (IH r Hf Hr Hu).
      destruct r; [discriminate | exact IH].
    + rewrite !(find_entry_noslash _ p Mp), Hn.
      destruct (String.eqb p (name node)); [|exact I].
      simpl. unfold same_entry. auto.
Qed.

(** ** Sequences of inserts *)

Lemma insert_all_app root ops1 ops2 :
  insert_all root (ops1 ++ ops2) = insert_all (insert_all root ops1) ops2.
Proof. apply fold_left_app. Qed.

Lemma insert_all_names_ok root ops :
  names_ok root -> names_ok (insert_all root ops).
Proof.
  revert root. induction ops as [|e ops IH]; intros root H; [exact H|].
  simpl. apply IH. now apply names_ok_insert.
Qed.

Lemma insert_all_name root ops : name (insert_all root ops) = name root.
Proof.
  revert root. induction ops as [|e ops IH]; intro root; [reflexivity|].
  simpl. rewrite IH. apply tree_insert_fields.
Qed.

Lemma names_ok_sub root : names_ok root -> Forall names_ok (sub root).
Proof. intro H. now apply every_node_eq in H. Qed.

Lemma find_entry_after_inserts root ops1 p off sz ops2 :
  names_ok root -> name root = "" -> file_path p = true ->
  Forall (fun e => entry_path e <> p /\ is_under p (entry_path e) = false)
         ops2 ->
  finds_file (insert_all root (ops1 ++ (p, off, sz) :: ops2))
             ("/" ++ p) off sz.
Proof.
  intros Hok Hname Hf Hlater.
  rewrite insert_all_app. simpl insert_all.
  set (t1 := insert_all root ops1).
  assert (Hok1 : names_ok t1) by now apply insert_all_names_ok.
  assert (Hn1 : name t1 = "") by (unfold t1; now rewrite insert_all_name).
  destruct (find_after_insert off sz t1 p (names_ok_sub _ Hok1) Hf)
    as [nm Hfound].
  change (fold_left _ ops2 ?t) with (insert_all t ops2).
  unfold entry_path at 1. simpl fst. simpl snd.
  set (t2 := tree_insert t1 p off sz) in *.
  assert (Hn2 : name t2 = "").
  { unfold t2. destruct (tree_insert_fields t1 p off sz) as [-> _]. exact Hn1. }
  assert (H2 : exists node, find_sub (sub t2) p = Some node /\
                 is_dir node = false /\ offset node = off /\ size node = sz).
  { exists (new_file nm off sz). auto. }
  clearbody t2. clear Hfound Hok1 Hn1 t1 Hok Hname.
  revert t2 Hn2 H2.
  induction Hlater as [|e ops2 [He1 He2] _ IH]; intros t2 Hn2 H2.
  - simpl. destruct H2 as (node & Hnode & Hrest). exists node.
    split; [|exact Hrest].
    simpl append. rewrite find_entry_root; auto using file_path_nonempty.
  - simpl. apply IH.
    + destruct (tree_insert_fields t2 (entry_path e) (snd (fst e)) (snd e))
        as [-> _]. exact Hn2.
    + destruct H2 as (node & Hnode & Hd & Ho & Hs).
      pose proof (find_insert_other (snd (fst e)) (snd e) t2 (entry_path e)
                    p Hf (fun E => He1 (eq_sym E)) He2) as K.
      rewrite Hnode in K. simpl in K.
      destruct (find_sub (sub (tree_insert t2 _ _ _)) p) as [node'|];
        [|contradiction].
      destruct K as (_ & Kd & Ko & Ks).
      exists node'. repeat split; congruence.
Qed.

(** ** subdirectory counts *)

Lemma count_dirs_app l1 l2 :
  count_dirs (l1 ++ l2) = count_dirs l1 + count_dirs l2.
Proof.
  unfold count_dirs. rewrite filter_app, length_app. lia.
Qed.

Lemma count_dirs_cons x l :
  count_dirs (x :: l) = (if is_dir x then 1 else 0) + count_dirs l.
Proof.
  unfold count_dirs. simpl. destruct (is_dir x); simpl List.length; lia.
Qed.

Lemma nsubdirs_ok_insert off sz root path :
  every_node nsubdirs_ok root ->
  every_node nsubdirs_ok (tree_insert root path off sz).
Proof.
  apply (tree_insert_cases off sz
           (fun r _ r' => every_node nsubdirs_ok r ->
                          every_node nsubdirs_ok r'));
    clear root path.
  - auto.
  - intros root path _ _ H. apply every_node_eq in H. destruct H as [H1 H2].
    apply every_node_eq. simpl sub. split.
    + unfold nsubdirs_ok in *. simpl. rewrite count_dirs_cons. simpl. lia.
    + constructor; [|exact H2]. apply every_node_eq. simpl.
      split; [reflexivity | constructor].
  - intros root path dir rest _ _ IH H.
    apply every_node_eq in H. destruct H as [H1 H2].
    destruct (tree_insert_fields (new_directory dir) rest off sz)
      as (_ & Hd & _).
    apply every_node_eq. simpl sub. split.
    + unfold nsubdirs_ok in *. simpl. rewrite count_dirs_cons, Hd, H1.
      change (is_dir (new_directory dir)) with true. cbv iota. lia.
    + constructor; [|exact H2]. apply IH. apply every_node_eq. simpl.
      split; [reflexivity | constructor].
  - intros root path dir rest l1 node l2 _ Hl _ _ IH H.
    apply every_node_eq in H. destruct H as [H1 H2]. rewrite Hl in H2.
    apply Forall_app in H2. destruct H2 as [Ha Hb]. inversion Hb; subst.
    destruct (tree_insert_fields node rest off sz) as (_ & Hd & _).
    apply every_node_eq. simpl sub. split.
    + unfold nsubdirs_ok in *. simpl. rewrite H1, Hl.
      rewrite !count_dirs_app, !count_dirs_cons, Hd. reflexivity.
    + apply Forall_app. split; [exact Ha|]. constructor; auto.
Qed.

(** Whatever is inserted, every node's [nsubdirs] is the number of its
    children that are directories. *)
Lemma nsubdirs_counts_directories ops :
  every_node nsubdirs_ok (insert_all tree_empty ops).
Proof.
  assert (H : every_node nsubdirs_ok tree_empty).
  { apply every_node_eq. simpl. split; [reflexivity | constructor]. }
  revert H. generalize tree_empty.
  induction ops as [|e ops IH]; intros t H; [exact H|].
  simpl. apply IH. now apply nsubdirs_ok_insert.
Qed.

(** * The path tree: lookups after inserts *)

(** C1, as amended.  After any sequence of inserts whose paths are
    pairwise distinct and of which none lies below another (no inserted
    path is used as a directory by another one), every inserted path [p]
    with a non-empty final component is found again: [tree_find_entry] on
    ["/" ++ p] returns a node that is not a directory and carries the
    offset and the size given at the insert. *)
Theorem find_entry_inserted (ops : list entry) (p : string) (off sz : Z) :
  NoDup (map entry_path ops) ->
  (forall a b, In a ops -> In b ops ->
               is_under (entry_path a) (entry_path b) = false) ->
  In (p, off, sz) ops ->
  file_path p = true ->
  finds_file (insert_all tree_empty ops) ("/" ++ p) off sz.
Proof.
  intros Hnd Hunder Hin Hf.
  destruct (in_split _ _ Hin) as (ops1 & ops2 & ->).
  apply find_entry_after_inserts;
    [exact names_ok_empty | reflexivity | exact Hf |].
  rewrite map_app in Hnd. simpl in Hnd.
  apply NoDup_remove_2 in Hnd.
  apply Forall_forall. intros e He. split.
  - intro E. apply Hnd. apply in_or_app. right.
    change (entry_path (p, off, sz)) with p. rewrite <- E. now apply in_map.
  - apply (Hunder (p, off, sz) e).
    + apply in_or_app. right. now left.
    + apply in_or_app. right. now right.
Qed.

Lemma find_entry_inserted_witness :
  finds_file
    (insert_all tree_empty [("a/x", 7, 9); ("b", 1, 2); ("a/y", 3, 4)])
    "/a/x" 7 9.
Proof.
  apply (find_entry_inserted
           [("a/x", 7, 9); ("b", 1, 2); ("a/y", 3, 4)] "a/x" 7 9).
  - repeat constructor; simpl; intuition discriminate.
  - intros a b Ha Hb. simpl in Ha, Hb.
    destruct Ha as [<-|[<-|[<-|[]]]]; destruct Hb as [<-|[<-|[<-|[]]]];
      reflexivity.
  - simpl. auto.
  - reflexivity.
Defined.

(** C1 as stated fails: the three paths are distinct, yet the lookup of the
    first one ends on a directory node created by the third insert below
    the file node of the second. *)
Lemma find_entry_inserted_counterexample :
  let ops := [("a/x", 7, 9); ("a", 1, 2); ("a/x/y", 3, 4)] in
  NoDup (map entry_path ops) /\
  In ("a/x", 7, 9) ops /\
  tree_find_entry (insert_all tree_empty ops) "/a/x"
  = Some (Tree "x" true 0 0 0 [Tree "y" false 3 4 0 []]) /\
  ~ finds_file (insert_all tree_empty ops) "/a/x" 7 9.
Proof.
  simpl. repeat split.
  - repeat constructor; simpl; intuition discriminate.
  - auto.
  - intros (node & Hnode & Hd & _).
    vm_compute in Hnode. injection Hnode as <-. discriminate.
Qed.

(** C8, as amended.  [tree_insert] neither rejects a path that is already
    present nor keeps the first leaf in front: the second leaf is put
    before the first one among the children of the same parent, and
    [tree_find_entry] on that path returns the offset and size of the
    latest insert. *)
Theorem duplicate_insert_shadows (ops : list entry) (p : string)
    (o1 s1 o2 s2 : Z) :
  file_path p = true ->
  finds_file (insert_all tree_empty (ops ++ [(p, o1, s1); (p, o2, s2)]))
             ("/" ++ p) o2 s2 /\
  (memchr_slash p = None ->
   sub (insert_all tree_empty (ops ++ [(p, o1, s1); (p, o2, s2)]))
   = new_file p o2 s2 :: new_file p o1 s1
       :: sub (insert_all tree_empty ops)).
Proof.
  intro Hf. split.
  - replace (ops ++ [(p, o1, s1); (p, o2, s2)])%list
      with ((ops ++ [(p, o1, s1)]) ++ (p, o2, s2) :: [])%list
      by (now rewrite <- app_assoc).
    apply find_entry_after_inserts;
      [exact names_ok_empty | reflexivity | exact Hf | constructor].
  - intro M. rewrite insert_all_app. simpl. unfold entry_path. simpl.
    rewrite !tree_insert_eq, M.
    destruct p; [discriminate | reflexivity].
Qed.

Lemma duplicate_insert_shadows_witness :
  finds_file (insert_all tree_empty ([] ++ [("a", 1, 2); ("a", 3, 4)]))
             "/a" 3 4.
Proof.
  apply (duplicate_insert_shadows [] "a" 1 2 3 4). reflexivity.
Defined.

(** C8 as stated fails: after a second insert of the same path the lookup
    no longer returns the offset and size inserted first. *)
Lemma duplicate_insert_counterexample :
  tree_find_entry (insert_all tree_empty [("a", 1, 2); ("a", 3, 4)]) "/a"
  = Some (Tree "a" false 3 4 0 []) /\
  ~ finds_file (insert_all tree_empty [("a", 1, 2); ("a", 3, 4)]) "/a" 1 2.
Proof.
  split; [reflexivity|].
  intros (node & Hnode & _ & Ho & _).
  vm_compute in Hnode. injection Hnode as <-. discriminate.
Qed.

(** C9 at the failing input: the directory branch of [tree_insert] goes
    into the file child ["a"]; no directory ["a"] is created and the
    parent's [nsubdirs] stays 0. *)
Lemma file_child_reused_as_directory :
  tree_insert (tree_insert tree_empty "a" 1 2) "a/b" 3 4
  = Tree "" true 0 0 0 [Tree "a" false 1 2 0 [Tree "b" false 3 4 0 []]].
Proof. reflexivity. Qed.

(** C6 at the failing input: a reachable node that is not a directory and
    has a child. *)
Lemma file_node_with_children :
  exists node,
    In node (sub (insert_all tree_empty [("a", 1, 2); ("a/b", 3, 4)])) /\
    is_dir node = false /\ sub node <> [].
Proof.
  exists (Tree "a" false 1 2 0 [Tree "b" false 3 4 0 []]).
  repeat split; [now left | discriminate].
Qed.

(** The same tree comes out of an image: the root directory holds a file
    and a directory of the same name. *)
Example clash_image_tree :
  exists fd,
    xbfs_init 4 (File clash_image 0 ext4_maxbytes)
    = Done (Some (Xbfs fd
        (Tree "" true 0 0 0
           [Tree "a" false 6144 3 0 [Tree "b" false 8192 5 0 []]]))).
Proof. eexists. vm_compute. reflexivity. Qed.

(** * tree_open *)

Lemma read_only_no_write_bit (f : Z) :
  Z.land f O_ACCMODE = O_RDONLY -> Z.land f O_WRONLY = 0.
Proof.
  unfold O_ACCMODE, O_RDONLY, O_WRONLY. intro H.
  change 1 with (Z.land 3 1). now rewrite Z.land_assoc, H.
Qed.

(** C7, as amended.  The write test comes first: a request whose flags
    have the [O_WRONLY] bit fails with [EROFS] whether or not the path is
    present.  A read-only request fails with [ENOENT] on an absent path and
    succeeds on a present one.  In every case the file information and the
    tree come back as they were given. *)
Theorem tree_open_result (path : string) (fi : fuse_file_info)
    (root : tree) :
  (Z.land (flags fi) O_WRONLY <> 0 ->
   tree_open path fi root = (- EROFS, fi, root)) /\
  (Z.land (flags fi) O_ACCMODE = O_RDONLY ->
   tree_find_entry root path = None ->
   tree_open path fi root = (- ENOENT, fi, root)) /\
  (Z.land (flags fi) O_ACCMODE = O_RDONLY ->
   tree_find_entry root path <> None ->
   tree_open path fi root = (0, fi, root)) /\
  snd (fst (tree_open path fi root)) = fi /\
  snd (tree_open path fi root) = root.
Proof.
  unfold tree_open. repeat split.
  - intro H. apply Z.eqb_neq in H. now rewrite H.
  - intros H E. rewrite (read_only_no_write_bit _ H), E. reflexivity.
  - intros H E. rewrite (read_only_no_write_bit _ H). simpl.
    destruct (tree_find_entry root path); [reflexivity | now elim E].
  - destruct (negb _); [reflexivity|].
    destruct (tree_find_entry root path); reflexivity.
  - destruct (negb _); [reflexivity|].
    destruct (tree_find_entry root path); reflexivity.
Qed.

Lemma tree_open_result_witness :
  tree_open "/a" (FileInfo O_RDONLY 0) (tree_insert tree_empty "a" 1 2)
  = (0, FileInfo O_RDONLY 0, tree_insert tree_empty "a" 1 2).
Proof.
  apply (tree_open_result "/a" (FileInfo O_RDONLY 0)
           (tree_insert tree_empty "a" 1 2));
    [reflexivity | discriminate].
Defined.

(** C7 as stated fails: the path is absent, but the request for writing is
    answered with [EROFS], not with [ENOENT]. *)
Lemma tree_open_counterexample :
  tree_find_entry tree_empty "/x" = None /\
  tree_open "/x" (FileInfo O_WRONLY 0) tree_empty
  = (- EROFS, FileInfo O_WRONLY 0, tree_empty) /\
  - EROFS <> - ENOENT.
Proof. repeat split. discriminate. Qed.

(** The [O_WRONLY] bit is not set in [O_RDWR]: a read-write request for a
    present path passes the test of [tree_open]. *)
Example tree_open_read_write :
  tree_open "/a" (FileInfo O_RDWR 0) (tree_insert tree_empty "a" 1 2)
  = (0, FileInfo O_RDWR 0, tree_insert tree_empty "a" 1 2).
Proof. reflexivity. Qed.

(** * tree_read *)

Lemma geb_false a b : a < b -> (a >=? b) = false.
Proof. intro H. rewrite Z.geb_leb. apply Z.leb_gt. exact H. Qed.

Lemma geb_true a b : b <= a -> (a >=? b) = true.
Proof. intro H. rewrite Z.geb_leb. apply Z.leb_le. exact H. Qed.

Lemma gtb_false a b : a <= b -> (a >? b) = false.
Proof. intro H. rewrite Z.gtb_ltb. apply Z.ltb_ge. exact H. Qed.

Lemma gtb_true a b : b < a -> (a >? b) = true.
Proof. intro H. rewrite Z.gtb_ltb. apply Z.ltb_lt. exact H. Qed.

Lemma slice_length (x : list byte) (i n : Z) :
  0 <= i -> 0 <= n ->
  Z.of_nat (List.length (slice x i n))
  = Z.min n (Z.max 0 (Z.of_nat (List.length x) - i)).
Proof.
  intros Hi Hn. unfold slice. rewrite length_firstn, length_skipn. lia.
Qed.

Lemma lseek_accepted (fd : file) (pos : Z) :
  0 <= pos <= Z.of_N (maxbytes fd) ->
  lseek fd pos = File (image fd) pos (maxbytes fd).
Proof.
  intro H. unfold lseek.
  destruct (pos <? 0) eqn:E; [apply Z.ltb_lt in E; lia|].
  destruct (Z.of_N (maxbytes fd) <? pos) eqn:F;
    [apply Z.ltb_lt in F; lia | reflexivity].
Qed.

Lemma lseek_refused (fd : file) (pos : Z) :
  pos < 0 \/ Z.of_N (maxbytes fd) < pos -> lseek fd pos = fd.
Proof.
  intro H. unfold lseek.
  destruct (pos <? 0) eqn:E; [reflexivity|].
  destruct (Z.of_N (maxbytes fd) <? pos) eqn:F; [reflexivity|].
  apply Z.ltb_ge in E, F. lia.
Qed.

Lemma read_eq (fd : file) (count : Z) :
  count <= SSIZE_MAX ->
  read fd count
  = (Z.of_nat (List.length
                 (slice (image fd) (cursor fd) (Z.min count MAX_RW_COUNT))),
     slice (image fd) (cursor fd) (Z.min count MAX_RW_COUNT),
     File (image fd)
          (cursor fd
           + Z.of_nat (List.length
                         (slice (image fd) (cursor fd)
                            (Z.min count MAX_RW_COUNT))))
          (maxbytes fd)).
Proof.
  intro H. unfold read, slice.
  destruct (SSIZE_MAX <? count) eqn:E; [apply Z.ltb_lt in E; lia|].
  reflexivity.
Qed.

Lemma read_refused (fd : file) (count : Z) :
  SSIZE_MAX < count -> read fd count = (- 1, [], fd).
Proof.
  intro H. unfold read.
  destruct (SSIZE_MAX <? count) eqn:E; [reflexivity|].
  apply Z.ltb_ge in E. lia.
Qed.

Lemma read_at (fd : file) (pos count : Z) :
  0 <= pos <= Z.of_N (maxbytes fd) -> count <= MAX_RW_COUNT ->
  read (lseek fd pos) count
  = (Z.of_nat (List.length (slice (image fd) pos count)),
     slice (image fd) pos count,
     File (image fd)
          (pos + Z.of_nat (List.length (slice (image fd) pos count)))
          (maxbytes fd)).
Proof.
  intros H C. rewrite (lseek_accepted fd pos H).
  rewrite read_eq by (unfold SSIZE_MAX, MAX_RW_COUNT in *; simpl; lia).
  cbn [image cursor maxbytes]. rewrite Z.min_l by exact C. reflexivity.
Qed.

Lemma to_size_t_small z : 0 <= z < 2 ^ 64 -> to_size_t z = z.
Proof. intro H. unfold to_size_t. now apply Z.mod_small. Qed.

Lemma to_off_t_small z : - 2 ^ 63 <= z < 2 ^ 63 -> to_off_t z = z.
Proof. intro H. unfold to_off_t. rewrite Z.mod_small; lia. Qed.

Lemma to_int_small z : - 2 ^ 31 <= z < 2 ^ 31 -> to_int z = z.
Proof. intro H. unfold to_int. rewrite Z.mod_small; lia. Qed.

Lemma to_uint_small z : 0 <= z < 2 ^ 32 -> to_uint z = z.
Proof. intro H. unfold to_uint. now apply Z.mod_small. Qed.

Lemma clipped_count (count off sz : Z) :
  0 <= off < sz -> sz < 2 ^ 63 -> 0 <= count -> off + count < 2 ^ 64 ->
  (if to_size_t (off + count) >? to_size_t sz then to_size_t (sz - off)
   else count)
  = Z.min count (sz - off).
Proof.
  intros Hoff Hsz Hc Hsum.
  rewrite !to_size_t_small by lia.
  destruct (off + count >? sz) eqn:G.
  - apply Z.gtb_lt in G. lia.
  - rewrite Z.gtb_ltb in G. apply Z.ltb_ge in G. lia.
Qed.

(** C5, as amended.  An absent path gives [ENOENT], a directory [EISDIR],
    an offset at or past the size of the file zero bytes and no error.
    Otherwise the length is clipped to [want = min count (size - off)], so
    that [off + want <= size], and one [read] of [want] bytes follows the
    seek to [offset + off].  When the seek is accepted, the bytes of the
    image from that position on are transferred, never more than [want]
    and never more than [MAX_RW_COUNT]: exactly [min want MAX_RW_COUNT]
    bytes when the image holds that range, and the shorter rest of the
    image when it does not; the result is the number of bytes
    transferred.  A request whose [off + count] does not fit into 64 bits
    is not clipped, and its [read] is refused. *)
Theorem tree_read_result (path : string) (count off : Z) (root : tree)
    (fd : file) :
  (tree_find_entry root path = None ->
   tree_read path count off root fd = (- ENOENT, [], fd)) /\
  (forall node,
     tree_find_entry root path = Some node -> is_dir node = true ->
     tree_read path count off root fd = (- EISDIR, [], fd)) /\
  (forall node,
     tree_find_entry root path = Some node -> is_dir node = false ->
     size node <= off ->
     tree_read path count off root fd = (0, [], fd)) /\
  (forall node,
     tree_find_entry root path = Some node -> is_dir node = false ->
     0 <= off < size node -> size node < 2 ^ 63 ->
     0 <= count -> off + count < 2 ^ 64 ->
     0 <= offset node + off <= Z.of_N (maxbytes fd) ->
     offset node + off < 2 ^ 63 ->
     let want := Z.min count (size node - off) in
     let data :=
       slice (image fd) (offset node + off) (Z.min want MAX_RW_COUNT) in
     let got := Z.of_nat (List.length data) in
     tree_read path count off root fd
     = (got, data, File (image fd) (offset node + off + got) (maxbytes fd)) /\
     off + want <= size node /\
     got <= want /\ got <= MAX_RW_COUNT /\
     (offset node + off + Z.min want MAX_RW_COUNT
      <= Z.of_nat (List.length (image fd)) ->
      got = Z.min want MAX_RW_COUNT) /\
     (size node < off + count -> want = size node - off)) /\
  (forall node,
     tree_find_entry root path = Some node -> is_dir node = false ->
     0 <= off < size node -> size node < 2 ^ 63 ->
     count < 2 ^ 64 -> 2 ^ 64 <= off + count ->
     fst (tree_read path count off root fd) = (- 1, [])).
Proof.
  unfold tree_read. split; [|split; [|split; [|split]]].
  - intros ->. reflexivity.
  - intros node -> ->. reflexivity.
  - intros node -> -> H.
    destruct (off >=? size node) eqn:E; [reflexivity|].
    rewrite Z.geb_leb in E. apply Z.leb_gt in E. lia.
  - intros node Hfind Hfile Hoff Hsz Hc Hsum Hpos Hlt.
    rewrite Hfind, Hfile.
    rewrite geb_false by lia.
    rewrite clipped_count by assumption.
    set (want := Z.min count (size node - off)).
    rewrite to_off_t_small by lia.
    rewrite (lseek_accepted fd _ Hpos).
    rewrite read_eq by (unfold SSIZE_MAX; lia).
    cbn [image cursor maxbytes].
    set (data := slice (image fd) (offset node + off)
                   (Z.min want MAX_RW_COUNT)).
    set (got := Z.of_nat (List.length data)).
    assert (Hgot : got = Z.min (Z.min want MAX_RW_COUNT)
                           (Z.max 0 (Z.of_nat (List.length (image fd))
                                     - (offset node + off)))).
    { unfold got, data. apply slice_length; unfold MAX_RW_COUNT; lia. }
    assert (Hmax : got <= MAX_RW_COUNT) by lia.
    rewrite to_int_small by (unfold MAX_RW_COUNT in Hmax; lia).
    repeat split; try lia.
  - intros node Hfind Hfile Hoff Hsz Hc Hsum.
    rewrite Hfind, Hfile.
    rewrite geb_false by lia.
    assert (E : to_size_t (off + count) = off + count - 2 ^ 64).
    { unfold to_size_t. symmetry. apply (Z.mod_unique _ _ 1); lia. }
    rewrite E, (to_size_t_small (size node)) by lia.
    rewrite gtb_false by lia.
    rewrite read_refused by (unfold SSIZE_MAX; lia).
    reflexivity.
Qed.

Lemma tree_read_result_witness :
  tree_read "/f" 20 4 (tree_insert tree_empty "f" 2 10)
    (File (list_byte_of_string "0123456789abcdef") 0 ext4_maxbytes)
  = (6, list_byte_of_string "6789ab",
     File (list_byte_of_string "0123456789abcdef") 12 ext4_maxbytes).
Proof.
  destruct (tree_read_result "/f" 20 4 (tree_insert tree_empty "f" 2 10)
              (File (list_byte_of_string "0123456789abcdef") 0
                 ext4_maxbytes))
    as (_ & _ & _ & H & _).
  destruct (H (new_file "f" 2 10)) as (E & _);
    [reflexivity | reflexivity | simpl; lia | simpl; lia | lia | lia
    | simpl; lia | simpl; lia |].
  rewrite E. reflexivity.
Defined.

(** * The on-disk format *)

Lemma byte_val_range (b : byte) : 0 <= byte_val b < 256.
Proof.
  unfold byte_val. pose proof (Byte.to_N_bounded b). lia.
Qed.

Lemma at_index_range (x : list byte) (i : Z) : 0 <= at_index x i < 256.
Proof. apply byte_val_range. Qed.

Lemma lor_shiftl_add (hi lo k : Z) :
  0 <= k -> 0 <= lo < 2 ^ k ->
  Z.lor (Z.shiftl hi k) lo = hi * 2 ^ k + lo.
Proof.
  intros Hk Hlo.
  rewrite <- Z.shiftl_mul_pow2 by exact Hk.
  rewrite <- Z.add_lor_land.
  assert (E : Z.land (Z.shiftl hi k) lo = 0).
  { apply Z.bits_inj'. intros n Hn.
    rewrite Z.land_spec, Z.bits_0.
    destruct (Z.lt_ge_cases n k) as [L|G].
    - rewrite Z.shiftl_spec_low by exact L. reflexivity.
    - rewrite <- (Z.mod_small lo (2 ^ k)) by exact Hlo.
      rewrite Z.mod_pow2_bits_high by lia.
      apply andb_false_r. }
  rewrite E. lia.
Qed.

(** The little-endian values the two macros decode. *)
Lemma LE_16_value (x : list byte) (i : Z) :
  LE_16 x i = at_index x i + 2 ^ 8 * at_index x (i + 1).
Proof.
  unfold LE_16. pose proof (at_index_range x i).
  rewrite lor_shiftl_add; lia.
Qed.

Lemma LE_32_value (x : list byte) (i : Z) :
  to_uint (LE_32 x i)
  = at_index x i + 2 ^ 8 * at_index x (i + 1)
    + 2 ^ 16 * at_index x (i + 2) + 2 ^ 24 * at_index x (i + 3).
Proof.
  unfold LE_32.
  pose proof (at_index_range x i). pose proof (at_index_range x (i + 1)).
  pose proof (at_index_range x (i + 2)). pose proof (at_index_range x (i + 3)).
  set (b0 := at_index x i) in *. set (b1 := at_index x (i + 1)) in *.
  set (b2 := at_index x (i + 2)) in *. set (b3 := at_index x (i + 3)) in *.
  rewrite (Z.shiftl_mul_pow2 b2 16), (Z.shiftl_mul_pow2 b1 8) by lia.
  rewrite (lor_shiftl_add b3 (b2 * 2 ^ 16) 24) by lia.
  replace (b3 * 2 ^ 24 + b2 * 2 ^ 16)
    with ((b3 * 2 ^ 8 + b2) * 2 ^ 16) by lia.
  rewrite <- (Z.shiftl_mul_pow2 _ 16) by lia.
  rewrite (lor_shiftl_add _ (b1 * 2 ^ 8) 16) by lia.
  replace ((b3 * 2 ^ 8 + b2) * 2 ^ 16 + b1 * 2 ^ 8)
    with ((b3 * 2 ^ 16 + b2 * 2 ^ 8 + b1) * 2 ^ 8) by lia.
  rewrite <- (Z.shiftl_mul_pow2 _ 8) by lia.
  rewrite (lor_shiftl_add _ b0 8) by lia.
  rewrite to_uint_small; lia.
Qed.

(** [attributes & 0x10] is bit 4 of the attribute byte. *)
Lemma directory_bit (a : Z) :
  negb (Z.land a 0x10 =? 0) = Z.testbit a 4.
Proof.
  change 0x10 with (Z.shiftl 1 4).
  destruct (Z.testbit a 4) eqn:E.
  - destruct (Z.land a (Z.shiftl 1 4) =? 0) eqn:K; [|reflexivity].
    apply Z.eqb_eq in K.
    assert (F : Z.testbit (Z.land a (Z.shiftl 1 4)) 4 = true).
    { rewrite Z.land_spec, E. reflexivity. }
    rewrite K in F. discriminate.
  - assert (K : Z.land a (Z.shiftl 1 4) = 0).
    { apply Z.bits_inj'. intros n Hn. rewrite Z.land_spec, Z.bits_0.
      destruct (Z.eq_dec n 4) as [->|D]; [now rewrite E|].
      rewrite Z.shiftl_spec by exact Hn.
      replace (Z.testbit 1 (n - 4)) with false; [apply andb_false_r|].
      symmetry. destruct (Z.lt_ge_cases (n - 4) 0) as [L|G].
      - now apply Z.testbit_neg_r.
      - apply Z.bits_above_log2; simpl; lia. }
    now rewrite K.
Qed.

(** * The traversal of a directory block *)

Lemma file_subtree_S fuel name_buffer base dir_entry dir_entry_size o st :
  xbfs_recurse_file_subtree (S fuel) name_buffer base dir_entry
    dir_entry_size o st
  = if o + 0xD >=? dir_entry_size then Done st
    else
      st1 <- (if LE_16 dir_entry o * 4 =? 0 then Done st
              else xbfs_recurse_file_subtree fuel name_buffer base dir_entry
                     dir_entry_size (LE_16 dir_entry o * 4) st) ;;
      st2 <-
        (if Z.of_nat (String.length name_buffer) + 1 >? NAME_MAX_SIZE
         then Undefined NameCopyOverrun
         else if o + 0xE + at_index dir_entry (o + 0xD) >? dir_entry_size
         then Undefined DirEntryOverread
         else if Z.of_nat (String.length name_buffer)
                 + at_index dir_entry (o + 0xD) >=? NAME_MAX_SIZE
         then Undefined NameCopyOverrun
         else if negb (Z.land (at_index dir_entry (o + 0xC)) 0x10 =? 0) then
           if Z.of_nat (String.length name_buffer)
              + at_index dir_entry (o + 0xD) + 1 >=? NAME_MAX_SIZE
           then Undefined NameCopyOverrun
           else
             xbfs_recurse_directory fuel
               (name_buffer
                ++ cstring (slice dir_entry (o + 0xE)
                              (at_index dir_entry (o + 0xD)) ++ [Byte.x2f]))
               base (to_uint (LE_32 dir_entry (o + 4)))
               (to_uint (LE_32 dir_entry (o + 8))) st1
         else
           Done (fst st1,
                 tree_insert (snd st1)
                   (name_buffer
                    ++ cstring (slice dir_entry (o + 0xE)
                                  (at_index dir_entry (o + 0xD))))
                   (to_off_t (base + to_uint (LE_32 dir_entry (o + 4))
                                     * SECTOR_SIZE))
                   (to_uint (LE_32 dir_entry (o + 8))))) ;;
      if LE_16 dir_entry (o + 2) * 4 =? 0 then Done st2
      else xbfs_recurse_file_subtree fuel name_buffer base dir_entry
             dir_entry_size (LE_16 dir_entry (o + 2) * 4) st2.
Proof. reflexivity. Qed.


Lemma cstring_no_nul (bs : list byte) :
  ~ In Byte.x00 bs -> cstring bs = string_of_list_byte bs.
Proof.
  induction bs as [|b bs IH]; intro H; [reflexivity|].
  simpl. destruct (Byte.eqb b Byte.x00) eqn:E.
  - apply Byte.byte_dec_bl in E. subst b. elim H. now left.
  - unfold string_of_list_byte in *. simpl. rewrite IH; [reflexivity|].
    intro K. apply H. now right.
Qed.

(** C2, as amended.  The record at offset [o] is treated as absent, and
    the walk stops there, exactly when 13 or fewer bytes remain at [o]
    ([o + 13 >= dir_entry_size]: the 14-byte header does not fit).
    Otherwise the fields are the little-endian values at [o], [o+2],
    [o+4], [o+8], the bytes at [o+12] and [o+13] and the following
    [name_length] bytes; the pointers are scaled by 4, bit [0x10] of the
    attributes marks a directory; and the walk does the left subtree, then
    the record itself (a directory is loaded and walked, a file is inserted
    into the tree), then the right subtree. *)
Theorem directory_record_traversal (fuel : nat) (name_buffer : string)
    (base : Z) (dir_entry : list byte) (dir_entry_size o : Z) (st : state) :
  let b k := at_index dir_entry (o + k) in
  let left_pointer := (at_index dir_entry o + 2 ^ 8 * b 1) * 4 in
  let right_pointer := (b 2 + 2 ^ 8 * b 3) * 4 in
  let data_sector := b 4 + 2 ^ 8 * b 5 + 2 ^ 16 * b 6 + 2 ^ 24 * b 7 in
  let data_size := b 8 + 2 ^ 8 * b 9 + 2 ^ 16 * b 10 + 2 ^ 24 * b 11 in
  let attributes := b 12 in
  let name_length := b 13 in
  let nm := slice dir_entry (o + 14) name_length in
  let walk p s :=
    xbfs_recurse_file_subtree fuel name_buffer base dir_entry
      dir_entry_size p s in
  (dir_entry_size - o <= 13 ->
   xbfs_recurse_file_subtree (S fuel) name_buffer base dir_entry
     dir_entry_size o st = Done st) /\
  (13 < dir_entry_size - o ->
   o + 14 + name_length <= dir_entry_size ->
   Z.of_nat (String.length name_buffer) + name_length
   + (if Z.testbit attributes 4 then 2 else 1) <= NAME_MAX_SIZE ->
   xbfs_recurse_file_subtree (S fuel) name_buffer base dir_entry
     dir_entry_size o st
   = st1 <- (if left_pointer =? 0 then Done st else walk left_pointer st) ;;
     st2 <- (if Z.testbit attributes 4
             then xbfs_recurse_directory fuel
                    (name_buffer ++ cstring (nm ++ [Byte.x2f]))
                    base data_sector data_size st1
             else Done (fst st1,
                        tree_insert (snd st1) (name_buffer ++ cstring nm)
                          (to_off_t (base + data_sector * SECTOR_SIZE))
                          data_size)) ;;
     if right_pointer =? 0 then Done st2 else walk right_pointer st2).
Proof.
  intros b left_pointer right_pointer data_sector data_size attributes
         name_length nm walk.
  split.
  - intro H. rewrite file_subtree_S, geb_true by lia. reflexivity.
  - intros Hp Hn Hfit. rewrite file_subtree_S, geb_false by lia.
    rewrite !LE_16_value, !LE_32_value, directory_bit.
    replace (o + 2 + 1) with (o + 3) by lia.
    replace (o + 4 + 1) with (o + 5) by lia.
    replace (o + 4 + 2) with (o + 6) by lia.
    replace (o + 4 + 3) with (o + 7) by lia.
    replace (o + 8 + 1) with (o + 9) by lia.
    replace (o + 8 + 2) with (o + 10) by lia.
    replace (o + 8 + 3) with (o + 11) by lia.
    fold (b 1) (b 2) (b 3) (b 4) (b 5) (b 6) (b 7) (b 8) (b 9) (b 10)
         (b 11) (b 12) (b 13).
    fold left_pointer right_pointer data_sector data_size attributes
         name_length nm.
    pose proof (at_index_range dir_entry (o + 13)) as Hr.
    fold (b 13) in Hr. fold name_length in Hr.
    unfold NAME_MAX_SIZE in *. subst walk. cbv beta.
    destruct (if left_pointer =? 0 then Done st
              else xbfs_recurse_file_subtree fuel name_buffer base
                     dir_entry dir_entry_size left_pointer st)
      as [st1| |]; try reflexivity.
    unfold bind.
    rewrite gtb_false by (destruct (Z.testbit attributes 4); lia).
    rewrite gtb_false by lia.
    rewrite geb_false by (destruct (Z.testbit attributes 4); lia).
    destruct (Z.testbit attributes 4); [|reflexivity].
    rewrite geb_false by lia. reflexivity.
Qed.

Lemma directory_record_traversal_witness :
  xbfs_recurse_file_subtree 3 "" (-65536) sample_root 57 0
    (File sample_image 0 ext4_maxbytes, tree_empty)
  = Done (File sample_image 4115 ext4_maxbytes,
          Tree "" true 0 0 1
            [Tree "sub" true 0 0 0 [Tree "b.txt" false 10240 5 0 []];
             Tree "m" false 6144 100 0 [];
             Tree "a.txt" false 8192 7 0 []]).
Proof.
  destruct (directory_record_traversal 2 "" (-65536) sample_root 57 0
              (File sample_image 0 ext4_maxbytes, tree_empty)) as [_ H].
  rewrite H; [vm_compute; reflexivity | vm_compute; reflexivity
             | vm_compute; discriminate | vm_compute; discriminate].
Defined.

(** A directory with a file to the left and a subdirectory to the right:
    both files are inserted, the root has one subdirectory, and the
    children are listed newest first. *)
Example sample_image_tree :
  exists fd,
    xbfs_init 4 (File sample_image 0 ext4_maxbytes)
    = Done (Some (Xbfs fd
        (Tree "" true 0 0 1
           [Tree "sub" true 0 0 0 [Tree "b.txt" false 10240 5 0 []];
            Tree "m" false 6144 100 0 [];
            Tree "a.txt" false 8192 7 0 []]))).
Proof. eexists. vm_compute. reflexivity. Qed.

(** C2 as stated fails: 13 bytes remain at offset 0, not fewer, and the
    record is still treated as absent. *)
Lemma directory_record_counterexample :
  let dir_entry := firstn 13 (record_bytes 0 0 36 7 0 "a.txt") in
  let st := (File [] 0 ext4_maxbytes, tree_empty) in
  ~ (Z.of_nat (List.length dir_entry) - 0 < 13) /\
  xbfs_recurse_file_subtree 2 "" 0 dir_entry
    (Z.of_nat (List.length dir_entry)) 0 st = Done st.
Proof. split; [simpl; lia | reflexivity]. Qed.

(** * The scratch buffer for the path *)

(** C4, as amended.  The walk has no check of the accumulated path length
    and no bounds error.  When the accumulated path with its terminator
    (the prefix, the name, and the separator of a directory) fits into the
    [NAME_MAX_SIZE] bytes of [name_copy], the entry is processed under the
    full path, prefix and name, cut only where the name holds a NUL byte.
    When it does not fit, the copy writes past the end of [name_copy]. *)
Theorem name_copy_capacity (fuel : nat) (name_buffer : string) (base : Z)
    (dir_entry : list byte) (dir_entry_size o : Z) (st st1 : state) :
  let b k := at_index dir_entry (o + k) in
  let left_pointer := (at_index dir_entry o + 2 ^ 8 * b 1) * 4 in
  let right_pointer := (b 2 + 2 ^ 8 * b 3) * 4 in
  let data_sector := b 4 + 2 ^ 8 * b 5 + 2 ^ 16 * b 6 + 2 ^ 24 * b 7 in
  let data_size := b 8 + 2 ^ 8 * b 9 + 2 ^ 16 * b 10 + 2 ^ 24 * b 11 in
  let attributes := b 12 in
  let name_length := b 13 in
  let nm := slice dir_entry (o + 14) name_length in
  let walk p s :=
    xbfs_recurse_file_subtree fuel name_buffer base dir_entry
      dir_entry_size p s in
  let total :=
    Z.of_nat (String.length name_buffer) + name_length
    + (if Z.testbit attributes 4 then 2 else 1) in
  13 < dir_entry_size - o ->
  o + 14 + name_length <= dir_entry_size ->
  (if left_pointer =? 0 then Done st else walk left_pointer st) = Done st1 ->
  (NAME_MAX_SIZE < total ->
   xbfs_recurse_file_subtree (S fuel) name_buffer base dir_entry
     dir_entry_size o st = Undefined NameCopyOverrun) /\
  (total <= NAME_MAX_SIZE ->
   xbfs_recurse_file_subtree (S fuel) name_buffer base dir_entry
     dir_entry_size o st
   = st2 <- (if Z.testbit attributes 4
             then xbfs_recurse_directory fuel
                    (name_buffer ++ cstring (nm ++ [Byte.x2f]))
                    base data_sector data_size st1
             else Done (fst st1,
                        tree_insert (snd st1) (name_buffer ++ cstring nm)
                          (to_off_t (base + data_sector * SECTOR_SIZE))
                          data_size)) ;;
     if right_pointer =? 0 then Done st2 else walk right_pointer st2) /\
  (~ In Byte.x00 nm -> cstring nm = string_of_list_byte nm).
Proof.
  intros b left_pointer right_pointer data_sector data_size attributes
         name_length nm walk total Hp Hn Hleft.
  assert (E : xbfs_recurse_file_subtree (S fuel) name_buffer base dir_entry
                dir_entry_size o st
              = st2 <-
                  (if Z.of_nat (String.length name_buffer) + 1 >? NAME_MAX_SIZE
                   then Undefined NameCopyOverrun
                   else if Z.of_nat (String.length name_buffer)
                           + name_length >=? NAME_MAX_SIZE
                   then Undefined NameCopyOverrun
                   else if Z.testbit attributes 4 then
                     if Z.of_nat (String.length name_buffer)
                        + name_length + 1 >=? NAME_MAX_SIZE
                     then Undefined NameCopyOverrun
                     else xbfs_recurse_directory fuel
                            (name_buffer ++ cstring (nm ++ [Byte.x2f]))
                            base data_sector data_size st1
                   else Done (fst st1,
                              tree_insert (snd st1)
                                (name_buffer ++ cstring nm)
                                (to_off_t (base + data_sector * SECTOR_SIZE))
                                data_size)) ;;
                if right_pointer =? 0 then Done st2
                else walk right_pointer st2).
  { rewrite file_subtree_S, geb_false by lia.
    rewrite !LE_16_value, !LE_32_value, directory_bit.
    replace (o + 2 + 1) with (o + 3) by lia.
    replace (o + 4 + 1) with (o + 5) by lia.
    replace (o + 4 + 2) with (o + 6) by lia.
    replace (o + 4 + 3) with (o + 7) by lia.
    replace (o + 8 + 1) with (o + 9) by lia.
    replace (o + 8 + 2) with (o + 10) by lia.
    replace (o + 8 + 3) with (o + 11) by lia.
    fold (b 1) (b 2) (b 3) (b 4) (b 5) (b 6) (b 7) (b 8) (b 9) (b 10)
         (b 11) (b 12) (b 13).
    fold left_pointer right_pointer data_sector data_size attributes
         name_length nm.
    subst walk. cbv beta in *. rewrite Hleft. unfold bind at 1.
    rewrite (gtb_false (o + 14 + name_length)) by lia. reflexivity. }
  pose proof (at_index_range dir_entry (o + 13)) as Hr.
  fold (b 13) in Hr. fold name_length in Hr.
  rewrite E. clear E. subst total. unfold NAME_MAX_SIZE.
  split; [|split].
  - intro H.
    destruct (Z.of_nat (String.length name_buffer) + 1 >? 1024) eqn:G1;
      [reflexivity|].
    destruct (Z.of_nat (String.length name_buffer) + name_length >=? 1024)
      eqn:G2; [reflexivity|].
    rewrite Z.gtb_ltb in G1. apply Z.ltb_ge in G1.
    rewrite Z.geb_leb in G2. apply Z.leb_gt in G2.
    destruct (Z.testbit attributes 4); [|lia].
    rewrite geb_true by lia. reflexivity.
  - intro H.
    rewrite gtb_false by (destruct (Z.testbit attributes 4); lia).
    rewrite geb_false by (destruct (Z.testbit attributes 4); lia).
    destruct (Z.testbit attributes 4); [|reflexivity].
    rewrite geb_false by lia. reflexivity.
  - apply cstring_no_nul.
Qed.

Lemma name_copy_capacity_witness :
  xbfs_recurse_file_subtree 2 "" (-65536) sample_root 57 20
    (File sample_image 0 ext4_maxbytes, tree_empty)
  = Done (File sample_image 0 ext4_maxbytes, Tree "" true 0 0 0 [new_file "a.txt" 8192 7]).
Proof.
  destruct (name_copy_capacity 1 "" (-65536) sample_root 57 20
              (File sample_image 0 ext4_maxbytes, tree_empty)
              (File sample_image 0 ext4_maxbytes, tree_empty))
    as (_ & H & _); [vm_compute; reflexivity | vm_compute; discriminate
                    | reflexivity |].
  rewrite H; [reflexivity | vm_compute; discriminate].
Defined.

(** C4 as stated fails: the path of the innermost file has 1034 bytes; the
    entry is not failed with a bounds error, the walk writes past the end
    of its buffer. *)
Lemma name_copy_counterexample :
  xbfs_init 8 (File deep_image 0 ext4_maxbytes) = Undefined NameCopyOverrun /\
  forall r, xbfs_init 8 (File deep_image 0 ext4_maxbytes) <> Done r.
Proof.
  assert (E : xbfs_init 8 (File deep_image 0 ext4_maxbytes) = Undefined NameCopyOverrun)
    by (vm_compute; reflexivity).
  split; [exact E|]. intros r H. rewrite E in H. discriminate.
Qed.

(** * The signature scan *)

Lemma strncmp_eq_spec (b : string) (a : list byte) :
  strncmp_eq (String.length b) a b = true <->
  firstn (String.length b) a = list_byte_of_string b.
Proof.
  revert a. induction b as [|y b IH]; intro a; simpl.
  - split; reflexivity.
  - unfold list_byte_of_string in *. simpl.
    destruct a as [|x a]; [split; discriminate|].
    destruct (Ascii.eqb (ascii_of_byte x) y) eqn:E.
    + apply Ascii.eqb_eq in E. subst y. rewrite byte_of_ascii_of_byte.
      rewrite IH. split; [intros ->; reflexivity | intro H; now injection H].
    + split; [discriminate|]. intro H. injection H as Hx _.
      subst x. rewrite ascii_of_byte_of_ascii, Ascii.eqb_refl in E.
      discriminate.
Qed.

Lemma read_cursor (img : list byte) (p : Z) (mb : N) (c : Z) :
  c <= MAX_RW_COUNT ->
  read (File img p mb) c
  = (Z.of_nat (List.length (slice img p c)), slice img p c,
     File img (p + Z.of_nat (List.length (slice img p c))) mb).
Proof.
  intro H. rewrite read_eq by (unfold SSIZE_MAX, MAX_RW_COUNT in *; lia).
  cbn [image cursor maxbytes]. rewrite Z.min_l by exact H. reflexivity.
Qed.

Lemma read_sector (img : list byte) (p : Z) (mb : N) :
  read (File img p mb) SECTOR_SIZE
  = (Z.of_nat (List.length (slice img p SECTOR_SIZE)),
     slice img p SECTOR_SIZE,
     File img (p + Z.of_nat (List.length (slice img p SECTOR_SIZE))) mb).
Proof. apply read_cursor. unfold SECTOR_SIZE, MAX_RW_COUNT. lia. Qed.

Lemma sector_count (x : list byte) (i : Z) :
  to_size_t (Z.of_nat (List.length (slice x i SECTOR_SIZE)))
  = Z.of_nat (List.length (slice x i SECTOR_SIZE)).
Proof.
  apply to_size_t_small. unfold slice. rewrite length_firstn.
  unfold SECTOR_SIZE. lia.
Qed.

Lemma full_sector_iff (img : list byte) (j : Z) :
  0 <= j ->
  (full_sector img j <->
   SECTOR_SIZE * (j + 1) <= Z.of_nat (List.length img)).
Proof.
  intro Hj. unfold full_sector, sector.
  rewrite slice_length by (unfold SECTOR_SIZE; lia).
  unfold SECTOR_SIZE. lia.
Qed.

Lemma scan_signature_S fuel fd base :
  scan_signature (S fuel) fd base
  = let '(ret, sector_buffer, fd1) := read fd SECTOR_SIZE in
    if negb (to_size_t ret =? SECTOR_SIZE)
    then Done None
    else if strncmp_eq (Z.to_nat XDVD_SIGNATURE_SIZE) sector_buffer
              XDVD_SIGNATURE
    then Done (Some (Volume fd1
                       (to_off_t (base - 32 * SECTOR_SIZE))
                       (to_uint (LE_32 sector_buffer 0x14))
                       (to_uint (LE_32 sector_buffer 0x18))))
    else scan_signature fuel fd1 (to_off_t (base + SECTOR_SIZE)).
Proof. reflexivity. Qed.

Lemma signature_test (s : list byte) :
  strncmp_eq (Z.to_nat XDVD_SIGNATURE_SIZE) s XDVD_SIGNATURE = true <->
  firstn 20 s = list_byte_of_string XDVD_SIGNATURE.
Proof. apply (strncmp_eq_spec XDVD_SIGNATURE). Qed.

Lemma scan_found (img : list byte) (mb : N) (k : Z) :
  Z.of_nat (List.length img) < 2 ^ 63 ->
  full_sector img k -> signature_at img k ->
  forall (n : nat) (j : Z) (fuel : nat),
    0 <= j -> k = j + Z.of_nat n -> (n < fuel)%nat ->
    (forall i, j <= i < k -> ~ signature_at img i) ->
    scan_signature fuel (File img (SECTOR_SIZE * j) mb) (SECTOR_SIZE * j)
    = Done (Some (Volume (File img (SECTOR_SIZE * (k + 1)) mb)
                         ((k - 32) * SECTOR_SIZE)
                         (le32_at (sector img k) 0x14)
                         (le32_at (sector img k) 0x18))).
Proof.
  intros Hlen Hfull Hsig n.
  induction n as [|n IH]; intros j fuel Hj Hk Hfuel Hno.
  - assert (j = k) by lia. subst j.
    destruct fuel as [|fuel]; [lia|].
    rewrite scan_signature_S, read_sector, sector_count.
    fold (sector img k).
    rewrite Hfull, Z.eqb_refl. simpl negb. cbv iota.
    apply signature_test in Hsig. rewrite Hsig.
    rewrite !LE_32_value.
    pose proof Hfull as Hbound.
    apply (full_sector_iff img k Hj) in Hbound.
    unfold full_sector in Hfull. rewrite Hfull.
    unfold SECTOR_SIZE in *.
    rewrite to_off_t_small by lia.
    unfold le32_at.
    replace (2048 * k + 2048) with (2048 * (k + 1)) by lia.
    replace (2048 * k - 32 * 2048) with ((k - 32) * 2048) by lia.
    reflexivity.
  - destruct fuel as [|fuel]; [lia|].
    assert (Hfj : full_sector img j).
    { apply full_sector_iff; [exact Hj|].
      apply full_sector_iff in Hfull; [|lia].
      unfold SECTOR_SIZE in *. lia. }
    assert (Hnj : strncmp_eq (Z.to_nat XDVD_SIGNATURE_SIZE) (sector img j)
                    XDVD_SIGNATURE = false).
    { destruct (strncmp_eq _ _ _) eqn:E; [|reflexivity].
      apply signature_test in E. elim (Hno j); [lia | exact E]. }
    rewrite scan_signature_S, read_sector, sector_count.
    fold (sector img j).
    unfold full_sector in Hfj.
    rewrite Hfj, Z.eqb_refl, Hnj. simpl negb. cbv iota.
    apply full_sector_iff in Hfull; [|lia].
    unfold SECTOR_SIZE in *.
    rewrite to_off_t_small by lia.
    replace (2048 * j + 2048) with (2048 * (j + 1)) by lia.
    apply IH; try lia. intros i Hi. apply Hno. lia.
Qed.

Lemma scan_not_found (img : list byte) (mb : N) :
  Z.of_nat (List.length img) < 2 ^ 63 ->
  (forall j, 0 <= j -> full_sector img j -> ~ signature_at img j) ->
  forall (n : nat) (j : Z) (fuel : nat),
    0 <= j ->
    Z.of_nat (List.length img) / SECTOR_SIZE - j <= Z.of_nat n ->
    (n < fuel)%nat ->
    scan_signature fuel (File img (SECTOR_SIZE * j) mb) (SECTOR_SIZE * j)
    = Done None.
Proof.
  intros Hlen Hno n.
  induction n as [|n IH]; intros j fuel Hj Hn Hfuel;
    (destruct fuel as [|fuel]; [lia|]);
    rewrite scan_signature_S, read_sector, sector_count;
    fold (sector img j);
    destruct (Z.of_nat (List.length (sector img j)) =? SECTOR_SIZE)
      eqn:E; try reflexivity; apply Z.eqb_eq in E.
  - exfalso. apply (full_sector_iff img j Hj) in E.
    pose proof (Z.mul_succ_div_gt (Z.of_nat (List.length img)) SECTOR_SIZE
                  eq_refl) as G.
    unfold SECTOR_SIZE in *. nia.
  - simpl negb. cbv iota.
    assert (Hnj : strncmp_eq (Z.to_nat XDVD_SIGNATURE_SIZE) (sector img j)
                    XDVD_SIGNATURE = false).
    { destruct (strncmp_eq _ _ _) eqn:F; [|reflexivity].
      apply signature_test in F. elim (Hno j Hj E F). }
    rewrite Hnj, E.
    apply (full_sector_iff img j Hj) in E.
    unfold SECTOR_SIZE in *.
    rewrite to_off_t_small by lia.
    replace (2048 * j + 2048) with (2048 * (j + 1)) by lia.
    apply IH; lia.
Qed.

(** C3.  When sector [k] is the first full 2048-byte sector of the image
    whose first 20 bytes are the signature, the scan ends there with the
    base offset [(k - 32) * 2048], the byte offset of that sector minus 32
    sectors, and with the root sector and the root size read as 32-bit
    little-endian values at offsets 0x14 and 0x18 of the sector.  When no
    full sector of the image starts with the signature, the scan ends
    at the first short read and the initialization returns [NULL]. *)
Theorem signature_scan (img : list byte) (pos : Z) (mb : N) (fuel : nat) :
  Z.of_nat (List.length img) < 2 ^ 63 ->
  (forall k,
     0 <= k ->
     (forall j, 0 <= j < k -> ~ signature_at img j) ->
     full_sector img k -> signature_at img k ->
     (Z.to_nat k < fuel)%nat ->
     scan_signature fuel (lseek (File img pos mb) 0) 0
     = Done (Some (Volume (File img (SECTOR_SIZE * (k + 1)) mb)
                          ((k - 32) * SECTOR_SIZE)
                          (le32_at (sector img k) 0x14)
                          (le32_at (sector img k) 0x18)))) /\
  ((forall j, 0 <= j -> full_sector img j -> ~ signature_at img j) ->
   (List.length img / 2048 < fuel)%nat ->
   scan_signature fuel (lseek (File img pos mb) 0) 0 = Done None /\
   xbfs_init fuel (File img pos mb) = Done None).
Proof.
  intro Hlen.
  assert (L : lseek (File img pos mb) 0 = File img (SECTOR_SIZE * 0) mb).
  { apply lseek_accepted. simpl. lia. }
  split.
  - intros k Hk Hno Hfull Hsig Hfuel. rewrite L.
    change 0 with (SECTOR_SIZE * 0) at 2.
    apply (scan_found img mb k Hlen Hfull Hsig (Z.to_nat k) 0 fuel);
      try lia. exact Hno.
  - intros Hno Hfuel.
    assert (E : scan_signature fuel (lseek (File img pos mb) 0) 0
                = Done None).
    { rewrite L. change 0 with (SECTOR_SIZE * 0) at 2.
      apply (scan_not_found img mb Hlen Hno (List.length img / 2048) 0 fuel);
        try lia.
      rewrite Nat2Z.inj_div. unfold SECTOR_SIZE. simpl Z.of_nat. lia. }
    split; [exact E|]. unfold xbfs_init. rewrite E. reflexivity.
Qed.

Lemma signature_scan_witness :
  scan_signature 4 (lseek (File sample_image 0 ext4_maxbytes) 0) 0
  = Done (Some (Volume (File sample_image 2048 ext4_maxbytes) (-65536) 33 57)).
Proof.
  destruct (signature_scan sample_image 0 ext4_maxbytes 4) as [H _];
    [vm_compute; reflexivity|].
  rewrite (H 0); [reflexivity | lia | intros j Hj; lia
                 | vm_compute; reflexivity | vm_compute; reflexivity
                 | simpl; lia].
Defined.

(** A signature in sector 40 gives the base offset [(40 - 32) * 2048]. *)
Example signature_in_sector_40 :
  option_map filesystem_base_offset
    match scan_signature 50
            (File (repeat Byte.x00 (40 * 2048) ++ descriptor_bytes 33 57) 0
               ext4_maxbytes)
            0 with
    | Done v => v
    | _ => None
    end
  = Some ((40 - 32) * 2048).
Proof. vm_compute. reflexivity. Qed.

(** C5 as stated fails: the file has 10 bytes, the request asks for 20 at
    offset 0, and 4 bytes are transferred, not 10: the image ends 4 bytes
    into the file. *)
Lemma tree_read_counterexample :
  exists x,
    xbfs_init 3 (File short_image 0 ext4_maxbytes) = Done (Some x) /\
    tree_find_entry (xbfs_tree x) "/f.bin"
    = Some (Tree "f.bin" false 4096 10 0 []) /\
    fst (fst (tree_read "/f.bin" 20 0 (xbfs_tree x) (xbfs_fd x))) = 4 /\
    4 <> 10 - 0.
Proof.
  eexists. split; [vm_compute; reflexivity|].
  split; [reflexivity|]. split; [vm_compute; reflexivity | discriminate].
Qed.

(** * The order of a directory listing *)

Lemma tree_insert_plain root nm off sz :
  nm <> "" -> memchr_slash nm = None ->
  tree_insert root nm off sz
  = Tree (name root) (is_dir root) (offset root) (size root)
         (nsubdirs root) (new_file nm off sz :: sub root).
Proof.
  intros Hne M. rewrite tree_insert_eq, M. destruct nm; [now elim Hne|].
  reflexivity.
Qed.

Lemma tree_ind' (P : tree -> Prop) :
  (forall n d o s k l, Forall P l -> P (Tree n d o s k l)) ->
  forall t, P t.
Proof.
  intro H. fix IH 1. intros [n d o s k l]. apply H.
  induction l as [|x l IHl]; constructor; [apply IH | exact IHl].
Qed.

Lemma grows_refl t : grows t t.
Proof.
  induction t as [n d o s k l IH] using tree_ind'.
  apply (Grows _ _ l); [reflexivity | | now left].
  simpl. induction IH; constructor; assumption.
Qed.

Lemma Forall2_grows_refl l : Forall2 grows l l.
Proof. induction l; constructor; [apply grows_refl | assumption]. Qed.

Lemma grows_insert root path off sz :
  grows root (tree_insert root path off sz).
Proof.
  apply (tree_insert_cases off sz (fun r _ r' => grows r r'));
    clear root path.
  - apply grows_refl.
  - intros root path _ _. apply (Grows _ _ (sub root));
      [reflexivity | apply Forall2_grows_refl | right; eexists; reflexivity].
  - intros root path dir rest _ _ _. apply (Grows _ _ (sub root));
      [reflexivity | apply Forall2_grows_refl | right; eexists; reflexivity].
  - intros root path dir rest l1 node l2 _ Hl _ _ IH.
    apply (Grows _ _ (l1 ++ tree_insert node rest off sz :: l2));
      [reflexivity | | now left].
    rewrite Hl. apply Forall2_app; [apply Forall2_grows_refl|].
    constructor; [exact IH | apply Forall2_grows_refl].
Qed.

Lemma tree_insert_children root path off sz :
  map name (sub (tree_insert root path off sz)) = map name (sub root) \/
  exists c,
    map name (sub (tree_insert root path off sz)) = c :: map name (sub root).
Proof.
  apply (tree_insert_cases off sz
           (fun r _ r' =>
              map name (sub r') = map name (sub r) \/
              exists c, map name (sub r') = c :: map name (sub r)));
    clear root path.
  - intro root. now left.
  - intros root path _ _. right. exists path. reflexivity.
  - intros root path dir rest _ _ _. right. simpl sub.
    eexists. reflexivity.
  - intros root path dir rest l1 node l2 _ Hl _ _ _. left. simpl sub.
    rewrite Hl, !map_app. simpl map.
    now destruct (tree_insert_fields node rest off sz) as [-> _].
Qed.

(** C10 as stated fails: the root directory holds the records of file
    ["a"] and of directory ["e"] in this order; ["e"] has no file below it
    and does not appear in the listing. *)
Lemma readdir_order_counterexample :
  exists x,
    xbfs_init 4 (File empty_dir_image 0 ext4_maxbytes) = Done (Some x) /\
    option_map (map (record_name empty_dir_root))
      (inorder 4 empty_dir_root 31 0) = Some ["a"; "e"] /\
    tree_readdir "/" [] (xbfs_tree x) = (0, ["."; ".."; "a"]) /\
    ["."; ".."; "a"] <> "." :: ".." :: rev ["a"; "e"].
Proof.
  eexists. split; [vm_compute; reflexivity|].
  split; [vm_compute; reflexivity|].
  split; [vm_compute; reflexivity | discriminate].
Qed.

(** * Further properties of the tree *)

Lemma find_sub_some l p node :
  find_sub l p = Some node ->
  exists c, In c l /\ tree_find_entry c p = Some node.
Proof.
  induction l as [|x l IH]; [discriminate|].
  rewrite find_sub_cons.
  destruct (tree_find_entry x p) as [r|] eqn:E.
  - intro H. injection H as <-. exists x. split; [now left | exact E].
  - intro H. destruct (IH H) as (c & Hc & Hf). exists c. split; [now right|].
    exact Hf.
Qed.

Lemma find_entry_in_tree root :
  forall path node,
    tree_find_entry root path = Some node -> subtree node root.
Proof.
  induction root as [n d o s k l IH] using tree_ind'.
  intros path node. rewrite tree_find_entry_eq. simpl name. simpl sub.
  destruct (String.eqb path n).
  { intro H. injection H as <-. constructor. }
  destruct (skip_name n path) as [[|c next']|]; try discriminate.
  destruct (Ascii.eqb c slash); [|discriminate].
  destruct next' as [|c' next''].
  { intro H. injection H as <-. constructor. }
  intro H. apply find_sub_some in H. destruct H as (x & Hx & Hf).
  apply (subtree_below _ _ x); [exact Hx|].
  rewrite Forall_forall in IH. exact (IH x Hx _ _ Hf).
Qed.

Lemma every_node_subtree P t n :
  every_node P t -> subtree n t -> P n.
Proof.
  intros H S. induction S as [|t c Hc _ IH].
  - apply every_node_eq in H. tauto.
  - apply IH. apply every_node_eq in H. destruct H as [_ H].
    rewrite Forall_forall in H. auto.
Qed.

(** X1.  [tree_find_entry] never returns anything but a node of the tree
    it searches: the root or a node below it. *)
Theorem find_entry_subtree (root : tree) (path : string) (node : tree) :
  tree_find_entry root path = Some node -> subtree node root.
Proof. apply find_entry_in_tree. Qed.

Lemma find_entry_subtree_witness :
  subtree (Tree "b" false 3 4 0 [])
          (insert_all tree_empty [("a/b", 3, 4); ("c", 1, 2)]).
Proof.
  apply (find_entry_subtree _ "/a/b"). reflexivity.
Defined.

Lemma insert_all_nsubdirs_ok ops :
  every_node nsubdirs_ok (insert_all tree_empty ops).
Proof.
  assert (H : every_node nsubdirs_ok tree_empty).
  { apply every_node_eq. simpl. split; [reflexivity | constructor]. }
  revert H. generalize tree_empty.
  induction ops as [|e ops IH]; intros t H; [exact H|].
  simpl. apply IH. now apply nsubdirs_ok_insert.
Qed.

(** X2.  What [tree_getattr] reports on a tree built by inserts.  An
    absent path gives [ENOENT] and leaves [stbuf] alone.  A directory has
    mode [S_IFDIR | 0555], size 0 and as many links as 2 plus the number of
    its children that are directories; a file has mode [S_IFREG | 0444],
    one link and the size of its node.  No write bit is ever set; owner
    and times are the ones handed in. *)
Theorem tree_getattr_result (ops : list entry) (path : string)
    (stbuf : stat) (uid gid : Z) (st : stat) :
  let root := insert_all tree_empty ops in
  let r := tree_getattr path stbuf root uid gid st in
  match tree_find_entry root path with
  | None => r = (- ENOENT, stbuf)
  | Some node =>
      fst r = 0 /\
      st_uid (snd r) = uid /\ st_gid (snd r) = gid /\
      st_atime (snd r) = st_atime st /\ st_mtime (snd r) = st_mtime st /\
      st_ctime (snd r) = st_ctime st /\
      Z.land (st_mode (snd r)) (Z.lor S_IWUSR (Z.lor S_IWGRP S_IWOTH)) = 0 /\
      if is_dir node
      then st_mode (snd r) = S_IFDIR + 365 /\
           st_nlink (snd r) = 2 + count_dirs (sub node) /\
           st_size (snd r) = 0
      else st_mode (snd r) = S_IFREG + 292 /\
           st_nlink (snd r) = 1 /\
           st_size (snd r) = size node
  end.
Proof.
  intros root r. subst r. unfold tree_getattr.
  destruct (tree_find_entry root path) as [node|] eqn:E; [|reflexivity].
  assert (Hn : nsubdirs_ok node).
  { apply (every_node_subtree nsubdirs_ok root).
    - apply insert_all_nsubdirs_ok.
    - exact (find_entry_in_tree _ _ _ E). }
  destruct (is_dir node); simpl; rewrite ?Hn; repeat split; reflexivity.
Qed.

Lemma memchr_slash_app_r (p c rest s : string) :
  memchr_slash p = Some (c, rest) ->
  memchr_slash (p ++ s) = Some (c, rest ++ s).
Proof.
  intro H. destruct (memchr_slash_some _ _ _ H) as [-> Hc].
  rewrite append_assoc. simpl. now apply memchr_slash_append.
Qed.

Lemma find_entry_slash_end node :
  names_ok node ->
  forall q,
    file_path q = true ->
    tree_find_entry node (q ++ String slash "") = tree_find_entry node q.
Proof.
  induction node as [n d o s k l IH] using tree_ind'.
  intros Hok q Hq.
  apply every_node_eq in Hok. simpl in Hok. destruct Hok as [Hn Hl].
  set (node := Tree n d o s k l) in *.
  destruct (memchr_slash q) as [[c rest]|] eqn:M.
  - rewrite (find_entry_slash node _ c (rest ++ String slash "") Hn
               (memchr_slash_app_r _ _ _ _ M)).
    rewrite (find_entry_slash node _ c rest Hn M).
    destruct (String.eqb (name node) c); [|reflexivity].
    rewrite (file_path_rest _ _ _ M) in Hq.
    destruct rest as [|a rest]; [discriminate|].
    change (find_sub l (String a rest ++ String slash "")
            = find_sub l (String a rest)).
    clear - IH Hl Hq.
    induction l as [|x l IHl]; [reflexivity|].
    inversion IH; subst. inversion Hl; subst.
    rewrite !find_sub_cons, (H1 H3 _ Hq), (IHl H2 H4). reflexivity.
  - rewrite (find_entry_slash node _ q "" Hn (memchr_slash_append q "" M)).
    rewrite (find_entry_noslash node q M), String.eqb_sym. reflexivity.
Qed.

(** X3.  A separator at the end of a path makes no difference to a lookup
    in a tree built by inserts: ["/a/b/"] finds what ["/a/b"] finds, be it
    a directory or a file. *)
Theorem find_entry_trailing_slash (ops : list entry) (p : string) :
  file_path p = true ->
  tree_find_entry (insert_all tree_empty ops) ("/" ++ p ++ "/")
  = tree_find_entry (insert_all tree_empty ops) ("/" ++ p).
Proof.
  intro Hp.
  assert (Hok : names_ok (insert_all tree_empty ops))
    by (apply insert_all_names_ok, names_ok_empty).
  apply (find_entry_slash_end _ Hok ("/" ++ p)).
  simpl. destruct p; [discriminate | exact Hp].
Qed.

Lemma find_entry_trailing_slash_witness :
  tree_find_entry (insert_all tree_empty [("a/b", 3, 4)]) "/a/b/"
  = Some (Tree "b" false 3 4 0 []).
Proof.
  change "/a/b/" with ("/" ++ "a/b" ++ "/").
  rewrite (find_entry_trailing_slash [("a/b", 3, 4)] "a/b");
    reflexivity.
Defined.

Lemma directory_fields_insert off sz root path :
  every_node directory_fields_ok root ->
  every_node directory_fields_ok (tree_insert root path off sz).
Proof.
  apply (tree_insert_cases off sz
           (fun r _ r' => every_node directory_fields_ok r ->
                          every_node directory_fields_ok r'));
    clear root path.
  - auto.
  - intros root path _ _ H. apply every_node_eq in H. destruct H as [H1 H2].
    apply every_node_eq. simpl sub. split; [exact H1|].
    constructor; [|exact H2]. apply every_node_eq. simpl.
    split; [discriminate | constructor].
  - intros root path dir rest _ _ IH H.
    apply every_node_eq in H. destruct H as [H1 H2].
    apply every_node_eq. simpl sub. split; [exact H1|].
    constructor; [|exact H2]. apply IH. apply every_node_eq. simpl.
    split; [intros _; split; reflexivity | constructor].
  - intros root path dir rest l1 node l2 _ Hl _ _ IH H.
    apply every_node_eq in H. destruct H as [H1 H2]. rewrite Hl in H2.
    apply Forall_app in H2. destruct H2 as [Ha Hb]. inversion Hb; subst.
    apply every_node_eq. simpl sub. split; [exact H1|].
    apply Forall_app. split; [exact Ha|]. constructor; auto.
Qed.

Lemma every_node_and P Q t :
  every_node P t -> every_node Q t ->
  every_node (fun n => P n /\ Q n) t.
Proof.
  induction t as [n d o s k l IH] using tree_ind'.
  intros HP HQ. apply every_node_eq in HP. apply every_node_eq in HQ.
  destruct HP as [HP1 HP2]. destruct HQ as [HQ1 HQ2].
  apply every_node_eq. split; [tauto|]. simpl sub in *.
  clear HP1 HQ1.
  induction l as [|x l IHl]; [constructor|].
  inversion IH; subst. inversion HP2; subst. inversion HQ2; subst.
  constructor; auto.
Qed.

(** X4.  The invariants of a tree built from [tree_empty] by any inserts:
    the root keeps the empty name and is a directory; at every node the
    name holds no ['/'], [nsubdirs] is the number of children that are
    directories, and a directory has offset 0 and size 0. *)
Theorem insert_all_invariants (ops : list entry) :
  name (insert_all tree_empty ops) = "" /\
  is_dir (insert_all tree_empty ops) = true /\
  every_node
    (fun n =>
       memchr_slash (name n) = None /\
       nsubdirs n = count_dirs (sub n) /\
       (is_dir n = true -> offset n = 0 /\ size n = 0))
    (insert_all tree_empty ops).
Proof.
  split; [apply insert_all_name|]. split.
  - assert (H : forall t, is_dir (insert_all t ops) = is_dir t).
    { induction ops as [|e ops IH]; intro t; [reflexivity|].
      simpl. rewrite IH. apply tree_insert_fields. }
    now rewrite H.
  - apply every_node_and;
      [apply insert_all_names_ok, names_ok_empty|].
    apply every_node_and; [apply insert_all_nsubdirs_ok|].
    assert (H : every_node directory_fields_ok tree_empty).
    { apply every_node_eq. simpl.
      split; [intros _; split; reflexivity | constructor]. }
    revert H. generalize tree_empty.
    induction ops as [|e ops IH]; intros t H; [exact H|].
    simpl. apply IH. now apply directory_fields_insert.
Qed.

(** ** Every file of the tree was inserted *)

Lemma from_entries_eq ops pfx t :
  from_entries ops pfx t <->
  (is_dir t = false -> In (pfx ++ name t, offset t, size t) ops) /\
  Forall (from_entries ops (pfx ++ name t ++ String slash "")) (sub t).
Proof.
  destruct t as [n d o s k l]. simpl.
  assert (E : forall q,
             (fix all (l : list tree) : Prop :=
                match l with
                | [] => True
                | x :: r => from_entries ops q x /\ all r
                end) l <-> Forall (from_entries ops q) l).
  { intro q. induction l as [|x l IH]; [now split|].
    split.
    - intros [H1 H2]. constructor; [exact H1 | now apply IH].
    - intro H. inversion H; subst. split; [assumption | now apply IH]. }
  now rewrite E.
Qed.

Lemma append_slash_rest (pfx dir rest : string) :
  (pfx ++ dir ++ String slash "") ++ rest = pfx ++ dir ++ String slash rest.
Proof. now rewrite !append_assoc. Qed.

Lemma from_entries_insert ops off sz root path :
  forall pfx,
    Forall (from_entries ops pfx) (sub root) ->
    In (pfx ++ path, off, sz) ops ->
    Forall (from_entries ops pfx) (sub (tree_insert root path off sz)).
Proof.
  apply (tree_insert_cases off sz
           (fun r p r' =>
              forall pfx,
                Forall (from_entries ops pfx) (sub r) ->
                In (pfx ++ p, off, sz) ops ->
                Forall (from_entries ops pfx) (sub r')));
    clear root path.
  - auto.
  - intros root path _ _ pfx H Hin. simpl sub. constructor; [|exact H].
    apply from_entries_eq. simpl. split; [auto | constructor].
  - intros root path dir rest M _ IH pfx H Hin. simpl sub.
    constructor; [|exact H].
    destruct (memchr_slash_some _ _ _ M) as [-> _].
    destruct (tree_insert_fields (new_directory dir) rest off sz)
      as (Hn & Hd & _).
    apply from_entries_eq. rewrite Hn, Hd. simpl name. simpl is_dir.
    split; [discriminate|].
    apply IH; [constructor|]. now rewrite append_slash_rest.
  - intros root path dir rest l1 node l2 M Hl _ Hnode IH pfx H Hin.
    simpl sub. rewrite Hl in H. apply Forall_app in H.
    destruct H as [Ha Hb]. inversion Hb as [|? ? Hx Hr]; subst.
    apply Forall_app. split; [exact Ha|]. constructor; [|exact Hr].
    destruct (memchr_slash_some _ _ _ M) as [-> _].
    apply String.eqb_eq in Hnode.
    destruct (tree_insert_fields node rest off sz) as (Hn & Hd & Ho & Hs).
    apply from_entries_eq in Hx. destruct Hx as [Hx1 Hx2].
    apply from_entries_eq. rewrite Hn, Hd, Ho, Hs. split; [exact Hx1|].
    apply IH; [exact Hx2|]. now rewrite Hnode, append_slash_rest.
Qed.

Lemma from_entries_insert_all all ops :
  forall t,
    (forall e, In e ops -> In e all) ->
    Forall (from_entries all "") (sub t) ->
    Forall (from_entries all "") (sub (insert_all t ops)).
Proof.
  induction ops as [|e ops IH]; intros t Hall H; [exact H|].
  simpl. apply IH; [intros; apply Hall; now right|].
  apply from_entries_insert; [exact H|].
  simpl. destruct e as [[p o] s]. apply Hall. now left.
Qed.

Lemma find_entry_from_entries ops x :
  forall pfx q node,
    names_ok x -> from_entries ops pfx x ->
    tree_find_entry x q = Some node -> is_dir node = false ->
    exists q',
      (q = q' \/ q = q' ++ String slash "") /\
      In (pfx ++ q', offset node, size node) ops.
Proof.
  induction x as [n d o s k l IH] using tree_ind'.
  intros pfx q node Hok Hfrom Hfind Hfile.
  set (x := Tree n d o s k l) in *.
  apply every_node_eq in Hok. destruct Hok as [Hn Hl].
  apply from_entries_eq in Hfrom. destruct Hfrom as [Hx Hsub].
  destruct (memchr_slash q) as [[c rest]|] eqn:M.
  - rewrite (find_entry_slash x q c rest Hn M) in Hfind.
    destruct (String.eqb (name x) c) eqn:Ec; [|discriminate].
    apply String.eqb_eq in Ec.
    destruct (memchr_slash_some _ _ _ M) as [-> _].
    destruct rest as [|a rest].
    + injection Hfind as <-. exists c. split; [now right|].
      rewrite <- Ec. now apply Hx.
    + apply find_sub_some in Hfind. destruct Hfind as (y & Hy & Hf).
      rewrite Forall_forall in IH, Hl, Hsub.
      destruct (IH y Hy _ _ _ (Hl y Hy) (Hsub y Hy) Hf Hfile)
        as (r' & Hr & Hin).
      exists (c ++ String slash r'). split.
      * destruct Hr as [->| ->]; [now left | right].
        now rewrite append_assoc.
      * rewrite Ec, append_slash_rest in Hin. exact Hin.
  - rewrite (find_entry_noslash x q M) in Hfind.
    destruct (String.eqb q (name x)) eqn:E; [|discriminate].
    apply String.eqb_eq in E. injection Hfind as <-.
    exists q. split; [now left|]. rewrite E. now apply Hx.
Qed.

Lemma lookup_was_inserted (ops : list entry) (p : string) (node : tree) :
  tree_find_entry (insert_all tree_empty ops) ("/" ++ p) = Some node ->
  is_dir node = false ->
  In (p, offset node, size node) ops \/
  exists p', p = p' ++ "/" /\ In (p', offset node, size node) ops.
Proof.
  intros Hfind Hfile.
  set (root := insert_all tree_empty ops) in *.
  assert (Hname : name root = "") by apply insert_all_name.
  assert (Hok : names_ok root)
    by (apply insert_all_names_ok, names_ok_empty).
  assert (Hfrom : Forall (from_entries ops "") (sub root)).
  { apply from_entries_insert_all; [auto | constructor]. }
  destruct p as [|a p].
  - assert (E : tree_find_entry root "/" = Some root).
    { rewrite tree_find_entry_eq, Hname. reflexivity. }
    simpl append in Hfind. rewrite E in Hfind. injection Hfind as <-.
    assert (D : is_dir root = true).
    { assert (H : forall t, is_dir (insert_all t ops) = is_dir t).
      { clear. induction ops as [|e ops IH]; intro t; [reflexivity|].
        simpl. rewrite IH. apply tree_insert_fields. }
      unfold root. now rewrite H. }
    congruence.
  - simpl append in Hfind.
    rewrite find_entry_root in Hfind by (auto; discriminate).
    apply find_sub_some in Hfind. destruct Hfind as (y & Hy & Hf).
    apply names_ok_sub in Hok. rewrite Forall_forall in Hok, Hfrom.
    destruct (find_entry_from_entries ops y "" _ _ (Hok y Hy) (Hfrom y Hy)
                Hf Hfile) as (q' & Hq & Hin).
    simpl in Hin. destruct Hq as [->| ->]; [now left | right].
    exists q'. auto.
Qed.

(** X5.  A lookup never reports a file that was not inserted: when
    [tree_find_entry] on ["/" ++ p] returns a node that is not a
    directory, an insert was made with this path (or with this path less
    its final separator) and with the offset and size of the node. *)
Theorem find_entry_sound (ops : list entry) (p : string) (node : tree) :
  tree_find_entry (insert_all tree_empty ops) ("/" ++ p) = Some node ->
  is_dir node = false ->
  In (p, offset node, size node) ops \/
  exists p', p = p' ++ "/" /\ In (p', offset node, size node) ops.
Proof. apply lookup_was_inserted. Qed.

Lemma find_entry_sound_witness :
  In ("a/b", 3, 4) [("a/b", 3, 4); ("c", 1, 2)] \/
  exists p', "a/b" = p' ++ "/" /\ In (p', 3, 4) [("a/b", 3, 4); ("c", 1, 2)].
Proof.
  apply (find_entry_sound [("a/b", 3, 4); ("c", 1, 2)] "a/b"
           (Tree "b" false 3 4 0 [])); reflexivity.
Defined.

Lemma file_path_slash_end (p : string) :
  file_path (p ++ String slash "") = false.
Proof.
  induction p as [|a p IH]; [reflexivity|].
  simpl. destruct (p ++ String slash "") eqn:E; [|exact IH].
  destruct p; discriminate.
Qed.

Lemma lookup_of_inserted (ops : list entry) (p : string) (off sz : Z) :
  NoDup (map entry_path ops) ->
  (forall a b, In a ops -> In b ops ->
               is_under (entry_path a) (entry_path b) = false) ->
  In (p, off, sz) ops ->
  file_path p = true ->
  finds_file (insert_all tree_empty ops) ("/" ++ p) off sz.
Proof.
  intros Hnd Hunder Hin Hf.
  destruct (in_split _ _ Hin) as (ops1 & ops2 & ->).
  apply find_entry_after_inserts;
    [exact names_ok_empty | reflexivity | exact Hf |].
  rewrite map_app in Hnd. simpl in Hnd.
  apply NoDup_remove_2 in Hnd.
  apply Forall_forall. intros e He. split.
  - intro E. apply Hnd. apply in_or_app. right.
    change (entry_path (p, off, sz)) with p. rewrite <- E. now apply in_map.
  - apply (Hunder (p, off, sz) e); apply in_or_app; right;
      [now left | now right].
Qed.

(** X6.  The order of the inserts does not matter to the lookup of a
    file: when the inserted paths are distinct and none lies below
    another, a file found after the inserts in one order is found, with
    the same offset and size, after the same inserts in any other
    order. *)
Theorem insert_order_irrelevant (ops ops' : list entry) (p : string)
    (off sz : Z) :
  Permutation ops ops' ->
  NoDup (map entry_path ops) ->
  (forall a b, In a ops -> In b ops ->
               is_under (entry_path a) (entry_path b) = false) ->
  file_path p = true ->
  finds_file (insert_all tree_empty ops) ("/" ++ p) off sz ->
  finds_file (insert_all tree_empty ops') ("/" ++ p) off sz.
Proof.
  intros Hperm Hnd Hunder Hf (node & Hfind & Hd & Ho & Hs).
  assert (Hin : In (p, off, sz) ops).
  { destruct (lookup_was_inserted ops p node Hfind Hd) as [H|(p' & E & _)].
    - now rewrite Ho, Hs in H.
    - subst p. change "/" with (String slash "") in Hf.
      now rewrite file_path_slash_end in Hf. }
  apply lookup_of_inserted.
  - apply (Permutation_NoDup (Permutation_map entry_path Hperm) Hnd).
  - intros a b Ha Hb. apply Hunder;
      [apply (Permutation_in _ (Permutation_sym Hperm) Ha)
      |apply (Permutation_in _ (Permutation_sym Hperm) Hb)].
  - apply (Permutation_in _ Hperm Hin).
  - exact Hf.
Qed.

Lemma insert_order_irrelevant_witness :
  finds_file (insert_all tree_empty [("b", 1, 2); ("a/x", 7, 9)])
             "/a/x" 7 9.
Proof.
  apply (insert_order_irrelevant [("a/x", 7, 9); ("b", 1, 2)]
           [("b", 1, 2); ("a/x", 7, 9)] "a/x" 7 9).
  - apply perm_swap.
  - repeat constructor; simpl; intuition discriminate.
  - intros a b Ha Hb. simpl in Ha, Hb.
    destruct Ha as [<-|[<-|[]]]; destruct Hb as [<-|[<-|[]]]; reflexivity.
  - reflexivity.
  - exists (Tree "x" false 7 9 0 []). repeat split.
Defined.

(** ** tree_read when the seek is refused *)

(** X7.  [tree_read] does not look at what [lseek] returns.  When the
    position [offset + off] of the bytes asked for is negative (a file of
    an image whose signature lies before sector 32 can have a negative
    offset) or lies above the largest offset of the file system, the seek
    is refused, the cursor stays, and the bytes handed out are those at
    the cursor of the descriptor, not those of the file: as many as the
    clipped length asks for, at most [MAX_RW_COUNT], and no more than the
    image holds from the cursor on. *)
Theorem tree_read_seek_refused (path : string) (count off : Z)
    (root : tree) (fd : file) (node : tree) :
  tree_find_entry root path = Some node ->
  is_dir node = false ->
  0 <= off < size node -> size node < 2 ^ 63 ->
  0 <= count < 2 ^ 63 ->
  - 2 ^ 63 <= offset node + off < 2 ^ 63 ->
  offset node + off < 0 \/ Z.of_N (maxbytes fd) < offset node + off ->
  let data :=
    slice (image fd) (cursor fd)
      (Z.min (Z.min count (size node - off)) MAX_RW_COUNT) in
  tree_read path count off root fd
  = (Z.of_nat (List.length data), data,
     File (image fd) (cursor fd + Z.of_nat (List.length data))
          (maxbytes fd)).
Proof.
  intros Hfind Hfile Hoff Hsize Hcount Hrange Hout data.
  unfold tree_read. rewrite Hfind, Hfile.
  rewrite geb_false by lia.
  rewrite clipped_count by lia.
  rewrite to_off_t_small by exact Hrange.
  rewrite lseek_refused by exact Hout.
  rewrite read_eq by (unfold SSIZE_MAX; lia).
  fold data.
  assert (Hlen : Z.of_nat (List.length data) <= MAX_RW_COUNT).
  { unfold data, slice. rewrite length_firstn. unfold MAX_RW_COUNT. lia. }
  rewrite to_int_small by (unfold MAX_RW_COUNT in Hlen; lia).
  reflexivity.
Qed.

Lemma tree_read_seek_refused_witness :
  tree_read "/f" 4 0 (tree_insert tree_empty "f" (-2048) 10)
    (File (list_byte_of_string "0123456789abcdef") 6 ext4_maxbytes)
  = (4, list_byte_of_string "6789",
     File (list_byte_of_string "0123456789abcdef") 10 ext4_maxbytes).
Proof.
  rewrite (tree_read_seek_refused "/f" 4 0
             (tree_insert tree_empty "f" (-2048) 10)
             (File (list_byte_of_string "0123456789abcdef") 6 ext4_maxbytes)
             (new_file "f" (-2048) 10));
    [reflexivity | reflexivity | reflexivity | simpl; lia | simpl; lia | lia
    | simpl; lia | left; simpl; lia].
Defined.

(** * Further properties of the parser *)

Lemma prefix_app_l (a b s : string) :
  String.prefix (a ++ b) s = true -> String.prefix a s = true.
Proof.
  revert s. induction a as [|x a IH]; intros s H.
  - now destruct s.
  - destruct s as [|y s]; [discriminate|]. simpl in *.
    destruct (ascii_dec x y); [now apply IH | discriminate].
Qed.

Lemma to_uint_range z : 0 <= to_uint z < 2 ^ 32.
Proof. unfold to_uint. apply Z.mod_pos_bound. lia. Qed.

Lemma walk_effect_refl nb st : walk_effect nb st st.
Proof. split; [reflexivity|]. exists []. split; [reflexivity | constructor]. Qed.

Lemma walk_effect_trans nb st1 st2 st3 :
  walk_effect nb st1 st2 -> walk_effect nb st2 st3 -> walk_effect nb st1 st3.
Proof.
  intros (I1 & ops1 & E1 & F1) (I2 & ops2 & E2 & F2).
  split; [congruence|]. exists (ops1 ++ ops2)%list. split.
  - rewrite insert_all_app, <- E1. exact E2.
  - apply Forall_app. auto.
Qed.

Lemma walk_effect_prefix nb x st st' :
  walk_effect (nb ++ x) st st' -> walk_effect nb st st'.
Proof.
  intros (I & ops & E & F). split; [exact I|]. exists ops. split; [exact E|].
  eapply Forall_impl; [|exact F]. intros e [H1 H2].
  split; [eapply prefix_app_l; exact H1 | exact H2].
Qed.

Lemma lseek_image (fd : file) (pos : Z) :
  image (lseek fd pos) = image fd /\ maxbytes (lseek fd pos) = maxbytes fd.
Proof. unfold lseek. destruct (_ || _); split; reflexivity. Qed.

Lemma read_image (fd : file) (count : Z) :
  image (snd (read fd count)) = image fd /\
  maxbytes (snd (read fd count)) = maxbytes fd.
Proof. unfold read. destruct (SSIZE_MAX <? count); split; reflexivity. Qed.

Lemma recurse_directory_effect walk nb base sector sz st st' :
  (forall de n s s', walk nb de n s = Done s' -> walk_effect nb s s') ->
  recurse_directory_with walk nb base sector sz st = Done st' ->
  walk_effect nb st st'.
Proof.
  intros Hwalk. unfold recurse_directory_with.
  destruct (read _ sz) as [[ret de] fd2] eqn:R.
  assert (I : image fd2 = image (fst st)).
  { replace fd2 with (snd (read (lseek (fst st)
                                   (to_off_t (base + sector * SECTOR_SIZE)))
                             sz)) by now rewrite R.
    rewrite (proj1 (read_image _ _)). apply lseek_image. }
  destruct (negb _).
  - intro H. injection H as <-. split; [exact I|].
    exists []. split; [reflexivity | constructor].
  - intro H. apply Hwalk in H. destruct H as (I' & ops & E & F).
    split; [simpl in I'; congruence|]. exists ops. auto.
Qed.

Lemma walk_only_inserts :
  forall fuel nb base de sz o st st',
    xbfs_recurse_file_subtree fuel nb base de sz o st = Done st' ->
    walk_effect nb st st'.
Proof.
  induction fuel as [|fuel IH]; intros nb base de sz o st st' H;
    [discriminate|].
  rewrite file_subtree_S in H.
  destruct (o + 0xD >=? sz).
  { injection H as <-. apply walk_effect_refl. }
  match type of H with bind ?m _ = _ => destruct m as [st1| |] eqn:EL end;
    try discriminate.
  assert (E1 : walk_effect nb st st1).
  { destruct (LE_16 de o * 4 =? 0).
    - injection EL as <-. apply walk_effect_refl.
    - eapply IH; exact EL. }
  unfold bind at 1 in H.
  match type of H with bind ?m _ = _ => destruct m as [st2| |] eqn:EM end;
    try discriminate.
  assert (E2 : walk_effect nb st1 st2).
  { repeat match type of EM with
           | (if ?b then _ else _) = _ => destruct b; try discriminate
           end.
    - apply (walk_effect_prefix nb
               (cstring (slice de (o + 0xE) (at_index de (o + 0xD))
                         ++ [Byte.x2f]))).
      unfold xbfs_recurse_directory in EM.
      eapply recurse_directory_effect; [|exact EM].
      intros de' n s s' Hw. eapply IH; exact Hw.
    - injection EM as <-. split; [reflexivity|].
      eexists [(_, _, _)]. split; [reflexivity|].
      constructor; [|constructor]. split.
      + apply prefix_refl_append.
      + apply to_uint_range. }
  unfold bind at 1 in H.
  assert (E3 : walk_effect nb st2 st').
  { destruct (LE_16 de (o + 2) * 4 =? 0).
    - injection H as <-. apply walk_effect_refl.
    - eapply IH; exact H. }
  eapply walk_effect_trans; [|exact E3].
  eapply walk_effect_trans; eassumption.
Qed.

Lemma scan_signature_image :
  forall fuel fd base vol,
    scan_signature fuel fd base = Done (Some vol) ->
    image (vol_fd vol) = image fd.
Proof.
  induction fuel as [|fuel IH]; intros fd base vol H; [discriminate|].
  rewrite scan_signature_S in H.
  pose proof (proj1 (read_image fd SECTOR_SIZE)) as I.
  destruct (read fd SECTOR_SIZE) as [[ret buf] fd1].
  destruct (negb _); [discriminate|].
  destruct (strncmp_eq _ _ _).
  - injection H as <-. exact I.
  - apply IH in H. simpl in I. congruence.
Qed.

(** X8.  Whatever the image holds, a directory walk that returns has only
    inserted: the image is as it was, and the tree is the tree it started
    from with some entries inserted, all of them with a path that begins
    with the path of the directory and with a size below [2^32]; nothing
    is removed or rewritten. *)
Theorem directory_walk_effect (fuel : nat) (name_buffer : string)
    (base sector sz : Z) (st st' : state) :
  xbfs_recurse_directory fuel name_buffer base sector sz st = Done st' ->
  image (fst st') = image (fst st) /\
  exists ops,
    snd st' = insert_all (snd st) ops /\
    Forall (fun e => String.prefix name_buffer (entry_path e) = true /\
                     0 <= snd e < 2 ^ 32) ops.
Proof.
  intro H. unfold xbfs_recurse_directory in H.
  apply (recurse_directory_effect _ _ _ _ _ _ _
           (fun de n s s' Hw => walk_only_inserts _ _ _ _ _ _ _ _ Hw) H).
Qed.

Lemma directory_walk_effect_witness :
  exists ops,
    Tree "" true 0 0 1
      [Tree "sub" true 0 0 0 [Tree "b.txt" false 10240 5 0 []];
       Tree "m" false 6144 100 0 [];
       Tree "a.txt" false 8192 7 0 []]
    = insert_all tree_empty ops /\
    Forall (fun e => String.prefix "" (entry_path e) = true /\
                     0 <= snd e < 2 ^ 32) ops.
Proof.
  apply (directory_walk_effect 3 "" (-65536) 33 57
           (File sample_image 2048 ext4_maxbytes, tree_empty)
           (File sample_image 4115 ext4_maxbytes, _)).
  vm_compute. reflexivity.
Defined.

(** X9.  A mount that succeeds leaves the image as it was and yields a
    tree built from [tree_empty] by inserts alone.  So every node a lookup
    returns has a name without ['/'] and an [nsubdirs] equal to the number
    of its children that are directories, and every file a lookup returns
    has a size between 0 and [2^32 - 1]. *)
Theorem mounted_tree (fuel : nat) (fd : file) (x : xbfsfile) :
  xbfs_init fuel fd = Done (Some x) ->
  image (xbfs_fd x) = image fd /\
  (exists ops, xbfs_tree x = insert_all tree_empty ops) /\
  (forall path node,
     tree_find_entry (xbfs_tree x) path = Some node ->
     memchr_slash (name node) = None /\
     nsubdirs node = count_dirs (sub node)) /\
  (forall p node,
     tree_find_entry (xbfs_tree x) ("/" ++ p) = Some node ->
     is_dir node = false -> 0 <= size node < 2 ^ 32).
Proof.
  unfold xbfs_init. intro H.
  destruct (scan_signature fuel (lseek fd 0) 0) as [[vol|]| |] eqn:S;
    try discriminate.
  unfold bind at 1 in H.
  destruct (xbfs_recurse_directory fuel "" _ _ _ _) as [st| |] eqn:W;
    try discriminate.
  injection H as <-. simpl xbfs_fd. simpl xbfs_tree.
  apply scan_signature_image in S.
  rewrite (proj1 (lseek_image fd 0)) in S.
  unfold xbfs_recurse_directory in W.
  apply (recurse_directory_effect _ _ _ _ _ _ _
           (fun de n s s' Hw => walk_only_inserts _ _ _ _ _ _ _ _ Hw)) in W.
  destruct W as (I & ops & E & F). simpl in I, E.
  split; [congruence|]. split; [exists ops; exact E|]. rewrite E. split.
  - intros path node Hfind.
    apply find_entry_in_tree in Hfind. split.
    + apply (every_node_subtree _ _ _
               (insert_all_names_ok _ ops names_ok_empty) Hfind).
    + apply (every_node_subtree _ _ _ (insert_all_nsubdirs_ok ops) Hfind).
  - intros p node Hfind Hfile.
    rewrite Forall_forall in F.
    destruct (lookup_was_inserted ops p node Hfind Hfile)
      as [H|(p' & _ & H)]; apply F in H; simpl in H; tauto.
Qed.

Lemma mounted_tree_witness :
  exists ops,
    Tree "" true 0 0 1
      [Tree "sub" true 0 0 0 [Tree "b.txt" false 10240 5 0 []];
       Tree "m" false 6144 100 0 [];
       Tree "a.txt" false 8192 7 0 []]
    = insert_all tree_empty ops.
Proof.
  apply (mounted_tree 4 (File sample_image 0 ext4_maxbytes)
           (Xbfs (File sample_image 4115 ext4_maxbytes) _)).
  vm_compute. reflexivity.
Defined.

Lemma read_short (fd : file) (count : Z) :
  0 < count ->
  (0 <= cursor fd /\ Z.of_nat (List.length (image fd)) < cursor fd + count)
  \/ MAX_RW_COUNT < count ->
  fst (fst (read fd count)) <> count.
Proof.
  intros Hc H.
  destruct (Z.lt_ge_cases SSIZE_MAX count) as [L|G].
  - rewrite read_refused by exact L. simpl. lia.
  - rewrite read_eq by exact G. cbn [fst].
    destruct H as [[Hpos Hlen]|Hmax].
    + rewrite slice_length by (unfold MAX_RW_COUNT; lia). lia.
    + unfold slice. rewrite length_firstn. unfold MAX_RW_COUNT in *. lia.
Qed.

(** X10.  A directory of positive size is skipped when its block cannot
    be read in one piece: when the seek to its position is accepted and
    the image ends before the end of the block, or when the block is
    larger than [MAX_RW_COUNT] bytes, whatever the seek does.  The read
    comes back short, the walk of the block is not started, and the tree
    stays as it is. *)
Theorem truncated_directory_skipped (fuel : nat) (name_buffer : string)
    (base sector sz : Z) (fd : file) (root : tree) :
  0 < sz ->
  (0 <= to_off_t (base + sector * SECTOR_SIZE) <= Z.of_N (maxbytes fd) /\
   Z.of_nat (List.length (image fd))
   < to_off_t (base + sector * SECTOR_SIZE) + sz)
  \/ MAX_RW_COUNT < sz ->
  exists fd',
    xbfs_recurse_directory fuel name_buffer base sector sz (fd, root)
    = Done (fd', root) /\
    image fd' = image fd.
Proof.
  intros Hsz Hshort.
  unfold xbfs_recurse_directory, recurse_directory_with. cbn [fst snd].
  set (fd1 := lseek fd (to_off_t (base + sector * SECTOR_SIZE))).
  assert (Hret : fst (fst (read fd1 sz)) <> sz).
  { apply read_short; [exact Hsz|].
    destruct Hshort as [[Hpos Hlen]|Hmax]; [left | now right].
    unfold fd1. rewrite (lseek_accepted fd _ Hpos). cbn [cursor image].
    lia. }
  assert (Himg : image (snd (read fd1 sz)) = image fd).
  { rewrite (proj1 (read_image fd1 sz)). apply lseek_image. }
  destruct (read fd1 sz) as [[ret de] fd2]. cbn [fst snd] in Hret, Himg.
  apply Z.eqb_neq in Hret. rewrite Hret. cbn [negb].
  exists fd2. split; [reflexivity | exact Himg].
Qed.

Lemma truncated_directory_skipped_witness :
  exists fd',
    xbfs_recurse_directory 5 "" (-65536) 35 200
      (File sample_image 0 ext4_maxbytes, tree_empty)
    = Done (fd', tree_empty) /\
    image fd' = image (File sample_image 0 ext4_maxbytes).
Proof.
  apply (truncated_directory_skipped 5 "" (-65536) 35 200
           (File sample_image 0 ext4_maxbytes) tree_empty);
    [reflexivity | left; vm_compute; intuition discriminate].
Defined.

(** X11.  The walk does not test that the name of a record lies inside
    the directory block.  For a record whose header fits but whose
    [name_length] bytes run past the end of the block, the [memcpy] of the
    name reads beyond [dir_entry]. *)
Theorem name_past_block (fuel : nat) (name_buffer : string) (base : Z)
    (dir_entry : list byte) (dir_entry_size o : Z) (st st1 : state) :
  13 < dir_entry_size - o ->
  (if LE_16 dir_entry o * 4 =? 0 then Done st
   else xbfs_recurse_file_subtree fuel name_buffer base dir_entry
          dir_entry_size (LE_16 dir_entry o * 4) st) = Done st1 ->
  Z.of_nat (String.length name_buffer) + 1 <= NAME_MAX_SIZE ->
  dir_entry_size < o + 14 + at_index dir_entry (o + 13) ->
  xbfs_recurse_file_subtree (S fuel) name_buffer base dir_entry
    dir_entry_size o st = Undefined DirEntryOverread.
Proof.
  intros Hp Hleft Hbuf Hname.
  rewrite file_subtree_S, geb_false by lia.
  unfold state in *. rewrite Hleft. unfold bind at 1.
  rewrite gtb_false by exact Hbuf.
  rewrite gtb_true by exact Hname. reflexivity.
Qed.

Lemma name_past_block_witness :
  xbfs_recurse_file_subtree 2 "" 0
    (firstn 16 (record_bytes 0 0 36 7 0 "a.txt")) 16 0
    (File [] 0 ext4_maxbytes, tree_empty)
  = Undefined DirEntryOverread.
Proof.
  apply (name_past_block 1 "" 0 _ 16 0 (File [] 0 ext4_maxbytes, tree_empty)
           (File [] 0 ext4_maxbytes, tree_empty));
    [lia | reflexivity | vm_compute; discriminate | vm_compute; reflexivity].
Defined.

(** X12.  A record whose left pointer is its own offset makes the walk
    call itself with the same arguments before it does anything else: no
    depth of recursion is enough for it to return. *)
Theorem self_pointer_never_returns (fuel : nat) (name_buffer : string)
    (base : Z) (dir_entry : list byte) (dir_entry_size o : Z) (st : state) :
  13 < dir_entry_size - o ->
  o <> 0 ->
  LE_16 dir_entry o * 4 = o ->
  xbfs_recurse_file_subtree fuel name_buffer base dir_entry dir_entry_size
    o st = OutOfFuel.
Proof.
  intros Hp Ho Hself.
  induction fuel as [|fuel IH]; [reflexivity|].
  rewrite file_subtree_S, geb_false by lia.
  rewrite Hself. apply Z.eqb_neq in Ho. rewrite Ho, IH. reflexivity.
Qed.

Lemma self_pointer_never_returns_witness :
  xbfs_recurse_file_subtree 1000 "" 0
    (repeat Byte.x00 4 ++ record_bytes 1 0 36 7 0 "a.txt") 23 4
    (File [] 0 ext4_maxbytes, tree_empty)
  = OutOfFuel.
Proof.
  apply (self_pointer_never_returns 1000 "" 0
           (repeat Byte.x00 4 ++ record_bytes 1 0 36 7 0 "a.txt") 23 4);
    [lia | lia | reflexivity].
Defined.

Lemma record_step fuel nb base de sz o st st1 :
  13 < sz - o ->
  (if LE_16 de o * 4 =? 0 then Done st
   else xbfs_recurse_file_subtree fuel nb base de sz (LE_16 de o * 4) st)
  = Done st1 ->
  o + 14 + at_index de (o + 13) <= sz ->
  Z.of_nat (String.length nb) + at_index de (o + 13)
  + (if Z.testbit (at_index de (o + 12)) 4 then 2 else 1) <= NAME_MAX_SIZE ->
  xbfs_recurse_file_subtree (S fuel) nb base de sz o st
  = st2 <- (if Z.testbit (at_index de (o + 12)) 4
            then xbfs_recurse_directory fuel
                   (nb ++ cstring (slice de (o + 14) (at_index de (o + 13))
                                   ++ [Byte.x2f]))
                   base (to_uint (LE_32 de (o + 4)))
                   (to_uint (LE_32 de (o + 8))) st1
            else Done (fst st1,
                       tree_insert (snd st1)
                         (nb ++ cstring (slice de (o + 14)
                                           (at_index de (o + 13))))
                         (to_off_t (base + to_uint (LE_32 de (o + 4))
                                           * SECTOR_SIZE))
                         (to_uint (LE_32 de (o + 8))))) ;;
    if LE_16 de (o + 2) * 4 =? 0 then Done st2
    else xbfs_recurse_file_subtree fuel nb base de sz
           (LE_16 de (o + 2) * 4) st2.
Proof.
  intros Hp Hleft Hin Hfit.
  pose proof (at_index_range de (o + 13)) as Hr.
  rewrite file_subtree_S, geb_false by lia.
  unfold state in *. rewrite Hleft. unfold bind at 1.
  rewrite directory_bit. unfold NAME_MAX_SIZE in *.
  rewrite gtb_false by (destruct (Z.testbit _ 4); lia).
  rewrite gtb_false by lia.
  rewrite geb_false by (destruct (Z.testbit _ 4); lia).
  destruct (Z.testbit (at_index de (o + 12)) 4); [|reflexivity].
  rewrite geb_false by lia. reflexivity.
Qed.

Lemma cstring_nul (a b : list byte) :
  ~ In Byte.x00 a ->
  cstring (a ++ Byte.x00 :: b) = string_of_list_byte a.
Proof.
  induction a as [|x a IH]; intro H; [reflexivity|].
  simpl. destruct (Byte.eqb x Byte.x00) eqn:E.
  - apply Byte.byte_dec_bl in E. subst x. elim H. now left.
  - unfold string_of_list_byte in *. simpl. rewrite IH; [reflexivity|].
    intro K. apply H. now right.
Qed.

(** X14.  A NUL byte in the name of a record ends the path built in
    [name_copy].  A file is inserted under the prefix and the part of its
    name before the NUL; for a directory the separator written behind the
    name is cut off as well, so that its entries are walked with a prefix
    that does not end with ['/']. *)
Theorem nul_cuts_name (fuel : nat) (name_buffer : string) (base : Z)
    (dir_entry : list byte) (dir_entry_size o : Z) (st st1 : state)
    (a b : list byte) :
  13 < dir_entry_size - o ->
  (if LE_16 dir_entry o * 4 =? 0 then Done st
   else xbfs_recurse_file_subtree fuel name_buffer base dir_entry
          dir_entry_size (LE_16 dir_entry o * 4) st) = Done st1 ->
  o + 14 + at_index dir_entry (o + 13) <= dir_entry_size ->
  Z.of_nat (String.length name_buffer) + at_index dir_entry (o + 13) + 2
  <= NAME_MAX_SIZE ->
  slice dir_entry (o + 14) (at_index dir_entry (o + 13))
  = (a ++ Byte.x00 :: b)%list ->
  ~ In Byte.x00 a ->
  xbfs_recurse_file_subtree (S fuel) name_buffer base dir_entry
    dir_entry_size o st
  = st2 <- (if Z.testbit (at_index dir_entry (o + 12)) 4
            then xbfs_recurse_directory fuel
                   (name_buffer ++ string_of_list_byte a)
                   base (to_uint (LE_32 dir_entry (o + 4)))
                   (to_uint (LE_32 dir_entry (o + 8))) st1
            else Done (fst st1,
                       tree_insert (snd st1)
                         (name_buffer ++ string_of_list_byte a)
                         (to_off_t (base + to_uint (LE_32 dir_entry (o + 4))
                                           * SECTOR_SIZE))
                         (to_uint (LE_32 dir_entry (o + 8))))) ;;
    if LE_16 dir_entry (o + 2) * 4 =? 0 then Done st2
    else xbfs_recurse_file_subtree fuel name_buffer base dir_entry
           dir_entry_size (LE_16 dir_entry (o + 2) * 4) st2.
Proof.
  intros Hp Hleft Hin Hfit Hname Hnul.
  rewrite (record_step fuel name_buffer base dir_entry dir_entry_size o st
             st1 Hp Hleft Hin)
    by (destruct (Z.testbit _ 4); lia).
  rewrite Hname, <- app_assoc. simpl app.
  rewrite !(cstring_nul a _ Hnul). reflexivity.
Qed.

Lemma nul_cuts_name_witness :
  xbfs_recurse_file_subtree 2 "" 0 nul_record 19 0 (File [] 0 ext4_maxbytes, tree_empty)
  = Done (File [] 0 ext4_maxbytes, Tree "" true 0 0 0 [new_file "ab" 73728 7]).
Proof.
  rewrite (nul_cuts_name 1 "" 0 nul_record 19 0 (File [] 0 ext4_maxbytes, tree_empty)
             (File [] 0 ext4_maxbytes, tree_empty)
             [Byte.x61; Byte.x62] [Byte.x63; Byte.x64]);
    [reflexivity | lia | reflexivity | vm_compute; discriminate
    | vm_compute; discriminate | reflexivity
    | simpl; intuition discriminate].
Defined.

(** * The command line *)

Lemma remove_quiet_none (args : list string) :
  ~ In "-q" args -> remove_quiet args = None.
Proof.
  induction args as [|a r IH]; intro Hno; [reflexivity|].
  simpl. destruct (String.eqb a "-q") eqn:E.
  - apply String.eqb_eq in E. elim Hno. now left.
  - rewrite IH; [reflexivity|]. intro Hin. apply Hno. now right.
Qed.

Lemma remove_quiet_first (pre post : list string) :
  ~ In "-q" pre ->
  remove_quiet (pre ++ "-q" :: post)%list = Some (pre ++ post)%list.
Proof.
  induction pre as [|a r IH]; intro Hno; [reflexivity|].
  simpl. destruct (String.eqb a "-q") eqn:E.
  - apply String.eqb_eq in E. elim Hno. now left.
  - rewrite IH; [reflexivity|]. intro Hin. apply Hno. now right.
Qed.

(** X16.  The command line.  Without ["-q"] among the arguments [main]
    needs the archive and one more argument and leaves the flag [quiet]
    clear.  With ["-q"] only the first one is taken out and sets the flag;
    the arguments before and after it are handled as if it had not been
    there, but one argument besides ["-q"] is then enough: the count is
    tested before the option is taken out.  In both cases the first
    remaining argument is opened: when the open fails [main] leaves
    without calling FUSE, otherwise FUSE gets the descriptor, the program
    name and the arguments after the archive. *)
Theorem main_arguments (open_archive : string -> Z) (argv0 : string)
    (pre post : list string) :
  ~ In "-q" pre ->
  main open_archive (argv0 :: pre)
  = match pre with
    | archive :: mount_point :: more =>
        if open_archive archive <? 0 then OpenFailed archive
        else Mount false (open_archive archive) (argv0 :: mount_point :: more)
    | _ => Usage
    end /\
  main open_archive (argv0 :: pre ++ "-q" :: post)%list
  = match (pre ++ post)%list with
    | archive :: more =>
        if open_archive archive <? 0 then OpenFailed archive
        else Mount true (open_archive archive) (argv0 :: more)
    | [] => Usage
    end.
Proof.
  intro Hno. split.
  - unfold main. destruct pre as [|a [|b more]]; try reflexivity.
    rewrite remove_quiet_none by exact Hno.
    reflexivity.
  - unfold main. rewrite remove_quiet_first by exact Hno.
    destruct pre as [|a pre]; [destruct post; reflexivity|].
    replace (List.length (argv0 :: (a :: pre) ++ "-q" :: post) <? 3)%nat
      with false; [reflexivity|].
    symmetry. apply Nat.ltb_ge. simpl. rewrite length_app. simpl. lia.
Qed.

Lemma main_arguments_witness :
  main open_game ["xbfuse"; "game.iso"; "/mnt"; "-o"; "ro"]
  = Mount false 3 ["xbfuse"; "/mnt"; "-o"; "ro"] /\
  main open_game ["xbfuse"; "game.iso"; "-q"; "/mnt"; "-q"]
  = Mount true 3 ["xbfuse"; "/mnt"; "-q"] /\
  main open_game ["xbfuse"; "-q"; "none.iso"; "/mnt"]
  = OpenFailed "none.iso".
Proof.
  split; [|split].
  - destruct (main_arguments open_game "xbfuse"
                ["game.iso"; "/mnt"; "-o"; "ro"] []) as [H _];
      [simpl; intuition discriminate | exact H].
  - destruct (main_arguments open_game "xbfuse"
                ["game.iso"] ["/mnt"; "-q"]) as [_ H];
      [simpl; intuition discriminate | exact H].
  - destruct (main_arguments open_game "xbfuse"
                [] ["none.iso"; "/mnt"]) as [_ H];
      [simpl; intuition discriminate | exact H].
Defined.

(** * The operations together *)

(** X17.  The FUSE operations agree on one context.  For every path,
    [readdir] returns what [opendir] returns, and [getattr] fails (with
    ENOENT, its only error) exactly when [opendir] fails with ENOENT.
    Where [opendir] succeeds, [getattr] reports a directory and [read]
    fails with EISDIR; where [opendir] fails with ENOTDIR, [getattr]
    reports a regular file with one link and [readdir] leaves the buffer
    as it was.  An open without the O_WRONLY bit succeeds exactly when
    [getattr] does, on a directory as well. *)
Theorem operations_agree (x : xbfsfile) (path : string) (stbuf st : stat)
    (uid gid : Z) (fi : fuse_file_info) (buf : list string)
    (count off : Z) :
  let attr := xbfs_getattr path stbuf x uid gid st in
  let dir := xbfs_opendir path x in
  fst (xbfs_readdir path buf x) = dir /\
  (fst attr = 0 \/ fst attr = - ENOENT /\ snd attr = stbuf) /\
  (fst attr = - ENOENT <-> dir = - ENOENT) /\
  (dir = 0 ->
   Z.land (st_mode (snd attr)) S_IFDIR = S_IFDIR /\
   Z.land (st_mode (snd attr)) S_IFREG = 0 /\
   fst (fst (xbfs_read path count off x)) = - EISDIR) /\
  (dir = - ENOTDIR ->
   Z.land (st_mode (snd attr)) S_IFREG = S_IFREG /\
   Z.land (st_mode (snd attr)) S_IFDIR = 0 /\
   st_nlink (snd attr) = 1 /\
   snd (xbfs_readdir path buf x) = buf) /\
  (Z.land (flags fi) O_WRONLY = 0 ->
   (fst (fst (xbfs_open path fi x)) = 0 <-> fst attr = 0)).
Proof.
  unfold xbfs_getattr, xbfs_opendir, xbfs_readdir, xbfs_read, xbfs_open,
    tree_getattr, tree_opendir, tree_readdir, tree_read, tree_open.
  destruct (tree_find_entry (xbfs_tree x) path) as [node|];
    [destruct (is_dir node)|]; cbn [fst snd st_mode st_nlink];
    (repeat split); intros; auto;
    try discriminate; try reflexivity;
    try (match goal with H : Z.land _ _ = 0 |- _ => rewrite H end;
         reflexivity).
  match goal with
  | H : Z.land _ _ = 0, H' : _ = 0 |- _ => rewrite H in H'; exact H'
  end.
Qed.

(** * The parser against the directory structure of the disc *)

Lemma dentry_ind' (P : dentry -> Prop) :
  (forall n off sz, P (DFile n off sz)) ->
  (forall n l, Forall P l -> P (DDir n l)) ->
  forall d, P d.
Proof.
  intros Hf Hd. fix IH 1. intros [n off sz|n l]; [apply Hf|].
  apply Hd. induction l as [|x l IHl]; constructor; [apply IH | exact IHl].
Qed.

Lemma every_entry_eq (P : dentry -> Prop) (d : dentry) :
  every_entry P d <->
  P d /\ match d with
         | DFile _ _ _ => True
         | DDir _ l => Forall (every_entry P) l
         end.
Proof.
  destruct d as [n off sz|n l]; simpl; [tauto|].
  assert (E : (fix all (l : list dentry) : Prop :=
                 match l with
                 | [] => True
                 | c :: r => every_entry P c /\ all r
                 end) l <-> Forall (every_entry P) l).
  { induction l as [|x l IH]; simpl.
    - split; [constructor | trivial].
    - rewrite IH. split.
      + intros [H1 H2]. now constructor.
      + intro H. inversion H. tauto. }
  tauto.
Qed.

Lemma flat_map_kept (l : list dentry) :
  flat_map (fun c => if holds_file c then [node_of c] else []) l
  = map node_of (filter holds_file l).
Proof.
  induction l as [|x l IH]; simpl; [reflexivity|].
  destruct (holds_file x); simpl; now rewrite IH.
Qed.

Lemma node_of_dir (n : string) (l : list dentry) :
  node_of (DDir n l) = Tree n true 0 0 (count_dirs (kids l)) (kids l).
Proof. cbn [node_of]. unfold kids. now rewrite flat_map_kept. Qed.

Lemma name_node_of (d : dentry) : name (node_of d) = dname d.
Proof. destruct d; reflexivity. Qed.

Lemma kids_cons (d : dentry) (l : list dentry) :
  kids (d :: l)
  = (kids l ++ (if holds_file d then [node_of d] else []))%list.
Proof.
  unfold kids. simpl filter. destruct (holds_file d); simpl.
  - reflexivity.
  - now rewrite app_nil_r.
Qed.

Lemma names_of_kids (l : list dentry) :
  map name (kids l) = rev (map dname (filter holds_file l)).
Proof.
  unfold kids. rewrite map_rev, map_map. f_equal.
  apply map_ext. intro d. apply name_node_of.
Qed.

Lemma append_nil_r (s : string) : s ++ "" = s.
Proof. induction s as [|c s IH]; simpl; [reflexivity | now rewrite IH]. Qed.

Lemma entries_of_under (p : string) (d : dentry) :
  forall q, entries_of (p ++ q) d = map (under p) (entries_of q d).
Proof.
  induction d as [n off sz|n l IH] using dentry_ind'; intro q.
  - simpl. unfold under, entry_path. simpl. now rewrite append_assoc.
  - simpl. rewrite append_assoc.
    generalize (q ++ n ++ "/"). intro q'.
    induction IH as [|x l Hx _ IHl]; simpl; [reflexivity|].
    now rewrite map_app, Hx, IHl.
Qed.

Lemma entries_of_none (d : dentry) :
  forall p, entries_of p d = [] <-> holds_file d = false.
Proof.
  induction d as [n off sz|n l IH] using dentry_ind'; intro p.
  - simpl. split; discriminate.
  - simpl. generalize (p ++ n ++ "/"). intro q.
    induction IH as [|x l Hx _ IHl]; simpl; [tauto|].
    rewrite orb_false_iff, <- IHl, <- (Hx q).
    split.
    + intro H. apply app_eq_nil in H. exact H.
    + intros [-> ->]. reflexivity.
Qed.

(** ** Inserts below one directory *)

Lemma tree_insert_under_new (t : tree) (n p : string) (off sz : Z) :
  memchr_slash n = None ->
  Forall (fun x => String.eqb (name x) n = false) (sub t) ->
  tree_insert t (n ++ "/" ++ p) off sz
  = Tree (name t) (is_dir t) (offset t) (size t) (nsubdirs t + 1)
         (tree_insert (new_directory n) p off sz :: sub t).
Proof.
  intros Hn Hnone. rewrite tree_insert_eq.
  change ("/" ++ p) with (String slash p).
  rewrite (memchr_slash_append n p Hn).
  apply (insert_existing_none
           (fun node => tree_insert node p off sz)) in Hnone.
  rewrite Hnone. destruct n; reflexivity.
Qed.

Lemma tree_insert_under_head (t c : tree) (rest : list tree)
    (n p : string) (off sz : Z) :
  memchr_slash n = None ->
  sub t = c :: rest -> name c = n ->
  tree_insert t (n ++ "/" ++ p) off sz
  = Tree (name t) (is_dir t) (offset t) (size t) (nsubdirs t)
         (tree_insert c p off sz :: rest).
Proof.
  intros Hn Hsub Hc. rewrite tree_insert_eq.
  change ("/" ++ p) with (String slash p).
  rewrite (memchr_slash_append n p Hn), Hsub.
  simpl insert_existing. rewrite Hc, String.eqb_refl.
  destruct n; reflexivity.
Qed.

Lemma insert_all_under_cons (t : tree) (p : string) (e : entry)
    (ops : list entry) :
  insert_all t (map (under p) (e :: ops))
  = insert_all (tree_insert t (p ++ entry_path e) (snd (fst e)) (snd e))
      (map (under p) ops).
Proof. reflexivity. Qed.

Lemma insert_all_under_head (n : string) (ops : list entry) :
  memchr_slash n = None ->
  forall nm d o s k c rest,
    name c = n ->
    insert_all (Tree nm d o s k (c :: rest)) (map (under (n ++ "/")) ops)
    = Tree nm d o s k (insert_all c ops :: rest).
Proof.
  intro Hn. induction ops as [|e ops IH]; intros nm d o s k c rest Hc;
    [reflexivity|].
  rewrite insert_all_under_cons, append_assoc.
  rewrite (tree_insert_under_head (Tree nm d o s k (c :: rest)) c rest n
             _ _ _ Hn eq_refl Hc).
  cbn [name is_dir offset size nsubdirs].
  rewrite IH by (rewrite (proj1 (tree_insert_fields c _ _ _)); exact Hc).
  reflexivity.
Qed.

Lemma tree_fields_eta (t : tree) :
  t = Tree (name t) (is_dir t) (offset t) (size t) (nsubdirs t) (sub t).
Proof. destruct t; reflexivity. Qed.

(** What the inserts for the entries of a directory make of its node. *)
Lemma insert_entries_with (l : list dentry) :
  Forall inserted_as_node l ->
  Forall plain_names l -> Forall distinct_names l ->
  NoDup (map dname l) ->
  forall t,
    (forall d, In d l ->
               Forall (fun x => String.eqb (name x) (dname d) = false)
                      (sub t)) ->
    insert_all t (flat_map (entries_of "") l)
    = Tree (name t) (is_dir t) (offset t) (size t)
           (nsubdirs t + count_dirs (kids l)) (kids l ++ sub t).
Proof.
  induction l as [|d l IHl]; intros HQ Hplain Hdist Hnd t Hfresh.
  - simpl. unfold kids, count_dirs. simpl. rewrite Z.add_0_r.
    apply tree_fields_eta.
  - inversion HQ as [|? ? Qd Ql]; subst.
    inversion Hplain as [|? ? Pd Pl]; subst.
    inversion Hdist as [|? ? Dd Dl]; subst.
    simpl in Hnd. inversion Hnd as [|? ? Hnotin Hnd']; subst.
    simpl flat_map. rewrite insert_all_app.
    rewrite (Qd Pd Dd t (Hfresh d (or_introl eq_refl))).
    rewrite kids_cons. unfold add_entry.
    assert (Hother : forall d', In d' l ->
              String.eqb (dname d) (dname d') = false).
    { intros d' Hin. apply String.eqb_neq. intro E. apply Hnotin.
      rewrite E. now apply in_map. }
    destruct (holds_file d).
    + rewrite IHl; try assumption.
      * cbn [name is_dir offset size nsubdirs sub].
        rewrite count_dirs_app, count_dirs_cons.
        unfold count_dirs at 3. simpl.
        rewrite <- app_assoc. simpl. f_equal. lia.
      * intros d' Hin. cbn [sub]. constructor.
        -- rewrite name_node_of. now apply Hother.
        -- apply Hfresh. now right.
    + rewrite app_nil_r. apply IHl; try assumption.
      intros d' Hin. apply Hfresh. now right.
Qed.

Lemma insert_entry (d : dentry) : inserted_as_node d.
Proof.
  unfold inserted_as_node, add_entry.
  induction d as [n off sz|n l IH] using dentry_ind';
    intros Hplain Hdist t Hfresh.
  - apply every_entry_eq in Hplain. destruct Hplain as [[Hne Hslash] _].
    simpl in Hne, Hslash. simpl entries_of. simpl holds_file. simpl node_of.
    unfold insert_all. simpl fold_left. unfold entry_path. simpl fst.
    simpl snd. rewrite (tree_insert_plain _ _ _ _ Hne Hslash).
    simpl is_dir. now rewrite Z.add_0_r.
  - apply every_entry_eq in Hplain. destruct Hplain as [[Hne Hslash] Pl].
    apply every_entry_eq in Hdist. destruct Hdist as [Hnd Dl].
    simpl in Hne, Hslash, Hfresh.
    simpl entries_of.
    assert (E : flat_map (entries_of (n ++ "/")) l
                = map (under (n ++ "/")) (flat_map (entries_of "") l)).
    { clear. induction l as [|x l IHl]; simpl; [reflexivity|].
      rewrite map_app, <- IHl, <- entries_of_under, append_nil_r.
      reflexivity. }
    rewrite E.
    pose proof (insert_entries_with l IH Pl Dl Hnd (new_directory n)
                  (fun d _ => Forall_nil _)) as Hdir.
    destruct (flat_map (entries_of "") l) as [|e ops] eqn:Ops.
    + assert (H : holds_file (DDir n l) = false).
      { apply (entries_of_none (DDir n l) ""). simpl. now rewrite E. }
      rewrite H. reflexivity.
    + assert (H : holds_file (DDir n l) = true).
      { destruct (holds_file (DDir n l)) eqn:F; [reflexivity|].
        apply (entries_of_none (DDir n l) "") in F. simpl in F.
        rewrite E in F. discriminate. }
      rewrite H, insert_all_under_cons, append_assoc.
      rewrite (tree_insert_under_new t n _ _ _ Hslash Hfresh).
      rewrite (insert_all_under_head n ops Hslash)
        by apply (tree_insert_fields (new_directory n)).
      assert (Hnode : insert_all
                        (tree_insert (new_directory n) (entry_path e)
                           (snd (fst e)) (snd e)) ops
                      = node_of (DDir n l)).
      { change (insert_all (new_directory n) (e :: ops)
                = node_of (DDir n l)).
        rewrite Hdir, node_of_dir. simpl. now rewrite app_nil_r. }
      rewrite Hnode. rewrite node_of_dir. simpl is_dir. reflexivity.
Qed.

Lemma insert_entries (ds : list dentry) :
  Forall plain_names ds -> distinct_names (DDir "" ds) ->
  insert_all tree_empty (flat_map (entries_of "") ds) = tree_of ds.
Proof.
  intros Hplain Hdist.
  apply every_entry_eq in Hdist. destruct Hdist as [Hnd Hdist].
  rewrite (insert_entries_with ds); try assumption.
  - unfold tree_of. rewrite node_of_dir. simpl. now rewrite app_nil_r.
  - apply Forall_forall. intros d _. apply insert_entry.
  - intros d _. constructor.
Qed.

(** ** The walk of a regular directory structure *)

Lemma le32_at_range (x : list byte) (i : Z) : 0 <= le32_at x i < 2 ^ 32.
Proof.
  unfold le32_at.
  pose proof (at_index_range x i). pose proof (at_index_range x (i + 1)).
  pose proof (at_index_range x (i + 2)). pose proof (at_index_range x (i + 3)).
  lia.
Qed.

Lemma LE_32_le32_at (x : list byte) (i : Z) :
  to_uint (LE_32 x i) = le32_at x i.
Proof. apply LE_32_value. Qed.

Lemma plain_name_spec (bs : list byte) :
  plain_name bs = true ->
  ~ In Byte.x00 bs /\
  string_of_list_byte bs <> "" /\
  memchr_slash (string_of_list_byte bs) = None.
Proof.
  unfold plain_name. intro H. apply andb_true_iff in H.
  destruct H as [Hne Hall]. split; [|split].
  - intro Hin. rewrite forallb_forall in Hall. apply Hall in Hin.
    discriminate.
  - destruct bs; [discriminate|]. discriminate.
  - clear Hne. induction bs as [|b bs IH]; [reflexivity|].
    simpl in Hall. apply andb_true_iff in Hall. destruct Hall as [Hb Hall].
    apply andb_true_iff in Hb. destruct Hb as [_ Hb].
    change (string_of_list_byte (b :: bs))
      with (String (ascii_of_byte b) (string_of_list_byte bs)).
    simpl memchr_slash. rewrite (IH Hall).
    destruct (Ascii.eqb (ascii_of_byte b) slash) eqn:E; [|reflexivity].
    apply Ascii.eqb_eq in E. apply (f_equal byte_of_ascii) in E.
    rewrite byte_of_ascii_of_byte in E. subst b. discriminate.
Qed.

Lemma cstring_with_slash (bs : list byte) :
  ~ In Byte.x00 bs ->
  cstring (bs ++ [Byte.x2f]) = string_of_list_byte bs ++ "/".
Proof.
  induction bs as [|b bs IH]; intro H; [reflexivity|].
  simpl. destruct (Byte.eqb b Byte.x00) eqn:E.
  - apply Byte.byte_dec_bl in E. subst b. elim H. now left.
  - unfold string_of_list_byte in *. simpl. rewrite IH; [reflexivity|].
    intro K. apply H. now right.
Qed.

Lemma read_nothing (fd : file) :
  read fd 0 = (0, [], File (image fd) (cursor fd + 0) (maxbytes fd)).
Proof. reflexivity. Qed.

(** A readable block is loaded whole, and its walk is started. *)
Lemma recurse_readable_block
    (walk : string -> list byte -> Z -> state -> outcome state)
    (nb : string) (base sector sz : Z) (fd : file) (t : tree) :
  block_readable (image fd) (base + sector * SECTOR_SIZE) sz = true ->
  Z.of_nat (List.length (image fd)) <= Z.of_N (maxbytes fd) ->
  - 2 ^ 63 <= base + sector * SECTOR_SIZE < 2 ^ 63 -> 0 <= sz ->
  exists fd',
    recurse_directory_with walk nb base sector sz (fd, t)
    = walk nb (slice (image fd) (base + sector * SECTOR_SIZE) sz) sz
        (fd', t) /\
    image fd' = image fd /\ maxbytes fd' = maxbytes fd.
Proof.
  intros Hblock Hmb Hrange Hsz.
  unfold recurse_directory_with. cbn [fst snd].
  rewrite to_off_t_small by exact Hrange.
  unfold block_readable in Hblock.
  destruct (sz =? 0) eqn:Z0.
  - apply Z.eqb_eq in Z0. subst sz. rewrite read_nothing.
    cbn [negb Z.eqb]. eexists. split; [reflexivity|].
    split; [apply lseek_image | apply lseek_image].
  - simpl in Hblock. apply andb_true_iff in Hblock.
    destruct Hblock as [Hblock Hmax].
    apply andb_true_iff in Hblock. destruct Hblock as [Hpos Hend].
    apply Z.leb_le in Hpos, Hend, Hmax. apply Z.eqb_neq in Z0.
    rewrite read_at by lia.
    assert (Hlen : Z.of_nat (List.length
                     (slice (image fd) (base + sector * SECTOR_SIZE) sz))
                   = sz).
    { rewrite slice_length; [lia | lia |].
      pose proof (Zle_0_nat (List.length (image fd))). lia. }
    rewrite Hlen, Z.eqb_refl. cbn [negb].
    eexists. split; [reflexivity|]. split; reflexivity.
Qed.

Lemma disk_records_S fuel img base pfx de sz o :
  disk_records (S fuel) img base pfx de sz o
  = if o + 13 >=? sz then Some []
    else
      match (if LE_16 de o * 4 =? 0 then Some []
             else disk_records fuel img base pfx de sz (LE_16 de o * 4)),
            (if negb ((o + 14 + at_index de (o + 13) <=? sz)
                      && plain_name (record_name_bytes de o))
             then None
             else if Z.testbit (at_index de (o + 12)) 4 then
               if (Z.of_nat (String.length pfx) + at_index de (o + 13) + 2
                   <=? NAME_MAX_SIZE)
                  && block_readable img
                       (base + le32_at de (o + 4) * SECTOR_SIZE)
                       (le32_at de (o + 8))
               then option_map (DDir (record_name de o))
                      (disk_records fuel img base
                         (pfx ++ record_name de o ++ "/")
                         (slice img
                            (base + le32_at de (o + 4) * SECTOR_SIZE)
                            (le32_at de (o + 8)))
                         (le32_at de (o + 8)) 0)
               else None
             else if Z.of_nat (String.length pfx) + at_index de (o + 13) + 1
                     <=? NAME_MAX_SIZE
             then Some (DFile (record_name de o)
                          (base + le32_at de (o + 4) * SECTOR_SIZE)
                          (le32_at de (o + 8)))
             else None),
            (if LE_16 de (o + 2) * 4 =? 0 then Some []
             else disk_records fuel img base pfx de sz
                    (LE_16 de (o + 2) * 4)) with
      | Some l, Some here, Some r => Some (l ++ here :: r)%list
      | _, _, _ => None
      end.
Proof. reflexivity. Qed.

Lemma walk_disk_records :
  forall fuel img base pfx de sz o ds fd t,
    disk_records fuel img base pfx de sz o = Some ds ->
    image fd = img ->
    Z.of_nat (List.length img) <= Z.of_N (maxbytes fd) ->
    - 2 ^ 62 <= base < 2 ^ 62 ->
    exists fd',
      xbfs_recurse_file_subtree fuel pfx base de sz o (fd, t)
      = Done (fd', insert_all t (flat_map (entries_of pfx) ds)) /\
      image fd' = img /\ maxbytes fd' = maxbytes fd.
Proof.
  induction fuel as [|fuel IH];
    intros img base pfx de sz o ds fd t Hd Himg Hmb Hbase; [discriminate|].
  rewrite disk_records_S in Hd.
  destruct (o + 13 >=? sz) eqn:Hguard.
  { injection Hd as <-. exists fd. rewrite file_subtree_S, Hguard.
    simpl. auto. }
  destruct (if LE_16 de o * 4 =? 0 then Some []
            else disk_records fuel img base pfx de sz (LE_16 de o * 4))
    as [l|] eqn:El; [|discriminate].
  match type of Hd with
  | match ?h with _ => _ end = _ => destruct h as [here|] eqn:Eh
  end; [|discriminate].
  destruct (if LE_16 de (o + 2) * 4 =? 0 then Some []
            else disk_records fuel img base pfx de sz
                   (LE_16 de (o + 2) * 4))
    as [r|] eqn:Er; [|discriminate].
  injection Hd as <-.
  rewrite Z.geb_leb in Hguard. apply Z.leb_gt in Hguard.
  (* left subtree *)
  assert (L : exists fd1,
             (if LE_16 de o * 4 =? 0 then Done (fd, t)
              else xbfs_recurse_file_subtree fuel pfx base de sz
                     (LE_16 de o * 4) (fd, t))
             = Done (fd1, insert_all t (flat_map (entries_of pfx) l)) /\
             image fd1 = img /\ maxbytes fd1 = maxbytes fd).
  { destruct (LE_16 de o * 4 =? 0).
    - injection El as <-. exists fd. auto.
    - apply (IH img); assumption. }
  destruct L as (fd1 & Hleft & Himg1 & Hmb1).
  set (t1 := insert_all t (flat_map (entries_of pfx) l)) in *.
  (* the record *)
  destruct ((o + 14 + at_index de (o + 13) <=? sz)
            && plain_name (record_name_bytes de o)) eqn:Hreg;
    [|discriminate].
  apply andb_true_iff in Hreg. destruct Hreg as [Hin Hplain].
  apply Z.leb_le in Hin. cbn [negb] in Eh.
  destruct (plain_name_spec _ Hplain) as (Hnul & _ & _).
  pose proof (le32_at_range de (o + 4)) as Hsector.
  assert (M : exists fd2,
             (if Z.testbit (at_index de (o + 12)) 4
              then xbfs_recurse_directory fuel
                     (pfx ++ cstring (slice de (o + 14)
                                        (at_index de (o + 13))
                                      ++ [Byte.x2f]))
                     base (to_uint (LE_32 de (o + 4)))
                     (to_uint (LE_32 de (o + 8))) (fd1, t1)
              else Done (fst (fd1, t1),
                         tree_insert (snd (fd1, t1))
                           (pfx ++ cstring (slice de (o + 14)
                                              (at_index de (o + 13))))
                           (to_off_t (base + to_uint (LE_32 de (o + 4))
                                             * SECTOR_SIZE))
                           (to_uint (LE_32 de (o + 8)))))
             = Done (fd2, insert_all t1 (entries_of pfx here)) /\
             image fd2 = img /\ maxbytes fd2 = maxbytes fd /\
             Z.of_nat (String.length pfx) + at_index de (o + 13)
             + (if Z.testbit (at_index de (o + 12)) 4 then 2 else 1)
             <= NAME_MAX_SIZE).
  { change (slice de (o + 14) (at_index de (o + 13)))
      with (record_name_bytes de o).
    rewrite !LE_32_le32_at.
    destruct (Z.testbit (at_index de (o + 12)) 4).
    - destruct ((Z.of_nat (String.length pfx) + at_index de (o + 13) + 2
                 <=? NAME_MAX_SIZE)
                && block_readable img
                     (base + le32_at de (o + 4) * SECTOR_SIZE)
                     (le32_at de (o + 8))) eqn:Hok; [|discriminate].
      apply andb_true_iff in Hok. destruct Hok as [Hfit Hblock].
      apply Z.leb_le in Hfit.
      destruct (disk_records fuel img base
                  (pfx ++ record_name de o ++ "/")
                  (slice img (base + le32_at de (o + 4) * SECTOR_SIZE)
                     (le32_at de (o + 8)))
                  (le32_at de (o + 8)) 0) as [cs|] eqn:Ecs;
        [|discriminate].
      injection Eh as <-.
      rewrite (cstring_with_slash _ Hnul). fold (record_name de o).
      unfold xbfs_recurse_directory.
      rewrite <- Himg1 in Hblock.
      destruct (recurse_readable_block
                  (fun nb de' sz' s =>
                     xbfs_recurse_file_subtree fuel nb base de' sz' 0 s)
                  (pfx ++ record_name de o ++ "/") base
                  (le32_at de (o + 4)) (le32_at de (o + 8)) fd1 t1 Hblock)
        as (fd2 & Hrec & Himg2 & Hmb2).
      { rewrite Himg1, Hmb1. exact Hmb. }
      { unfold SECTOR_SIZE. lia. }
      { apply le32_at_range. }
      unfold state in *. rewrite Hrec, Himg1.
      destruct (IH img base (pfx ++ record_name de o ++ "/") _ _ 0 cs fd2 t1
                  Ecs) as (fd3 & Hwalk & Himg3 & Hmb3).
      { congruence. }
      { rewrite Hmb2, Hmb1. exact Hmb. }
      { exact Hbase. }
      exists fd3. rewrite Hwalk. simpl entries_of.
      repeat split; [exact Himg3 | congruence | exact Hfit].
    - destruct (Z.of_nat (String.length pfx) + at_index de (o + 13) + 1
                <=? NAME_MAX_SIZE) eqn:Hfit; [|discriminate].
      apply Z.leb_le in Hfit. injection Eh as <-.
      rewrite (cstring_no_nul _ Hnul). fold (record_name de o).
      rewrite to_off_t_small by (unfold SECTOR_SIZE; lia).
      exists fd1. cbn [fst snd]. simpl entries_of.
      repeat split; [exact Himg1 | exact Hmb1 | exact Hfit]. }
  destruct M as (fd2 & Hmid & Himg2 & Hmb2 & Hfit).
  set (t2 := insert_all t1 (entries_of pfx here)) in *.
  (* right subtree *)
  assert (R : exists fd3,
             (if LE_16 de (o + 2) * 4 =? 0 then Done (fd2, t2)
              else xbfs_recurse_file_subtree fuel pfx base de sz
                     (LE_16 de (o + 2) * 4) (fd2, t2))
             = Done (fd3, insert_all t2 (flat_map (entries_of pfx) r)) /\
             image fd3 = img /\ maxbytes fd3 = maxbytes fd).
  { destruct (LE_16 de (o + 2) * 4 =? 0).
    - injection Er as <-. exists fd2. auto.
    - destruct (IH img base pfx de sz (LE_16 de (o + 2) * 4) r fd2 t2 Er)
        as (fd3 & H1 & H2 & H3); try assumption; [congruence|].
      exists fd3. repeat split; [exact H1 | exact H2 | congruence]. }
  destruct R as (fd3 & Hright & Himg3 & Hmb3).
  exists fd3. split; [|split; assumption].
  rewrite (record_step fuel pfx base de sz o (fd, t) (fd1, t1));
    [| lia | exact Hleft | exact Hin | exact Hfit].
  unfold state in *. rewrite Hmid. unfold bind at 1. rewrite Hright.
  f_equal. f_equal. subst t2 t1.
  rewrite flat_map_app. simpl flat_map. rewrite !insert_all_app.
  reflexivity.
Qed.

Lemma disk_records_plain :
  forall fuel img base pfx de sz o ds,
    disk_records fuel img base pfx de sz o = Some ds ->
    Forall plain_names ds.
Proof.
  induction fuel as [|fuel IH]; intros img base pfx de sz o ds Hd;
    [discriminate|].
  rewrite disk_records_S in Hd.
  destruct (o + 13 >=? sz); [injection Hd as <-; constructor|].
  destruct (if LE_16 de o * 4 =? 0 then Some []
            else disk_records fuel img base pfx de sz (LE_16 de o * 4))
    as [l|] eqn:El; [|discriminate].
  match type of Hd with
  | match ?h with _ => _ end = _ => destruct h as [here|] eqn:Eh
  end; [|discriminate].
  destruct (if LE_16 de (o + 2) * 4 =? 0 then Some []
            else disk_records fuel img base pfx de sz
                   (LE_16 de (o + 2) * 4))
    as [r|] eqn:Er; [|discriminate].
  injection Hd as <-.
  assert (Hl : Forall plain_names l).
  { destruct (LE_16 de o * 4 =? 0);
      [injection El as <-; constructor | eapply IH; exact El]. }
  assert (Hr : Forall plain_names r).
  { destruct (LE_16 de (o + 2) * 4 =? 0);
      [injection Er as <-; constructor | eapply IH; exact Er]. }
  apply Forall_app. split; [exact Hl|]. constructor; [|exact Hr].
  destruct ((o + 14 + at_index de (o + 13) <=? sz)
            && plain_name (record_name_bytes de o)) eqn:Hreg;
    [|discriminate].
  apply andb_true_iff in Hreg. destruct Hreg as [_ Hplain].
  destruct (plain_name_spec _ Hplain) as (_ & Hne & Hslash).
  fold (record_name de o) in Hne, Hslash. cbn [negb] in Eh.
  destruct (Z.testbit (at_index de (o + 12)) 4).
  - destruct (_ && _); [|discriminate].
    destruct (disk_records fuel img base _ _ _ 0) as [cs|] eqn:Ecs;
      [|discriminate].
    injection Eh as <-. apply every_entry_eq. split; [split; assumption|].
    eapply IH. exact Ecs.
  - destruct (_ <=? _); [|discriminate].
    injection Eh as <-. apply every_entry_eq. split; [split; assumption|].
    exact I.
Qed.

(** The entries come in the order of [inorder], one per record. *)
Lemma disk_records_inorder :
  forall fuel img base pfx de sz o ds,
    disk_records fuel img base pfx de sz o = Some ds ->
    exists offs,
      inorder fuel de sz o = Some offs /\
      map dname ds = map (record_name de) offs.
Proof.
  induction fuel as [|fuel IH]; intros img base pfx de sz o ds Hd;
    [discriminate|].
  rewrite disk_records_S in Hd. simpl inorder.
  change (o + 13 >=? sz) with (o + 0xD >=? sz) in Hd.
  destruct (o + 0xD >=? sz).
  { injection Hd as <-. exists []. auto. }
  destruct (if LE_16 de o * 4 =? 0 then Some []
            else disk_records fuel img base pfx de sz (LE_16 de o * 4))
    as [l|] eqn:El; [|discriminate].
  match type of Hd with
  | match ?h with _ => _ end = _ => destruct h as [here|] eqn:Eh
  end; [|discriminate].
  destruct (if LE_16 de (o + 2) * 4 =? 0 then Some []
            else disk_records fuel img base pfx de sz
                   (LE_16 de (o + 2) * 4))
    as [r|] eqn:Er; [|discriminate].
  injection Hd as <-.
  assert (Hl : exists ol,
             (if LE_16 de o * 4 =? 0 then Some []
              else inorder fuel de sz (LE_16 de o * 4)) = Some ol /\
             map dname l = map (record_name de) ol).
  { destruct (LE_16 de o * 4 =? 0).
    - injection El as <-. exists []. auto.
    - eapply IH. exact El. }
  assert (Hr : exists or,
             (if LE_16 de (o + 2) * 4 =? 0 then Some []
              else inorder fuel de sz (LE_16 de (o + 2) * 4)) = Some or /\
             map dname r = map (record_name de) or).
  { destruct (LE_16 de (o + 2) * 4 =? 0).
    - injection Er as <-. exists []. auto.
    - eapply IH. exact Er. }
  destruct Hl as (ol & -> & Ml). destruct Hr as (or & -> & Mr).
  exists (ol ++ o :: or)%list. split; [reflexivity|].
  rewrite !map_app. simpl map. rewrite Ml, Mr. do 2 f_equal.
  destruct (negb _); [discriminate|].
  destruct (Z.testbit _ 4).
  - destruct (_ && _); [|discriminate].
    destruct (disk_records fuel img base _ _ _ 0); [|discriminate].
    injection Eh as <-. reflexivity.
  - destruct (_ <=? _); [|discriminate]. injection Eh as <-. reflexivity.
Qed.

(** ** Lookups in the tree of a directory structure *)

Lemma find_sub_unique (l : list tree) (x : tree) :
  In x l -> NoDup (map name l) -> memchr_slash (name x) = None ->
  find_sub l (name x) = Some x.
Proof.
  intros Hin Hnd Hx. induction l as [|y l IH]; [now elim Hin|].
  rewrite find_sub_cons, (find_entry_noslash y _ Hx).
  simpl in Hnd. inversion Hnd as [|? ? Hy Hl]; subst.
  destruct Hin as [->|Hin].
  - now rewrite String.eqb_refl.
  - destruct (String.eqb (name x) (name y)) eqn:E; [|now apply IH].
    apply String.eqb_eq in E. elim Hy. rewrite <- E. now apply in_map.
Qed.

Lemma find_sub_absent (l : list tree) (p : string) :
  memchr_slash p = None -> ~ In p (map name l) -> find_sub l p = None.
Proof.
  intros Hp Hno. induction l as [|y l IH]; [reflexivity|].
  rewrite find_sub_cons, (find_entry_noslash y _ Hp).
  destruct (String.eqb p (name y)) eqn:E.
  - apply String.eqb_eq in E. elim Hno. left. now symmetry.
  - apply IH. intro H. apply Hno. now right.
Qed.

Lemma find_sub_missing (l : list tree) (n q : string) :
  memchr_slash n = None ->
  Forall (fun y => memchr_slash (name y) = None) l ->
  ~ In n (map name l) ->
  find_sub l (n ++ "/" ++ q) = None.
Proof.
  intros Hn Hl Hno. change ("/" ++ q) with (String slash q).
  induction l as [|y l IH]; [reflexivity|].
  inversion Hl as [|? ? Hy Hl']; subst.
  rewrite find_sub_cons.
  rewrite (find_entry_slash y _ n q Hy (memchr_slash_append n q Hn)).
  destruct (String.eqb (name y) n) eqn:E.
  - apply String.eqb_eq in E. elim Hno. now left.
  - apply IH; [exact Hl'|]. intro H. apply Hno. now right.
Qed.

Lemma find_sub_below (l : list tree) (x : tree) (q : string) :
  In x l -> NoDup (map name l) ->
  Forall (fun y => memchr_slash (name y) = None) l ->
  q <> "" ->
  find_sub l (name x ++ "/" ++ q) = find_sub (sub x) q.
Proof.
  intros Hin Hnd Hl Hq. change ("/" ++ q) with (String slash q).
  induction l as [|y l IH]; [now elim Hin|].
  inversion Hl as [|? ? Hy Hl']; subst.
  simpl in Hnd. inversion Hnd as [|? ? Hnotin Hnd']; subst.
  assert (Hx : memchr_slash (name x) = None).
  { rewrite Forall_forall in Hl. now apply Hl. }
  rewrite find_sub_cons.
  rewrite (find_entry_slash y _ (name x) q Hy
             (memchr_slash_append (name x) q Hx)).
  destruct Hin as [->|Hin].
  - rewrite String.eqb_refl. destruct q as [|c q]; [now elim Hq|].
    destruct (find_sub (sub x) (String c q)); [reflexivity|].
    change (String slash (String c q)) with ("/" ++ String c q).
    now apply find_sub_missing.
  - destruct (String.eqb (name y) (name x)) eqn:E.
    + apply String.eqb_eq in E. elim Hnotin. rewrite E. now apply in_map.
    + now apply IH.
Qed.

Lemma NoDup_map_filter {A B : Type} (f : A -> B) (g : A -> bool)
    (l : list A) :
  NoDup (map f l) -> NoDup (map f (filter g l)).
Proof.
  induction l as [|x l IH]; simpl; intro H; [constructor|].
  inversion H as [|? ? Hx Hl]; subst.
  destruct (g x); simpl; [|now apply IH].
  constructor; [|now apply IH].
  intro K. apply Hx. apply in_map_iff in K. destruct K as (y & E & Hy).
  apply filter_In in Hy. rewrite <- E. apply in_map. tauto.
Qed.

Lemma NoDup_map_same {A B : Type} (f : A -> B) (l : list A) (x y : A) :
  NoDup (map f l) -> In x l -> In y l -> f x = f y -> x = y.
Proof.
  induction l as [|z l IH]; simpl; intros H Hx Hy E; [now elim Hx|].
  inversion H as [|? ? Hz Hl]; subst.
  destruct Hx as [->|Hx], Hy as [->|Hy]; auto.
  - elim Hz. rewrite E. now apply in_map.
  - elim Hz. rewrite <- E. now apply in_map.
Qed.

Lemma kids_names (ds : list dentry) :
  Forall plain_names ds -> NoDup (map dname ds) ->
  NoDup (map name (kids ds)) /\
  Forall (fun y => memchr_slash (name y) = None) (kids ds) /\
  (forall d, In d ds ->
             if holds_file d then In (node_of d) (kids ds)
             else ~ In (dname d) (map name (kids ds))).
Proof.
  intros Hplain Hnd. split; [|split].
  - rewrite names_of_kids. apply NoDup_rev. now apply NoDup_map_filter.
  - apply Forall_forall. intros y Hy. unfold kids in Hy.
    apply in_rev in Hy. apply in_map_iff in Hy.
    destruct Hy as (d & <- & Hd). apply filter_In in Hd.
    rewrite Forall_forall in Hplain.
    pose proof (Hplain d (proj1 Hd)) as Hp.
    apply every_entry_eq in Hp. rewrite name_node_of. tauto.
  - intros d Hd. destruct (holds_file d) eqn:Hh.
    + unfold kids. apply in_rev. rewrite rev_involutive. apply in_map.
      apply filter_In. auto.
    + rewrite names_of_kids. intro K. apply in_rev in K.
      apply in_map_iff in K. destruct K as (d' & E & Hd').
      apply filter_In in Hd'. destruct Hd' as [Hin' Hh'].
      assert (d' = d) by (eapply NoDup_map_same; eassumption).
      subst d'. congruence.
Qed.

Lemma entry_at_holds (ds : list dentry) (p : string) (d : dentry) :
  entry_at ds p d -> holds_file d = true -> existsb holds_file ds = true.
Proof.
  intros Hat. induction Hat as [ds d Hin|ds n l p d Hin _ IH]; intro Hh.
  - apply existsb_exists. exists d. auto.
  - apply existsb_exists. exists (DDir n l). split; [exact Hin|].
    simpl. now apply IH.
Qed.

(** A lookup of the path of an entry finds its node when the entry holds
    a file, and nothing when it does not. *)
Lemma find_entry_at (ds : list dentry) (p : string) (d : dentry) :
  entry_at ds p d ->
  Forall plain_names ds -> NoDup (map dname ds) ->
  Forall distinct_names ds ->
  p <> "" /\
  find_sub (kids ds) p = if holds_file d then Some (node_of d) else None.
Proof.
  intro Hat.
  induction Hat as [ds d Hin|ds n l p d Hin Hat IH];
    intros Hplain Hnd Hdist;
    destruct (kids_names ds Hplain Hnd) as (Knd & Kslash & Kin).
  - pose proof (proj1 (Forall_forall _ _) Hplain d Hin) as Hp.
    apply every_entry_eq in Hp. destruct Hp as [[Hne Hslash] _].
    split; [exact Hne|]. specialize (Kin d Hin).
    destruct (holds_file d).
    + rewrite <- (name_node_of d). apply find_sub_unique; try assumption.
      now rewrite name_node_of.
    + now apply find_sub_absent.
  - pose proof (proj1 (Forall_forall _ _) Hplain _ Hin) as Hp.
    apply every_entry_eq in Hp. destruct Hp as [[Hne Hslash] Pl].
    pose proof (proj1 (Forall_forall _ _) Hdist _ Hin) as Hd.
    apply every_entry_eq in Hd. destruct Hd as [Hndl Dl].
    simpl in Hne, Hslash.
    destruct (IH Pl Hndl Dl) as [Hp Hfind].
    split; [destruct n; discriminate|].
    specialize (Kin _ Hin).
    destruct (holds_file (DDir n l)) eqn:Hh.
    + pose proof (find_sub_below _ _ p Kin Knd Kslash Hp) as E.
      rewrite node_of_dir in E. cbn [name sub] in E.
      rewrite E. exact Hfind.
    + assert (Hd : holds_file d = false).
      { destruct (holds_file d) eqn:F; [|reflexivity].
        simpl in Hh. rewrite (entry_at_holds _ _ _ Hat F) in Hh.
        discriminate. }
      rewrite Hd. now apply find_sub_missing.
Qed.

Lemma find_in_tree_of (ds : list dentry) (p : string) (d : dentry) :
  entry_at ds p d ->
  Forall plain_names ds -> distinct_names (DDir "" ds) ->
  tree_find_entry (tree_of ds) ("/" ++ p)
  = if holds_file d then Some (node_of d) else None.
Proof.
  intros Hat Hplain Hdist.
  apply every_entry_eq in Hdist. destruct Hdist as [Hnd Hdist].
  destruct (find_entry_at ds p d Hat Hplain Hnd Hdist) as [Hp Hfind].
  unfold tree_of. rewrite node_of_dir.
  change ("/" ++ p) with (String slash p).
  rewrite find_entry_root by (try reflexivity; exact Hp).
  exact Hfind.
Qed.

(** The walk of the root block of a regular directory structure builds
    the tree of the structure. *)
Lemma walk_directory_tree (fuel : nat) (base sector size : Z) (fd : file)
    (ds : list dentry) :
  disk_directory fuel (image fd) base sector size = Some ds ->
  distinct_names (DDir "" ds) ->
  Z.of_nat (List.length (image fd)) <= Z.of_N (maxbytes fd) ->
  - 2 ^ 62 <= base < 2 ^ 62 -> 0 <= sector < 2 ^ 32 -> 0 <= size ->
  Forall plain_names ds /\
  exists fd',
    xbfs_recurse_directory fuel "" base sector size (fd, tree_empty)
    = Done (fd', tree_of ds) /\
    image fd' = image fd /\ maxbytes fd' = maxbytes fd.
Proof.
  intros Hdisk Hdist Hmb Hbase Hsector Hsize.
  unfold disk_directory in Hdisk.
  destruct (block_readable (image fd) (base + sector * SECTOR_SIZE) size)
    eqn:Hblock; [|discriminate].
  pose proof (disk_records_plain _ _ _ _ _ _ _ _ Hdisk) as Hplain.
  split; [exact Hplain|].
  unfold xbfs_recurse_directory.
  destruct (recurse_readable_block
              (fun nb de' sz' s =>
                 xbfs_recurse_file_subtree fuel nb base de' sz' 0 s)
              "" base sector size fd tree_empty Hblock Hmb)
    as (fd1 & Hrec & Himg1 & Hmb1);
    [unfold SECTOR_SIZE; lia | exact Hsize |].
  rewrite Hrec.
  destruct (walk_disk_records fuel (image fd) base "" _ _ 0 ds fd1
              tree_empty Hdisk Himg1) as (fd' & Hwalk & Himg' & Hmb');
    [rewrite Hmb1; exact Hmb | exact Hbase |].
  exists fd'. rewrite Hwalk, (insert_entries ds Hplain Hdist).
  repeat split; congruence.
Qed.

(** * The order of a directory listing, for whole directory structures *)

(** C10, as amended.  The listing of a directory is ["."], [".."] and the
    names of the children in the order of the sibling list.  An insert
    leaves the list of names of the root's children as it is or puts one
    new name at its head, and so at every node below ([grows]): the
    children are listed newest first.  The walk inserts the files only,
    in the order left subtree, record, right subtree, and a directory
    becomes a child with the first file below it.  So for a directory
    structure with readable blocks and plain names that differ within each
    directory, the walk of the root block builds [tree_of ds]: the listing
    of the root and of every directory that holds a file is the reverse
    of the on-disk in-order sequence of its records, without the
    directories that hold no file; and such a directory is not found. *)
Theorem readdir_order (path : string) (buf : list string) (root : tree)
    (off sz : Z) (p : string)
    (fuel : nat) (base sector size : Z) (fd : file) (ds : list dentry) :
  (forall node,
     tree_find_entry root path = Some node -> is_dir node = true ->
     tree_readdir path buf root
     = (0, (buf ++ "." :: ".." :: map name (sub node))%list)) /\
  (map name (sub (tree_insert root p off sz)) = map name (sub root) \/
   exists c,
     map name (sub (tree_insert root p off sz)) = c :: map name (sub root)) /\
  grows root (tree_insert root p off sz) /\
  (disk_directory fuel (image fd) base sector size = Some ds ->
   distinct_names (DDir "" ds) ->
   Z.of_nat (List.length (image fd)) <= Z.of_N (maxbytes fd) ->
   - 2 ^ 62 <= base < 2 ^ 62 -> 0 <= sector < 2 ^ 32 -> 0 <= size ->
   (exists fd',
      xbfs_recurse_directory fuel "" base sector size (fd, tree_empty)
      = Done (fd', tree_of ds)) /\
   (exists offs,
      inorder fuel (slice (image fd) (base + sector * SECTOR_SIZE) size)
        size 0 = Some offs /\
      map dname ds
      = map (record_name
               (slice (image fd) (base + sector * SECTOR_SIZE) size))
            offs) /\
   tree_readdir "/" buf (tree_of ds)
   = (0, (buf ++ "." :: ".."
              :: rev (map dname (filter holds_file ds)))%list) /\
   (forall q n l,
      entry_at ds q (DDir n l) ->
      tree_readdir ("/" ++ q) buf (tree_of ds)
      = if existsb holds_file l
        then (0, (buf ++ "." :: ".."
                      :: rev (map dname (filter holds_file l)))%list)
        else (- ENOENT, buf))).
Proof.
  split; [|split; [|split]].
  - intros node Hfind Hdir. unfold tree_readdir. now rewrite Hfind, Hdir.
  - apply tree_insert_children.
  - apply grows_insert.
  - intros Hdisk Hdist Hmb Hbase Hsector Hsize.
    destruct (walk_directory_tree fuel base sector size fd ds Hdisk Hdist
                Hmb Hbase Hsector Hsize) as (Hplain & fd' & Hwalk & _).
    split; [|split; [|split]].
    + exists fd'. exact Hwalk.
    + unfold disk_directory in Hdisk.
      destruct (block_readable _ _ _); [|discriminate].
      eapply disk_records_inorder. exact Hdisk.
    + unfold tree_readdir, tree_of. rewrite node_of_dir.
      cbn [tree_find_entry String.eqb skip_name Ascii.eqb Bool.eqb slash
           is_dir sub].
      now rewrite names_of_kids.
    + intros q n l Hat. unfold tree_readdir.
      rewrite (find_in_tree_of ds q _ Hat Hplain Hdist).
      cbn [holds_file]. destruct (existsb holds_file l); [|reflexivity].
      rewrite node_of_dir. cbn [is_dir sub]. now rewrite names_of_kids.
Qed.

Lemma readdir_order_witness :
  (exists fd',
     xbfs_recurse_directory 6 "" (-65536) 33 47
       (File nested_image 0 ext4_maxbytes, tree_empty)
     = Done (fd', tree_of nested_entries)) /\
  tree_readdir "/" [] (tree_of nested_entries) = (0, ["."; ".."; "d"; "a"]) /\
  tree_readdir "/d" [] (tree_of nested_entries) = (0, ["."; ".."; "b"]) /\
  tree_readdir "/d/f" [] (tree_of nested_entries) = (- ENOENT, []) /\
  tree_readdir "/e" [] (tree_of nested_entries) = (- ENOENT, []).
Proof.
  destruct (readdir_order "/" [] tree_empty 0 0 "" 6 (-65536) 33 47
              (File nested_image 0 ext4_maxbytes) nested_entries)
    as (_ & _ & _ & H).
  destruct H as (Hwalk & _ & Hroot & Hdir).
  - vm_compute. reflexivity.
  - simpl. repeat split; repeat constructor; simpl; intuition discriminate.
  - vm_compute. discriminate.
  - lia.
  - lia.
  - lia.
  - split; [exact Hwalk|]. split; [exact Hroot|].
    split; [|split].
    + apply (Hdir "d" "d" [DFile "b" 10240 5; DDir "f" []]).
      apply (entry_here nested_entries
               (DDir "d" [DFile "b" 10240 5; DDir "f" []])).
      simpl. tauto.
    + apply (Hdir "d/f" "f" []).
      apply (entry_below nested_entries "d" [DFile "b" 10240 5; DDir "f" []]
               "f" (DDir "f" [])).
      * simpl. tauto.
      * apply (entry_here _ (DDir "f" [])). simpl. tauto.
    + apply (Hdir "e" "e" []).
      apply (entry_here nested_entries (DDir "e" [])). simpl. tauto.
Defined.

(** The directory structure of the image of the counterexample: the
    directory ["e"] is there and holds nothing. *)
Example empty_dir_entries :
  disk_directory 4 empty_dir_image (-65536) 33 31
  = Some [DFile "a" 4096 3; DDir "e" []].
Proof. vm_compute. reflexivity. Qed.

(** * From the image to the bytes of a file *)

Lemma tree_read_bytes (path : string) (count off : Z) (root : tree)
    (fd : file) (node : tree) :
  tree_find_entry root path = Some node -> is_dir node = false ->
  0 <= off < size node -> 0 <= count < 2 ^ 63 ->
  0 <= offset node ->
  offset node + size node <= Z.of_nat (List.length (image fd)) ->
  Z.of_nat (List.length (image fd)) <= Z.of_N (maxbytes fd) ->
  Z.of_nat (List.length (image fd)) < 2 ^ 62 ->
  let n := Z.min (Z.min count (size node - off)) MAX_RW_COUNT in
  tree_read path count off root fd
  = (n, slice (image fd) (offset node + off) n,
     File (image fd) (offset node + off + n) (maxbytes fd)).
Proof.
  intros Hfind Hfile Hoff Hcount Hstart Hend Hmb Hlen n.
  unfold tree_read. rewrite Hfind, Hfile.
  rewrite geb_false by lia.
  rewrite clipped_count by lia.
  rewrite to_off_t_small by lia.
  rewrite lseek_accepted by lia.
  rewrite read_eq by (unfold SSIZE_MAX; lia).
  cbn [image cursor maxbytes]. fold n.
  assert (Hn : Z.of_nat (List.length
                           (slice (image fd) (offset node + off) n)) = n).
  { rewrite slice_length; unfold n, MAX_RW_COUNT; lia. }
  rewrite Hn.
  rewrite to_int_small by (unfold n, MAX_RW_COUNT; lia).
  reflexivity.
Qed.

(** X15.  From the image to the bytes of a file.  Let sector [k] be the
    first sector with the signature, and let the directory structure that
    starts at the root block it points to be regular, with names that
    differ within each directory.  Then the mount succeeds and builds the
    tree of the structure; every file of the structure, in whatever
    directory, is found under its path with its byte offset
    [(k - 32 + data_sector) * 2048] and its size; and when the data of the
    file lie inside the image, a read at an offset inside the file hands
    out the bytes of the image from that position on, as many as asked
    for, clipped to the end of the file and to [MAX_RW_COUNT], and returns
    their number. *)
Theorem mounted_file_bytes (img : list byte) (pos0 : Z) (mb : N)
    (fuel : nat) (k : Z) (ds : list dentry) :
  Z.of_nat (List.length img) < 2 ^ 62 ->
  Z.of_nat (List.length img) <= Z.of_N mb ->
  0 <= k ->
  (forall j, 0 <= j < k -> ~ signature_at img j) ->
  full_sector img k -> signature_at img k ->
  (Z.to_nat k < fuel)%nat ->
  disk_directory fuel img ((k - 32) * SECTOR_SIZE)
    (le32_at (sector img k) 0x14) (le32_at (sector img k) 0x18) = Some ds ->
  distinct_names (DDir "" ds) ->
  exists x,
    xbfs_init fuel (File img pos0 mb) = Done (Some x) /\
    image (xbfs_fd x) = img /\ maxbytes (xbfs_fd x) = mb /\
    xbfs_tree x = tree_of ds /\
    forall p n off sz,
      entry_at ds p (DFile n off sz) ->
      tree_find_entry (xbfs_tree x) ("/" ++ p) = Some (new_file n off sz) /\
      forall count o,
        0 <= o < sz -> 0 <= count < 2 ^ 63 ->
        0 <= off -> off + sz <= Z.of_nat (List.length img) ->
        xbfs_read ("/" ++ p) count o x
        = (Z.min (Z.min count (sz - o)) MAX_RW_COUNT,
           slice img (off + o) (Z.min (Z.min count (sz - o)) MAX_RW_COUNT),
           File img (off + o + Z.min (Z.min count (sz - o)) MAX_RW_COUNT)
                mb).
Proof.
  intros Hlen Hmb Hk Hno Hfull Hsig Hfuel Hdisk Hdist.
  pose proof (le32_at_range (sector img k) 0x14) as Hrs.
  pose proof (le32_at_range (sector img k) 0x18) as Hrz.
  pose proof Hfull as Hbound. apply (full_sector_iff img k Hk) in Hbound.
  assert (Hscan : scan_signature fuel (lseek (File img pos0 mb) 0) 0
                  = Done (Some (Volume (File img (SECTOR_SIZE * (k + 1)) mb)
                                  ((k - 32) * SECTOR_SIZE)
                                  (le32_at (sector img k) 0x14)
                                  (le32_at (sector img k) 0x18)))).
  { rewrite lseek_accepted by (simpl; lia). cbn [image maxbytes].
    change (File img 0 mb) with (File img (SECTOR_SIZE * 0) mb).
    change 0 with (SECTOR_SIZE * 0) at 2.
    apply (scan_found img mb k ltac:(lia) Hfull Hsig (Z.to_nat k) 0 fuel);
      try lia. exact Hno. }
  destruct (walk_directory_tree fuel ((k - 32) * SECTOR_SIZE)
              (le32_at (sector img k) 0x14) (le32_at (sector img k) 0x18)
              (File img (SECTOR_SIZE * (k + 1)) mb) ds Hdisk Hdist)
    as (Hplain & fd' & Hwalk & Himg' & Hmb').
  { exact Hmb. }
  { unfold SECTOR_SIZE in *. lia. }
  { exact Hrs. }
  { lia. }
  cbn [image maxbytes] in Himg', Hmb'.
  exists (Xbfs fd' (tree_of ds)).
  split; [|split; [exact Himg' | split; [exact Hmb' | split;
                                         [reflexivity|]]]].
  - unfold xbfs_init. rewrite Hscan. unfold bind at 1.
    cbn [filesystem_base_offset root_directory_sector root_directory_size
         vol_fd].
    unfold state in *. rewrite Hwalk. reflexivity.
  - intros p n off sz Hat. cbn [xbfs_tree].
    pose proof (find_in_tree_of ds p _ Hat Hplain Hdist) as Hfind.
    cbn [holds_file node_of] in Hfind.
    split; [exact Hfind|].
    intros count o Ho Hcount Hoff Hend.
    unfold xbfs_read. cbn [xbfs_tree xbfs_fd].
    rewrite (tree_read_bytes ("/" ++ p) count o (tree_of ds) fd'
               (new_file n off sz) Hfind eq_refl);
      cbn [new_file offset size]; rewrite ?Himg', ?Hmb';
      try assumption; reflexivity.
Qed.

Lemma mounted_file_bytes_witness :
  exists x,
    xbfs_init 6 (File nested_image 0 ext4_maxbytes) = Done (Some x) /\
    xbfs_tree x = tree_of nested_entries /\
    tree_find_entry (xbfs_tree x) "/d/b" = Some (new_file "b" 10240 5) /\
    xbfs_read "/d/b" 100 1 x
    = (4, list_byte_of_string "ello",
       File nested_image 10245 ext4_maxbytes).
Proof.
  destruct (mounted_file_bytes nested_image 0 ext4_maxbytes 6 0
              nested_entries) as (x & Hinit & _ & _ & Htree & Hfile).
  - vm_compute. reflexivity.
  - vm_compute. discriminate.
  - lia.
  - intros j Hj. lia.
  - vm_compute. reflexivity.
  - vm_compute. reflexivity.
  - simpl. lia.
  - vm_compute. reflexivity.
  - simpl. repeat split; repeat constructor; simpl; intuition discriminate.
  - exists x. split; [exact Hinit|]. split; [exact Htree|].
    destruct (Hfile "d/b" "b" 10240 5) as (Hfind & Hread).
    { apply (entry_below nested_entries "d"
               [DFile "b" 10240 5; DDir "f" []] "b" (DFile "b" 10240 5)).
      - simpl. tauto.
      - apply (entry_here _ (DFile "b" 10240 5)). simpl. tauto. }
    split; [exact Hfind|].
    refine (eq_trans (Hread 100 1 _ _ _ _) _);
      [lia | lia | lia | vm_compute; discriminate | reflexivity].
Defined.
